(** * Quantization parameter estimation and parallel linear quantization

    A shallow embedding of [onnxruntime/core/util/qmath.h]:
    [RoundHalfToEven], [GetQuantizationParameter], the 4-bit quantizers
    generated by [DEFINE_PAR_QUANT_LINEAR_STD_4BIT], both overloads of
    [ParQuantizeLinearStd] and both overloads of [ParQuantizeLinearSat].

    - [float] is IEEE-754 binary32, modelled by the Standard Library's
      [spec_float] at precision 24 and maximal exponent 128;
    - [size_t], [ptrdiff_t], [int64_t] and [int32_t] are integers in [Z]
      with their wrap-around written out;
    - buffers are lists indexed from 0; an access outside a buffer is an
      error of the result monad;
    - the parallel-for service is a scheduler: the [(begin, end)]
      ranges of work units it calls the body on. *)

From Stdlib Require Import ZArith List Bool Lia Permutation QArith Qabs.
From Stdlib Require Import Floats.SpecFloat.
Import ListNotations.
Local Open Scope Z_scope.

(** ** Results of code that can go wrong *)

Inductive error : Type :=
| OutOfBounds        (* an index outside the buffer it is applied to *)
| UndefinedCast      (* a float-to-integer cast or an int addition whose value does not fit *)
| AssertionFailure.  (* a failed [assert] *)

Inductive result (A : Type) : Type :=
| Ok (a : A)
| Err (e : error).
Arguments Ok {A} a.
Arguments Err {A} e.

Definition bind {A B : Type} (r : result A) (k : A -> result B) : result B :=
  match r with
  | Ok a => k a
  | Err e => Err e
  end.

Declare Scope result_scope.
Delimit Scope result_scope with result.
Notation "x <- c1 ;; c2" := (bind c1 (fun x => c2))
  (at level 61, c1 at next level, right associativity) : result_scope.
Notation "' pat <- c1 ;; c2" := (bind c1 (fun x => match x with pat => c2 end))
  (at level 61, pat pattern, c1 at next level, right associativity) : result_scope.
Local Open Scope result_scope.

(** ** Machine integers *)

Module Int.

(** [size_t]: unsigned, 64 bits. *)
Definition size_max : Z := 2 ^ 64 - 1.
Definition size_wrap (z : Z) : Z := z mod 2 ^ 64.
Definition size_add (a b : Z) : Z := size_wrap (a + b).
Definition size_sub (a b : Z) : Z := size_wrap (a - b).

(** [int64_t] and [ptrdiff_t]: two's complement, 64 bits. *)
Definition int64_max : Z := 2 ^ 63 - 1.
Definition int64_min : Z := - 2 ^ 63.
Definition int64_wrap (z : Z) : Z := (z + 2 ^ 63) mod 2 ^ 64 - 2 ^ 63.
Definition add64 (a b : Z) : Z := int64_wrap (a + b).
Definition sub64 (a b : Z) : Z := int64_wrap (a - b).
Definition mul64 (a b : Z) : Z := int64_wrap (a * b).
(** C++ integer division truncates toward zero. *)
Definition div64 (a b : Z) : Z := int64_wrap (Z.quot a b).
Definition rem64 (a b : Z) : Z := Z.rem a b.

(** [static_cast<std::ptrdiff_t>] of a [size_t]. *)
Definition ptrdiff_of_size (z : Z) : Z := int64_wrap z.
(** a [ptrdiff_t] passed where a [size_t] is expected. *)
Definition size_of_ptrdiff (z : Z) : Z := size_wrap z.

(** [int32_t]. *)
Definition int32_max : Z := 2 ^ 31 - 1.
Definition int32_min : Z := - 2 ^ 31.
Definition in_int32 (z : Z) : bool := (int32_min <=? z) && (z <=? int32_max).

(** Signed [int] addition: an overflow is undefined. *)
Definition add32 (a b : Z) : result Z :=
  if in_int32 (a + b) then Ok (a + b) else Err UndefinedCast.

(** [onnxruntime::narrow<std::ptrdiff_t>] of an [int64_t]: both have 64
    bits, the value never changes. *)
Definition narrow (z : Z) : Z := z.

End Int.

(** ** The partition of [GetQuantizationParameter] (lines 53-63) *)

Definition MAX_DEGREE_OF_PAR_FOR_MINMAX : Z := 32.
Definition granularity : Z := 128.

(** [should_parallelize] is the answer of
    [concurrency::ThreadPool::ShouldParallelize(thread_pool)].
    The result is [(block_size, num_blocks)]. *)
Definition minmax_partition (should_parallelize : bool) (num_of_elements : Z)
  : Z * Z :=
  if should_parallelize && (granularity <? num_of_elements) then
    let block_size :=
      Int.narrow (Int.div64
        (Int.sub64 (Int.add64 num_of_elements MAX_DEGREE_OF_PAR_FOR_MINMAX) 1)
        MAX_DEGREE_OF_PAR_FOR_MINMAX) in
    let block_size :=
      Int.mul64
        (Int.div64 (Int.sub64 (Int.add64 block_size granularity) 1) granularity)
        granularity in
    let num_blocks :=
      Int.narrow (Int.div64
        (Int.sub64 (Int.add64 num_of_elements block_size) 1) block_size) in
    (block_size, num_blocks)
  else
    (Int.narrow num_of_elements, 1).

(** The slot a unit starting at block [begin] writes (line 74). *)
Definition agg_idx (begin num_blocks : Z) : Z := Int.rem64 begin num_blocks.

(** ** Buffers *)

Definition read {A : Type} (buf : list A) (i : Z) : result A :=
  if (i <? 0) || (Z.of_nat (length buf) <=? i) then Err OutOfBounds
  else match nth_error buf (Z.to_nat i) with
       | Some a => Ok a
       | None => Err OutOfBounds
       end.

Fixpoint update {A : Type} (buf : list A) (n : nat) (a : A) : list A :=
  match buf, n with
  | [], _ => []
  | _ :: t, O => a :: t
  | h :: t, S n' => h :: update t n' a
  end.

Definition write {A : Type} (buf : list A) (i : Z) (a : A) : result (list A) :=
  if (i <? 0) || (Z.of_nat (length buf) <=? i) then Err OutOfBounds
  else Ok (update buf (Z.to_nat i) a).

(** The [count] elements a pointer [&buf[start]] gives access to. *)
Definition slice {A : Type} (buf : list A) (start count : Z) : result (list A) :=
  if (start <? 0) || (count <? 0) || (Z.of_nat (length buf) <? start + count)
  then Err OutOfBounds
  else Ok (firstn (Z.to_nat count) (skipn (Z.to_nat start) buf)).

(** [for (i = lo; i < lo + n; i++) body(i)] over a state. *)
Fixpoint for_loop {S : Type} (n : nat) (i : Z) (body : Z -> S -> result S)
  (st : S) : result S :=
  match n with
  | O => Ok st
  | Datatypes.S n' => st' <- body i st ;; for_loop n' (i + 1) body st'
  end.

(** ** The parallel-for service *)

(** Modelled from the spec: [concurrency::ThreadPool::TryParallelFor]
    (core/platform/threadpool.h is not part of the sources) is the blocking
    parallel-for of section 6: it partitions [total] work units into ranges
    [(begin, end)], calls the body on each of them, on some thread or inline,
    and returns once all of them are done. The ranges it chooses for a number of units and
    the order they complete in are the scheduler. *)
Definition scheduler : Type := Z -> list (Z * Z).

Fixpoint run_ranges {S : Type} (ranges : list (Z * Z))
  (fn : Z -> Z -> S -> result S) (st : S) : result S :=
  match ranges with
  | [] => Ok st
  | (begin, end_) :: rest => st' <- fn begin end_ st ;; run_ranges rest fn st'
  end.

Definition TryParallelFor {S : Type} (sched : scheduler) (total : Z)
  (fn : Z -> Z -> S -> result S) (st : S) : result S :=
  if total <=? 0 then Ok st else run_ranges (sched total) fn st.

(** Consecutive non-empty ranges from [a] to [b]. *)
Inductive chain : Z -> Z -> list (Z * Z) -> Prop :=
| chain_nil a : chain a a []
| chain_cons a b c l : a < b -> chain b c l -> chain a c ((a, b) :: l).

(** What the service guarantees: the ranges it calls the body on are a
    partition of [0, total), taken in any order. *)
Definition valid_scheduler (sched : scheduler) : Prop :=
  forall total, 0 < total ->
    exists l, chain 0 total l /\ Permutation l (sched total).

(** Two schedulers: everything inline in one call, and one call per unit,
    last unit first. *)
Definition inline_scheduler : scheduler := fun total => [(0, total)].
Definition reverse_scheduler : scheduler :=
  fun total => rev (map (fun i => (Z.of_nat i, Z.of_nat i + 1))
                        (seq 0 (Z.to_nat total))).

(** ** binary32 *)

Definition float : Type := spec_float.

Module F32.

Definition prec : Z := 24.
Definition emax : Z := 128.

Definition valid (x : float) : bool := valid_binary prec emax x.

Definition add : float -> float -> float := SFadd prec emax.
Definition sub : float -> float -> float := SFsub prec emax.
Definition div : float -> float -> float := SFdiv prec emax.
Definition neg : float -> float := SFopp.
Definition abs : float -> float := SFabs.
Definition ltb : float -> float -> bool := SFltb.
Definition leb : float -> float -> bool := SFleb.
Definition eqb : float -> float -> bool := SFeqb.

(** The float nearest to [m * 2^e]. *)
Definition of_dyadic (m e : Z) : float := binary_normalize prec emax m e false.
(** Conversion of an integer. *)
Definition of_Z (z : Z) : float := of_dyadic z 0.

Definition zero : float := S754_zero false.
Definition one : float := of_Z 1.
(** [std::numeric_limits<float>::max()] and [lowest()]. *)
Definition FLT_MAX : float := SFmax_float prec emax.
Definition FLT_LOWEST : float := SFopp FLT_MAX.

Definition isfinite (x : float) : bool :=
  match x with
  | S754_zero _ | S754_finite _ _ _ => true
  | S754_infinity _ | S754_nan => false
  end.

Definition isnan (x : float) : bool :=
  match x with
  | S754_nan => true
  | _ => false
  end.

(** The value of a finite float, as a rational. *)
Definition to_Q (x : float) : Q :=
  match x with
  | S754_finite s m e =>
      if 0 <=? e then inject_Z (cond_Zopp s (Zpos m) * 2 ^ e)
      else Qmake (cond_Zopp s (Zpos m)) (Z.to_pos (2 ^ (- e)))
  | _ => 0%Q
  end.

(** [std::min] and [std::max]: the first argument unless the comparison
    holds. *)
Definition std_min (a b : float) : float := if ltb b a then b else a.
Definition std_max (a b : float) : float := if ltb a b then b else a.

(** [num / den] rounded to the nearest integer, halves to the even one
    ([0 < den]). *)
Definition Zrne (num den : Z) : Z :=
  let q := num / den in
  let r := num mod den in
  match 2 * r ?= den with
  | Lt => q
  | Gt => q + 1
  | Eq => if Z.even q then q else q + 1
  end.

(** [std::remainderf] (IEEE 754 remainder): [x - n * y] where [n] is the
    integer nearest to [x / y], the even one when there are two; the
    result is exact, and a zero result has the sign of [x]. *)
Definition remainderf (x y : float) : float :=
  match x, y with
  | S754_nan, _ | _, S754_nan => S754_nan
  | S754_infinity _, _ => S754_nan
  | _, S754_zero _ => S754_nan
  | _, S754_infinity _ => x
  | S754_zero _, S754_finite _ _ _ => x
  | S754_finite sx mx ex, S754_finite _ my ey =>
      let e0 := Z.min ex ey in
      let X := Zpos mx * 2 ^ (ex - e0) in
      let Y := Zpos my * 2 ^ (ey - e0) in
      let R := X - Zrne X Y * Y in
      match R with
      | Z0 => S754_zero sx
      | _ => binary_normalize prec emax (cond_Zopp sx R) e0 false
      end
  end.

(** The magnitude of a finite float rounded to the nearest integer, halves
    to even. *)
Definition rint_mag (m : positive) (e : Z) : Z :=
  if 0 <=? e then Zpos m * 2 ^ e else Zrne (Zpos m) (2 ^ (- e)).

(** [std::nearbyintf] in the default rounding mode: the nearest integer,
    halves to even, as a float with the sign of the argument. *)
Definition nearbyintf (x : float) : float :=
  match x with
  | S754_finite s m e =>
      if 0 <=? e then x
      else match rint_mag m e with
           | Z0 => S754_zero s
           | n => binary_normalize prec emax (cond_Zopp s n) 0 false
           end
  | _ => x
  end.

(** The integer part of a float, toward zero; nothing for infinities and
    NaN. *)
Definition trunc (x : float) : option Z :=
  match x with
  | S754_zero _ => Some 0
  | S754_finite s m e =>
      Some (cond_Zopp s (if 0 <=? e then Zpos m * 2 ^ e
                         else Zpos m / 2 ^ (- e)))
  | _ => None
  end.

(** A float-to-integer conversion to a type of range [lo, hi] discards the
    fraction; it is undefined when the integer part is not in the range. *)
Definition static_cast_int (lo hi : Z) (x : float) : result Z :=
  match trunc x with
  | Some z => if (lo <=? z) && (z <=? hi) then Ok z else Err UndefinedCast
  | None => Err UndefinedCast
  end.

Definition static_cast_int32 : float -> result Z :=
  static_cast_int Int.int32_min Int.int32_max.

End F32.

(** ** RoundHalfToEven (lines 16-22) *)

Definition RoundHalfToEven (input : float) : float :=
  if negb (F32.isfinite input) then input
  else F32.sub input (F32.remainderf input F32.one).

(** ** GetQuantizationParameter (lines 38-108) *)

Record FloatMinMax : Type := { min : float; max : float }.

(** Modelled from the spec: [MlasFindMinMaxElement] (core/mlas is not part of
    the sources) is the vector kernel [FindMinMax(data, count) -> (min, max)]
    of section 6, called with pointers to the accumulator slot of the unit:
    it scans its elements into the slot's minimum and maximum, with the
    comparisons of [std::min] and [std::max]. *)
Definition MlasFindMinMaxElement (Input : list float) (Min Max : float)
  : float * float :=
  fold_left (fun acc x => (F32.std_min (fst acc) x, F32.std_max (snd acc) x))
            Input (Min, Max).

Inductive QType : Type := Int8 | UInt8.

Definition is_int8 (T : QType) : bool :=
  match T with Int8 => true | UInt8 => false end.

(** [std::numeric_limits<QType>::min()] and [max()]. *)
Definition numeric_limits_min (T : QType) : Z :=
  match T with Int8 => -128 | UInt8 => 0 end.
Definition numeric_limits_max (T : QType) : Z :=
  match T with Int8 => 127 | UInt8 => 255 end.

(** The body of the parallel-for (lines 71-76). *)
Definition minmax_unit (data : list float) (num_of_elements : Z)
  (block_size num_blocks : Z) (begin end_ : Z) (aggregate : list FloatMinMax)
  : result (list FloatMinMax) :=
  let begin_idx := Int.mul64 begin block_size in
  let end_idx := Z.min (Int.narrow num_of_elements) (Int.mul64 end_ block_size) in
  let agg_idx := agg_idx begin num_blocks in
  block <- slice data begin_idx (Int.size_of_ptrdiff (Int.sub64 end_idx begin_idx)) ;;
  slot <- read aggregate agg_idx ;;
  let '(mn, mx) := MlasFindMinMaxElement block (min slot) (max slot) in
  write aggregate agg_idx {| min := mn; max := mx |}.

(** Lines 49-86: the minimum and maximum of the data, widened to include
    zero. [aggregate] is the 32-slot array as it is found on the stack. *)
Definition minmax_reduce (data : list float) (num_of_elements : Z)
  (should_parallelize : bool) (sched : scheduler) (aggregate : list FloatMinMax)
  : result (float * float) :=
  let '(block_size, num_blocks) :=
    minmax_partition should_parallelize num_of_elements in
  aggregate <- for_loop (Z.to_nat num_blocks) 0
    (fun i agg => write agg i {| min := F32.FLT_MAX; max := F32.FLT_LOWEST |})
    aggregate ;;
  aggregate <- TryParallelFor sched num_blocks
    (minmax_unit data num_of_elements block_size num_blocks) aggregate ;;
  slot0 <- read aggregate 0 ;;
  mm <- for_loop (Z.to_nat (num_blocks - 1)) 1
    (fun i mm =>
       slot <- read aggregate i ;;
       Ok (F32.std_min (fst mm) (min slot), F32.std_max (snd mm) (max slot)))
    (min slot0, max slot0) ;;
  Ok mm.

(** Lines 84-86. *)
Definition include_zero (mm : float * float) : float * float :=
  (F32.std_min (fst mm) F32.zero, F32.std_max (snd mm) F32.zero).

(** Lines 89-95: the quantized range [(qmin, qmax)]. *)
Definition quant_range (T : QType) (ReduceRange : bool) : Z * Z :=
  let qmin := numeric_limits_min T in
  let qmax := numeric_limits_max T in
  if is_int8 T && ReduceRange then (-64, 64) else (qmin, qmax).

(** Lines 88-107: scale and zero point from the widened range. *)
Definition scale_zero_point (T : QType) (ReduceRange Symmetric : bool)
  (min max : float) : result (float * Z) :=
  let '(qmin, qmax) := quant_range T ReduceRange in
  if is_int8 T && Symmetric then
    let zp := 0 in
    let max_value := F32.std_max max (F32.neg min) in
    let scale :=
      if F32.ltb F32.zero max_value then F32.div max_value (F32.of_Z qmax)
      else F32.one in
    Ok (scale, zp)
  else
    let scale :=
      if F32.eqb max min then F32.one
      else F32.div (F32.sub max min) (F32.of_Z (qmax - qmin)) in
    let initial_zero_point := F32.sub (F32.of_Z qmin) (F32.div min scale) in
    zp <- F32.static_cast_int (numeric_limits_min T) (numeric_limits_max T)
            (RoundHalfToEven
               (F32.std_max (F32.of_Z qmin)
                  (F32.std_min (F32.of_Z qmax) initial_zero_point))) ;;
    Ok (scale, zp).

Definition GetQuantizationParameter (T : QType) (ReduceRange Symmetric : bool)
  (data : list float) (num_of_elements : Z)
  (should_parallelize : bool) (sched : scheduler) (aggregate : list FloatMinMax)
  : result (float * Z) :=
  mm <- minmax_reduce data num_of_elements should_parallelize sched aggregate ;;
  let '(min, max) := include_zero mm in
  scale_zero_point T ReduceRange Symmetric min max.

(** ** The 4-bit quantizers (lines 152-228) *)

Inductive Int4Type : Type := Int4x2 | UInt4x2.

Definition min_val (T : Int4Type) : Z :=
  match T with Int4x2 => -8 | UInt4x2 => 0 end.
Definition max_val (T : Int4Type) : Z :=
  match T with Int4x2 => 7 | UInt4x2 => 15 end.

(** Modelled from the spec: [Int4x2] and [UInt4x2] (core/framework/int4.h is
    not part of the sources) are the PackedByte of section 3, a byte holding
    two independent 4-bit lanes, each addressable and settable on its own:
    lane 0 is the low nibble and lane 1 the high nibble. A packed value is
    its byte, in [0, 256). *)
Definition GetElem (T : Int4Type) (bits index : Z) : Z :=
  let v := Z.land (Z.shiftr bits (4 * index)) 15 in
  match T with
  | UInt4x2 => v
  | Int4x2 => if v <? 8 then v else v - 16
  end.

Definition SetElem (bits index val : Z) : Z :=
  Z.lor (Z.land bits (Z.shiftr 240 (4 * index)))
        (Z.shiftl (Z.land val 15) (4 * index)).

(** Lines 165-171 and 180-186: one element, rounded to the nearest integer,
    shifted by the zero point and clamped to the range of the type. *)
Definition quantize_int4 (T : Int4Type) (x Scale : float) (zero_point : Z)
  : result Z :=
  r <- F32.static_cast_int32 (F32.nearbyintf (F32.div x Scale)) ;;
  ival <- Int.add32 r zero_point ;;
  Ok (Z.min (max_val T) (Z.max (min_val T) ival)).

(** Modelled from the spec: [MlasQuantizeLinearS4] and [MlasQuantizeLinearU4]
    (core/mlas is not part of the sources) are the vector kernel
    [QuantizeLinear(data, count, scale, zero_point)] of section 6 for 4-bit
    packed lanes: element [n] of its input, quantized by the rule of the
    scalar code, goes to lane [n mod 2] of byte [n / 2] of its output. *)
Fixpoint MlasQuantizeLinear4_loop (T : Int4Type) (block : list float) (n : Z)
  (Output : list Z) (out_byte : Z) (Scale : float) (ZeroPoint : Z)
  : result (list Z) :=
  match block with
  | [] => Ok Output
  | x :: rest =>
      v <- quantize_int4 T x Scale ZeroPoint ;;
      let i := out_byte + Z.shiftr n 1 in
      byte <- read Output i ;;
      Output <- write Output i (SetElem byte (Z.land n 1) v) ;;
      MlasQuantizeLinear4_loop T rest (n + 1) Output out_byte Scale ZeroPoint
  end.

(** [Input] and [Output] are the buffers the pointers [&Input[inp_idx]] and
    [&Output[out_byte]] point into. *)
Definition MlasQuantizeLinear4 (T : Int4Type) (Input : list float) (inp_idx : Z)
  (Output : list Z) (out_byte : Z) (N : Z) (Scale : float) (ZeroPoint : Z)
  : result (list Z) :=
  block <- slice Input inp_idx N ;;
  MlasQuantizeLinear4_loop T block 0 Output out_byte Scale ZeroPoint.

Definition block_size : Z := 128.

(** [(N + block_size - 1) / block_size] of a [size_t N], as a [ptrdiff_t]. *)
Definition num_blocks_of (N : Z) : Z :=
  Int.ptrdiff_of_size (Int.size_sub (Int.size_add N block_size) 1 / block_size).

(** Lines 214-217 and 221: where a unit reads, where it writes and how many
    elements it handles, [(inp_idx, out_idx, end_idx - begin_idx)]. *)
Definition par4_span (N inp_start out_start begin end_ : Z) : Z * Z * Z :=
  let begin_idx := Int.mul64 begin block_size in
  let end_idx := Z.min (Int.ptrdiff_of_size N) (Int.mul64 end_ block_size) in
  let inp_idx := Int.add64 begin_idx (Int.ptrdiff_of_size inp_start) in
  let out_idx := Int.add64 begin_idx (Int.ptrdiff_of_size out_start) in
  (inp_idx, out_idx, Int.sub64 end_idx begin_idx).

(** The body of the parallel-for (lines 213-224). *)
Definition par4_unit (T : Int4Type) (Input : list float)
  (N inp_start out_start : Z) (Scale : float) (ZeroPoint : Z)
  (begin end_ : Z) (Output : list Z) : result (list Z) :=
  let '(inp_idx, out_idx, count) := par4_span N inp_start out_start begin end_ in
  MlasQuantizeLinear4 T Input inp_idx Output (Z.shiftr out_idx 1)
    (Int.size_of_ptrdiff count) Scale (GetElem T ZeroPoint 0).

(** Lines 164-176: the element in the middle of the first byte. The result
    is [(Output, out_start, inp_start)]. *)
Definition quantize_first (T : Int4Type) (Input : list float) (Output : list Z)
  (out_start inp_start : Z) (Scale : float) (ZeroPoint : Z)
  : result (list Z * Z * Z) :=
  if negb (Z.land out_start 1 =? 0) then
    x <- read Input inp_start ;;
    quant_val <- quantize_int4 T x Scale (GetElem T ZeroPoint 0) ;;
    let output_index := Z.shiftr out_start 1 in
    byte <- read Output output_index ;;
    Output <- write Output output_index (SetElem byte 1 quant_val) ;;
    Ok (Output, Int.size_add out_start 1, Int.size_add inp_start 1)
  else Ok (Output, out_start, inp_start).

(** Lines 179-191: the element in the middle of the last byte. The result
    is [(Output, out_end, inp_end)]. *)
Definition quantize_last (T : Int4Type) (Input : list float) (Output : list Z)
  (out_end inp_end : Z) (Scale : float) (ZeroPoint : Z)
  : result (list Z * Z * Z) :=
  if negb (Z.land out_end 1 =? 0) then
    x <- read Input (Int.size_sub inp_end 1) ;;
    quant_val <- quantize_int4 T x Scale (GetElem T ZeroPoint 0) ;;
    let output_index := Z.shiftr (Int.size_sub out_end 1) 1 in
    byte <- read Output output_index ;;
    Output <- write Output output_index (SetElem byte 0 quant_val) ;;
    Ok (Output, Int.size_sub out_end 1, Int.size_sub inp_end 1)
  else Ok (Output, out_end, inp_end).

(** [ParQuantizeLinearStdS4] is [ParQuantizeLinearStd4 Int4x2] and
    [ParQuantizeLinearStdU4] is [ParQuantizeLinearStd4 UInt4x2]. *)
Definition ParQuantizeLinearStd4 (T : Int4Type) (Input : list float)
  (Output : list Z) (out_start out_end : Z) (Scale : float) (ZeroPoint : Z)
  (sched : scheduler) : result (list Z) :=
  let inp_start := 0 in
  let inp_end := Int.size_sub out_end out_start in
  '(Output, out_start, inp_start) <-
    quantize_first T Input Output out_start inp_start Scale ZeroPoint ;;
  '(Output, out_end, inp_end) <-
    quantize_last T Input Output out_end inp_end Scale ZeroPoint ;;
  if out_start =? out_end then Ok Output
  else
    let N := Int.size_sub out_end out_start in
    if negb (N mod 2 =? 0) then Err AssertionFailure
    else
      let num_blocks := num_blocks_of N in
      TryParallelFor sched num_blocks
        (par4_unit T Input N inp_start out_start Scale ZeroPoint) Output.

Definition ParQuantizeLinearStdS4 := ParQuantizeLinearStd4 Int4x2.
Definition ParQuantizeLinearStdU4 := ParQuantizeLinearStd4 UInt4x2.

(** The cursors [(out_start, out_end, inp_start, inp_end)] after lines
    160-191. *)
Definition boundary_cursors (out_start out_end : Z) : Z * Z * Z * Z :=
  let inp_start := 0 in
  let inp_end := Int.size_sub out_end out_start in
  let '(out_start, inp_start) :=
    if negb (Z.land out_start 1 =? 0)
    then (Int.size_add out_start 1, Int.size_add inp_start 1)
    else (out_start, inp_start) in
  let '(out_end, inp_end) :=
    if negb (Z.land out_end 1 =? 0)
    then (Int.size_sub out_end 1, Int.size_sub inp_end 1)
    else (out_end, inp_end) in
  (out_start, out_end, inp_start, inp_end).

(** The cursor updates of lines 174-175 and 189-190. *)
Definition first_cursor (out_start inp_start : Z) : Z * Z :=
  if negb (Z.land out_start 1 =? 0)
  then (Int.size_add out_start 1, Int.size_add inp_start 1)
  else (out_start, inp_start).

Definition last_cursor (out_end inp_end : Z) : Z * Z :=
  if negb (Z.land out_end 1 =? 0)
  then (Int.size_sub out_end 1, Int.size_sub inp_end 1)
  else (out_end, inp_end).

(** The fully sequential reference of the spec: the elements of
    [out_start, out_end) one after the other, each quantized on its own and
    stored in the low nibble of its byte when its index is even, in the high
    nibble when it is odd. *)
Fixpoint reference4_loop (T : Int4Type) (Input : list float) (i : Z)
  (Output : list Z) (Scale : float) (ZeroPoint : Z) : result (list Z) :=
  match Input with
  | [] => Ok Output
  | x :: rest =>
      v <- quantize_int4 T x Scale (GetElem T ZeroPoint 0) ;;
      byte <- read Output (i / 2) ;;
      Output <- write Output (i / 2) (SetElem byte (i mod 2) v) ;;
      reference4_loop T rest (i + 1) Output Scale ZeroPoint
  end.

Definition reference4 (T : Int4Type) (Input : list float) (Output : list Z)
  (out_start out_end : Z) (Scale : float) (ZeroPoint : Z) : result (list Z) :=
  block <- slice Input 0 (out_end - out_start) ;;
  reference4_loop T block out_start Output Scale ZeroPoint.

(** ** The MLFloat16 overload of ParQuantizeLinearStd (lines 238-257) *)

(** IEEE-754 binary16: precision 11, maximal exponent 16. *)
Definition MLFloat16 : Type := spec_float.

Module F16.
Definition prec : Z := 11.
Definition emax : Z := 16.
Definition valid (h : MLFloat16) : bool := valid_binary prec emax h.
Definition of_dyadic (m e : Z) : MLFloat16 := binary_normalize prec emax m e false.
End F16.

(** Modelled from the spec: [MLFloat16::ToFloat] (core/framework/float16.h
    is not part of the sources) widens a narrow float to the working float
    type, section 4.3. *)
Definition ToFloat (h : MLFloat16) : float :=
  match h with
  | S754_finite s m e => binary_normalize F32.prec F32.emax (cond_Zopp s (Zpos m)) e false
  | _ => h
  end.

Inductive OutputType : Type := I8 | U8 | I16 | U16.

(** [std::numeric_limits<OutputType>::lowest()] and [max()]. *)
Definition lowest (T : OutputType) : Z :=
  match T with I8 => -128 | U8 => 0 | I16 => -32768 | U16 => 0 end.
Definition highest (T : OutputType) : Z :=
  match T with I8 => 127 | U8 => 255 | I16 => 32767 | U16 => 65535 end.

(** Lines 252-254: one element. *)
Definition quantize_f16 (T : OutputType) (x : MLFloat16) (fscale : float)
  (ZeroPoint : Z) : result Z :=
  r <- F32.static_cast_int32 (F32.div (ToFloat x) fscale) ;;
  ival <- Int.add32 r ZeroPoint ;;
  Ok (Z.min (highest T) (Z.max (lowest T) ival)).

(** The body of the parallel-for (lines 247-256). The loop runs while
    [begin_idx != end_idx]: started beyond [end_idx] it leaves the buffers. *)
Definition f16_unit (T : OutputType) (Input : list MLFloat16) (N : Z)
  (Scale : MLFloat16) (ZeroPoint : Z) (begin end_ : Z) (Output : list Z)
  : result (list Z) :=
  let begin_idx := Int.mul64 begin block_size in
  let end_idx := Z.min (Int.ptrdiff_of_size N) (Int.mul64 end_ block_size) in
  let fscale := ToFloat Scale in
  if end_idx <? begin_idx then Err OutOfBounds
  else
    for_loop (Z.to_nat (end_idx - begin_idx)) begin_idx
      (fun begin_idx Output =>
         x <- read Input begin_idx ;;
         v <- quantize_f16 T x fscale ZeroPoint ;;
         write Output begin_idx v)
      Output.

Definition ParQuantizeLinearStd_f16 (T : OutputType) (Input : list MLFloat16)
  (Output : list Z) (N : Z) (Scale : MLFloat16) (ZeroPoint : Z)
  (sched : scheduler) : result (list Z) :=
  let num_blocks := num_blocks_of N in
  TryParallelFor sched num_blocks (f16_unit T Input N Scale ZeroPoint) Output.

(** The bytes of the output a unit hands to the kernel: element [n] of its
    [count] elements goes to byte [n / 2] from [out_idx >> 1] on. The result
    is the first byte and the byte after the last one. *)
Definition par4_bytes (N inp_start out_start begin end_ : Z) : Z * Z :=
  let '(_, out_idx, count) := par4_span N inp_start out_start begin end_ in
  (Z.shiftr out_idx 1, Z.shiftr out_idx 1 + (count + 1) / 2).

(** ** The order of binary32 *)

(** A key whose lexicographic order is the order [SFcompare] gives to the
    floats that are not NaN: the class (infinities outermost, zeros in the
    middle), then exponent and mantissa, negated for negative floats. *)
Definition order_key (x : float) : Z * Z * Z :=
  match x with
  | S754_nan => (0, 0, 0)
  | S754_zero _ => (0, 0, 0)
  | S754_infinity s => (if s then -2 else 2, 0, 0)
  | S754_finite s m e => if s then (-1, - e, - Zpos m) else (1, e, Zpos m)
  end.

Definition key_lt (k1 k2 : Z * Z * Z) : Prop :=
  let '(c1, e1, m1) := k1 in
  let '(c2, e2, m2) := k2 in
  c1 < c2 \/ (c1 = c2 /\ (e1 < e2 \/ (e1 = e2 /\ m1 < m2))).

(** ** Sample inputs *)

(** A stack array that was never written: every slot holds NaN. *)
Definition garbage : list FloatMinMax :=
  repeat {| min := S754_nan; max := S754_nan |} 32.

(** 200 times 5.0, then -3.0: two blocks of the parallel branch. *)
Definition sample_data : list float :=
  repeat (F32.of_Z 5) 200 ++ [F32.of_Z (-3)].

(** The smallest positive float, 2^-149. *)
Definition denorm_min : float := F32.of_dyadic 1 (-149).

(** ** The scale of symmetric quantization, as the spec words it *)

(** Section 4.2: "let m = max(|min|, max); scale = m / qmax if m > 0, else
    1.0". *)
Definition symmetric_scale (min max : float) (qmax : Z) : float :=
  let m := F32.std_max (F32.abs min) max in
  if F32.ltb F32.zero m then F32.div m (F32.of_Z qmax) else F32.one.

(** ** Auxiliary definitions of the proofs *)

(** The elements [lo, hi) of a buffer. *)
Definition block_of {A : Type} (buf : list A) (lo hi : Z) : list A :=
  firstn (Z.to_nat (hi - lo)) (skipn (Z.to_nat lo) buf).

(** The accumulator slot as the reduction initialises it (lines 66-67). *)
Definition init_slot : FloatMinMax :=
  {| min := F32.FLT_MAX; max := F32.FLT_LOWEST |}.

(** What the unit of the blocks [begin, end) leaves in its slot. *)
Definition unit_slot (data : list float) (num_of_elements block_size : Z)
  (u : Z * Z) : FloatMinMax :=
  let blk := block_of data (fst u * block_size)
                      (Z.min num_of_elements (snd u * block_size)) in
  {| min := fold_left F32.std_min blk F32.FLT_MAX;
     max := fold_left F32.std_max blk F32.FLT_LOWEST |}.

(** The body of the merge loop (lines 80-83), reading the slots of
    [aggregate]. *)
Definition merge_body (aggregate : list FloatMinMax) (i : Z) (mm : float * float)
  : result (float * float) :=
  slot <- read aggregate i ;;
  Ok (F32.std_min (fst mm) (min slot), F32.std_max (snd mm) (max slot)).

(** An accumulator within the initial bounds. *)
Definition bounded_acc (mm : float * float) : Prop :=
  F32.isnan (fst mm) = false /\ F32.isnan (snd mm) = false /\
  F32.ltb F32.FLT_MAX (fst mm) = false /\ F32.ltb (snd mm) F32.FLT_LOWEST = false.

(** A float as the operations of binary32 produce it: at most 24 bits of
    mantissa, an exponent not below the smallest one. *)
Definition wf32 (x : float) : Prop :=
  match x with
  | S754_finite _ m e => Zpos m < 2 ^ 24 /\ -149 <= e
  | _ => True
  end.

(** [f] is the float of the integer of magnitude [q] and sign [neg]: a zero,
    or a normal float with an exponent that is not positive. *)
Definition is_bound (neg : bool) (f : float) (q : Z) : Prop :=
  (f = S754_zero false /\ q = 0) \/
  exists m e, f = S754_finite neg m e /\
              2 ^ 23 <= Zpos m < 2 ^ 24 /\ -149 <= e <= 0 /\
              Zpos m = q * 2 ^ (- e).

(** The integer a finite float rounds to, halves to even. *)
Definition rint (x : float) : Z :=
  match x with
  | S754_finite s m e => cond_Zopp s (F32.rint_mag m e)
  | _ => 0
  end.

(** ** The narrow-float formula, as the spec words it *)

(** Integer truncation toward zero of a rational. *)
Definition Qtrunc (q : Q) : Z := Z.quot (Qnum q) (Zpos (Qden q)).

(** Section 4.3 and 9: [clamp(trunc(Input[i] / scale) + zero_point,
    type_min, type_max)], the quotient being the one of the widened
    floats. *)
Definition quantize_trunc (T : OutputType) (x Scale : MLFloat16)
  (ZeroPoint : Z) : Z :=
  Z.min (highest T)
        (Z.max (lowest T)
               (Qtrunc (F32.to_Q (F32.div (ToFloat x) (ToFloat Scale)))
                + ZeroPoint)).

(** 1.75, -1.75 and 2.5 as binary16, and the scale 1.0. *)
Definition sample_f16 : list MLFloat16 :=
  [F16.of_dyadic 7 (-2); F16.of_dyadic (-7) (-2); F16.of_dyadic 5 (-1)].
Definition f16_one : MLFloat16 := F16.of_dyadic 1 0.

(** ** Nibble writes *)

(** The value the 4-bit quantizers store for the logical index [i]: the
    quantized element [i - out_start] of the input. *)
Definition quant_at (T : Int4Type) (Input : list float) (Scale : float)
  (zero_point : Z) (out_start : Z) (i : Z) : Z :=
  match nth_error Input (Z.to_nat (i - out_start)) with
  | Some x =>
      match quantize_int4 T x Scale zero_point with
      | Ok v => v
      | Err _ => 0
      end
  | None => 0
  end.

(** Storing the value of the logical index [i] in its nibble. *)
Definition write_nibble (v : Z -> Z) (i : Z) (buf : list Z) : list Z :=
  update buf (Z.to_nat (i / 2))
         (SetElem (nth (Z.to_nat (i / 2)) buf 0) (i mod 2) (v i)).

Definition write_all (v : Z -> Z) (l : list Z) (buf : list Z) : list Z :=
  fold_left (fun b i => write_nibble v i b) l buf.

(** The indices [lo, lo + n). *)
Definition idx_range (lo : Z) (n : nat) : list Z :=
  map (fun k => lo + Z.of_nat k) (seq 0 n).

(** The nibble of the logical index [i], read as a value of the type. *)
Definition get_nibble (T : Int4Type) (buf : list Z) (i : Z) : Z :=
  GetElem T (nth (Z.to_nat (i / 2)) buf 0) (i mod 2).

(** ** The float overload of ParQuantizeLinearStd (lines 120-134) *)

(** Modelled from the spec: [MlasQuantizeLinear] (core/mlas is not part of
    the sources) is the vector kernel [QuantizeLinear(data, count, scale,
    zero_point)] of section 6 for 8-bit and 16-bit lanes: it writes [count]
    outputs, output [n] being the quantized input [n]. The rule [quantize] it
    applies to one element is a parameter. *)
Fixpoint MlasQuantizeLinear_loop (quantize : float -> float -> Z -> result Z)
  (block : list float) (n : Z) (Output : list Z) (out_idx : Z) (Scale : float)
  (ZeroPoint : Z) : result (list Z) :=
  match block with
  | [] => Ok Output
  | x :: rest =>
      v <- quantize x Scale ZeroPoint ;;
      Output <- write Output (out_idx + n) v ;;
      MlasQuantizeLinear_loop quantize rest (n + 1) Output out_idx Scale ZeroPoint
  end.

(** [Input] and [Output] are the buffers the pointers [&Input[inp_idx]] and
    [&Output[out_idx]] point into. *)
Definition MlasQuantizeLinear (quantize : float -> float -> Z -> result Z)
  (Input : list float) (inp_idx : Z) (Output : list Z) (out_idx : Z) (N : Z)
  (Scale : float) (ZeroPoint : Z) : result (list Z) :=
  block <- slice Input inp_idx N ;;
  MlasQuantizeLinear_loop quantize block 0 Output out_idx Scale ZeroPoint.

(** The body of the parallel-for (lines 129-133). *)
Definition std_unit (quantize : float -> float -> Z -> result Z)
  (Input : list float) (N : Z) (Scale : float) (ZeroPoint : Z)
  (begin end_ : Z) (Output : list Z) : result (list Z) :=
  let begin_idx := Int.mul64 begin block_size in
  let end_idx := Z.min (Int.ptrdiff_of_size N) (Int.mul64 end_ block_size) in
  MlasQuantizeLinear quantize Input begin_idx Output begin_idx
    (Int.size_of_ptrdiff (Int.sub64 end_idx begin_idx)) Scale ZeroPoint.

Definition ParQuantizeLinearStd (quantize : float -> float -> Z -> result Z)
  (Input : list float) (Output : list Z) (N : Z) (Scale : float)
  (ZeroPoint : Z) (sched : scheduler) : result (list Z) :=
  let num_blocks := num_blocks_of N in
  TryParallelFor sched num_blocks (std_unit quantize Input N Scale ZeroPoint)
    Output.

(** ** ParQuantizeLinearSat (lines 263-304) *)

(** Modelled from the spec: the narrow floating-point formats
    (core/framework/float8.h is not part of the sources) are a type [F8] with
    a conversion [convert x saturate] from a float with a saturation flag,
    section 4.5. Both are parameters. *)

(** The body of the parallel-for of the float overload (lines 273-279). The
    loop runs while [begin_idx < end_idx]. *)
Definition sat_unit {F8 : Type} (convert : float -> bool -> F8)
  (Input : list float) (N : Z) (Scale : float) (saturate : bool)
  (begin end_ : Z) (Output : list F8) : result (list F8) :=
  let begin_idx := Int.mul64 begin block_size in
  let end_idx := Z.min (Int.ptrdiff_of_size N) (Int.mul64 end_ block_size) in
  for_loop (Z.to_nat (end_idx - begin_idx)) begin_idx
    (fun begin_idx Output =>
       x <- read Input begin_idx ;;
       write Output begin_idx (convert (F32.div x Scale) saturate))
    Output.

(** The zero point is a parameter that is not used. *)
Definition ParQuantizeLinearSat {F8 : Type} (convert : float -> bool -> F8)
  (Input : list float) (Output : list F8) (N : Z) (Scale : float)
  (ZeroPoint : F8) (saturate : bool) (sched : scheduler) : result (list F8) :=
  let num_blocks := num_blocks_of N in
  TryParallelFor sched num_blocks (sat_unit convert Input N Scale saturate)
    Output.

(** The body of the parallel-for of the [MLFloat16] overload (lines
    297-303). *)
Definition sat_unit_f16 {F8 : Type} (convert : float -> bool -> F8)
  (Input : list MLFloat16) (N : Z) (Scale : MLFloat16) (saturate : bool)
  (begin end_ : Z) (Output : list F8) : result (list F8) :=
  let begin_idx := Int.mul64 begin block_size in
  let end_idx := Z.min (Int.ptrdiff_of_size N) (Int.mul64 end_ block_size) in
  for_loop (Z.to_nat (end_idx - begin_idx)) begin_idx
    (fun begin_idx Output =>
       x <- read Input begin_idx ;;
       write Output begin_idx
             (convert (F32.div (ToFloat x) (ToFloat Scale)) saturate))
    Output.

Definition ParQuantizeLinearSat_f16 {F8 : Type} (convert : float -> bool -> F8)
  (Input : list MLFloat16) (Output : list F8) (N : Z) (Scale : MLFloat16)
  (ZeroPoint : F8) (saturate : bool) (sched : scheduler) : result (list F8) :=
  let num_blocks := num_blocks_of N in
  TryParallelFor sched num_blocks (sat_unit_f16 convert Input N Scale saturate)
    Output.

(** ** Signs *)

(** A float that is not NaN and has the sign bit [s]. *)
Definition has_sign (s : bool) (x : float) : Prop :=
  match x with
  | S754_nan => False
  | S754_zero s' | S754_infinity s' | S754_finite s' _ _ => s' = s
  end.

(** * Properties *)

(** ** Machine integers *)

Lemma int64_wrap_small z :
  Int.int64_min <= z <= Int.int64_max -> Int.int64_wrap z = z.
Proof.
  unfold Int.int64_wrap, Int.int64_min, Int.int64_max. intros H.
  rewrite Z.mod_small; lia.
Qed.

Lemma size_wrap_small z : 0 <= z <= Int.size_max -> Int.size_wrap z = z.
Proof.
  unfold Int.size_wrap, Int.size_max. intros H. apply Z.mod_small. lia.
Qed.

Example minmax_partition_129 : minmax_partition true 129 = (128, 2).
Proof. reflexivity. Qed.
Example minmax_partition_4097 : minmax_partition true 4097 = (256, 17).
Proof. reflexivity. Qed.
Example minmax_partition_inline : minmax_partition false 4097 = (4097, 1).
Proof. reflexivity. Qed.

(** ** Concrete runs *)

Example RoundHalfToEven_0_5 : RoundHalfToEven (F32.of_dyadic 1 (-1)) = F32.zero.
Proof. vm_compute. reflexivity. Qed.
Example RoundHalfToEven_1_5 : RoundHalfToEven (F32.of_dyadic 3 (-1)) = F32.of_Z 2.
Proof. vm_compute. reflexivity. Qed.
Example RoundHalfToEven_2_5 : RoundHalfToEven (F32.of_dyadic 5 (-1)) = F32.of_Z 2.
Proof. vm_compute. reflexivity. Qed.

(** ** The partition of the min/max reduction *)

Lemma ceil_div_bounds a b :
  0 <= a -> 0 < b ->
  a <= (a + b - 1) / b * b < a + b.
Proof.
  intros Ha Hb.
  pose proof (Z.div_mod (a + b - 1) b ltac:(lia)) as E.
  pose proof (Z.mod_pos_bound (a + b - 1) b Hb) as B.
  lia.
Qed.

Lemma div64_nonneg a b :
  0 <= a <= Int.int64_max -> 0 < b -> Int.div64 a b = a / b.
Proof.
  intros Ha Hb. unfold Int.div64.
  rewrite Z.quot_div_nonneg by lia.
  apply int64_wrap_small.
  assert (0 <= a / b) by (apply Z.div_pos; lia).
  assert (a / b <= a) by (apply Z.div_le_upper_bound; nia).
  unfold Int.int64_min, Int.int64_max in *. lia.
Qed.

Lemma minmax_partition_parallel n :
  granularity < n -> 4 * n <= Int.int64_max ->
  minmax_partition true n =
    (((n + 31) / 32 + 127) / 128 * 128,
     (n + ((n + 31) / 32 + 127) / 128 * 128 - 1)
       / (((n + 31) / 32 + 127) / 128 * 128)).
Proof.
  unfold granularity, Int.int64_max. intros Hn Hmax.
  unfold minmax_partition, granularity, MAX_DEGREE_OF_PAR_FOR_MINMAX, Int.narrow.
  replace (128 <? n) with true by (symmetry; apply Z.ltb_lt; lia).
  cbn [andb].
  unfold Int.add64, Int.sub64, Int.mul64.
  assert (R : forall z, - 2 ^ 63 <= z <= 2 ^ 63 - 1 -> Int.int64_wrap z = z)
    by (intros; apply int64_wrap_small; unfold Int.int64_min, Int.int64_max; lia).
  rewrite (R (n + 32)) by lia.
  rewrite (R (n + 32 - 1)) by lia.
  rewrite (div64_nonneg (n + 32 - 1) 32) by (unfold Int.int64_max; lia).
  replace (n + 32 - 1) with (n + 31) by lia.
  pose proof (ceil_div_bounds n 32 ltac:(lia) ltac:(lia)) as B0.
  replace (n + 32 - 1) with (n + 31) in B0 by lia.
  set (b0 := (n + 31) / 32) in *.
  rewrite (R (b0 + 128)) by lia.
  rewrite (R (b0 + 128 - 1)) by lia.
  rewrite (div64_nonneg (b0 + 128 - 1) 128) by (unfold Int.int64_max; lia).
  replace (b0 + 128 - 1) with (b0 + 127) by lia.
  pose proof (ceil_div_bounds b0 128 ltac:(lia) ltac:(lia)) as B1.
  replace (b0 + 128 - 1) with (b0 + 127) in B1 by lia.
  rewrite (R ((b0 + 127) / 128 * 128)) by lia.
  set (b1 := (b0 + 127) / 128 * 128) in *.
  rewrite (R (n + b1)) by lia.
  rewrite (R (n + b1 - 1)) by lia.
  rewrite (div64_nonneg (n + b1 - 1) b1) by (unfold Int.int64_max; lia).
  reflexivity.
Qed.

(** C8. In the parallel branch of [GetQuantizationParameter] the block size
    is a positive multiple of the granularity 128, the blocks cover all the
    elements, and there are at most [MAX_DEGREE_OF_PAR_FOR_MINMAX = 32] of
    them, so that every slot index written is below 32; in the other
    branch there is one block of [num_of_elements] elements. The buffer of
    [num_of_elements] floats is one that fits the address space. *)
Theorem minmax_partition_bounds (num_of_elements : Z) :
  4 * num_of_elements <= Int.int64_max ->
  (granularity < num_of_elements ->
   let '(block_size, num_blocks) := minmax_partition true num_of_elements in
   0 < block_size /\
   (exists k, 0 < k /\ block_size = k * granularity) /\
   num_of_elements <= num_blocks * block_size /\
   0 < num_blocks <= MAX_DEGREE_OF_PAR_FOR_MINMAX /\
   (forall begin, 0 <= begin < num_blocks ->
      0 <= agg_idx begin num_blocks < MAX_DEGREE_OF_PAR_FOR_MINMAX)) /\
  (forall should_parallelize,
     should_parallelize = false \/ num_of_elements <= granularity ->
     minmax_partition should_parallelize num_of_elements = (num_of_elements, 1)).
Proof.
  intros Hmax. split.
  - intros Hn. rewrite minmax_partition_parallel by assumption.
    unfold granularity, MAX_DEGREE_OF_PAR_FOR_MINMAX, Int.int64_max in *.
    pose proof (ceil_div_bounds num_of_elements 32 ltac:(lia) ltac:(lia)) as B0.
    replace (num_of_elements + 32 - 1) with (num_of_elements + 31) in B0 by lia.
    set (b0 := (num_of_elements + 31) / 32) in *.
    pose proof (ceil_div_bounds b0 128 ltac:(lia) ltac:(lia)) as B1.
    replace (b0 + 128 - 1) with (b0 + 127) in B1 by lia.
    set (k := (b0 + 127) / 128) in *.
    assert (Hk : 0 < k) by lia.
    pose proof (ceil_div_bounds num_of_elements (k * 128) ltac:(lia) ltac:(lia)) as B2.
    set (nb := (num_of_elements + k * 128 - 1) / (k * 128)) in *.
    assert (Hnb : 0 < nb <= 32) by nia.
    repeat split; try lia.
    + exists k. split; [lia | reflexivity].
    + unfold agg_idx, Int.rem64. rewrite Z.rem_small by lia. lia.
    + unfold agg_idx, Int.rem64. rewrite Z.rem_small by lia. lia.
  - intros sp H. unfold minmax_partition, Int.narrow.
    destruct H as [-> | H]; [reflexivity|].
    replace (granularity <? num_of_elements) with false
      by (symmetry; apply Z.ltb_ge; lia).
    rewrite andb_false_r. reflexivity.
Qed.

Lemma minmax_partition_bounds_witness :
  4 * 4097 <= Int.int64_max /\
  (granularity < 4097 ->
   let '(block_size, num_blocks) := minmax_partition true 4097 in
   0 < block_size /\
   (exists k, 0 < k /\ block_size = k * granularity) /\
   4097 <= num_blocks * block_size /\
   0 < num_blocks <= MAX_DEGREE_OF_PAR_FOR_MINMAX /\
   (forall begin, 0 <= begin < num_blocks ->
      0 <= agg_idx begin num_blocks < MAX_DEGREE_OF_PAR_FOR_MINMAX)) /\
  (forall should_parallelize,
     should_parallelize = false \/ 4097 <= granularity ->
     minmax_partition should_parallelize 4097 = (4097, 1)).
Proof.
  split; [vm_compute; discriminate | apply (minmax_partition_bounds 4097)].
  vm_compute; discriminate.
Defined.

(** ** The cursors of the 4-bit quantizers *)

Lemma land_1_mod z : Z.land z 1 = z mod 2.
Proof. change 1 with (Z.ones 1). rewrite Z.land_ones by lia. reflexivity. Qed.

Lemma shiftr_1_div z : Z.shiftr z 1 = z / 2.
Proof. rewrite Z.shiftr_div_pow2 by lia. reflexivity. Qed.

Lemma size_wrap_even z : Int.size_wrap z mod 2 = z mod 2.
Proof.
  unfold Int.size_wrap.
  apply Z.mod_mod_divide. exists (2 ^ 63). reflexivity.
Qed.

Lemma boundary_cursors_eq out_start out_end :
  boundary_cursors out_start out_end =
    (fst (first_cursor out_start 0),
     fst (last_cursor out_end (Int.size_sub out_end out_start)),
     snd (first_cursor out_start 0),
     snd (last_cursor out_end (Int.size_sub out_end out_start))).
Proof.
  unfold boundary_cursors, first_cursor, last_cursor.
  destruct (negb (Z.land out_start 1 =? 0)), (negb (Z.land out_end 1 =? 0));
    reflexivity.
Qed.

Lemma first_cursor_even s i : fst (first_cursor s i) mod 2 = 0.
Proof.
  unfold first_cursor. rewrite land_1_mod.
  destruct (s mod 2 =? 0) eqn:E; cbn [negb fst].
  - apply Z.eqb_eq in E. exact E.
  - apply Z.eqb_neq in E. unfold Int.size_add. rewrite size_wrap_even.
    pose proof (Z.mod_pos_bound s 2 ltac:(lia)).
    rewrite Z.add_mod by lia. replace (s mod 2) with 1 by lia. reflexivity.
Qed.

Lemma last_cursor_even e i : fst (last_cursor e i) mod 2 = 0.
Proof.
  unfold last_cursor. rewrite land_1_mod.
  destruct (e mod 2 =? 0) eqn:E; cbn [negb fst].
  - apply Z.eqb_eq in E. exact E.
  - apply Z.eqb_neq in E. unfold Int.size_sub. rewrite size_wrap_even.
    pose proof (Z.mod_pos_bound e 2 ltac:(lia)).
    rewrite Zminus_mod. replace (e mod 2) with 1 by lia. reflexivity.
Qed.

Lemma size_sub_even a b :
  a mod 2 = 0 -> b mod 2 = 0 -> Int.size_sub a b mod 2 = 0.
Proof.
  intros Ha Hb. unfold Int.size_sub. rewrite size_wrap_even.
  rewrite Zminus_mod, Ha, Hb. reflexivity.
Qed.

Lemma quantize_first_cursor T Input Output s i Scale zp Output' s' i' :
  quantize_first T Input Output s i Scale zp = Ok (Output', s', i') ->
  (s', i') = first_cursor s i.
Proof.
  unfold quantize_first, first_cursor.
  destruct (negb (Z.land s 1 =? 0)).
  - destruct (read Input i); cbn [bind]; [|discriminate].
    destruct (quantize_int4 T a Scale (GetElem T zp 0)); cbn [bind]; [|discriminate].
    destruct (read Output (Z.shiftr s 1)); cbn [bind]; [|discriminate].
    destruct (write Output (Z.shiftr s 1) _); cbn [bind]; [|discriminate].
    intros H. inversion H. reflexivity.
  - intros H. inversion H. reflexivity.
Qed.

Lemma quantize_last_cursor T Input Output e i Scale zp Output' e' i' :
  quantize_last T Input Output e i Scale zp = Ok (Output', e', i') ->
  (e', i') = last_cursor e i.
Proof.
  unfold quantize_last, last_cursor.
  destruct (negb (Z.land e 1 =? 0)).
  - destruct (read Input _); cbn [bind]; [|discriminate].
    destruct (quantize_int4 T a Scale (GetElem T zp 0)); cbn [bind]; [|discriminate].
    destruct (read Output _); cbn [bind]; [|discriminate].
    destruct (write Output _ _); cbn [bind]; [|discriminate].
    intros H. inversion H. reflexivity.
  - intros H. inversion H. reflexivity.
Qed.

Lemma par4_unit_no_assert T Input N i s Scale zp b e Output :
  par4_unit T Input N i s Scale zp b e Output <> Err AssertionFailure.
Proof.
  unfold par4_unit. destruct (par4_span N i s b e) as [[ii oi] c].
  unfold MlasQuantizeLinear4.
  destruct (slice Input ii (Int.size_of_ptrdiff c)) as [blk|err] eqn:Es; cbn [bind].
  2:{ unfold slice in Es. destruct (_ || _) in Es; inversion Es. discriminate. }
  clear Es. generalize (GetElem T zp 0) as z. intros z.
  generalize 0 as n. revert Output.
  induction blk as [|x blk IHb]; intros Output n; cbn [MlasQuantizeLinear4_loop];
    [discriminate|].
  unfold quantize_int4 at 1, F32.static_cast_int32, F32.static_cast_int, Int.add32.
  destruct (F32.trunc _); cbn [bind]; [|discriminate].
  destruct (_ && _); cbn [bind]; [|discriminate].
  destruct (Int.in_int32 _); cbn [bind]; [|discriminate].
  unfold read at 1. destruct (_ || _); cbn [bind]; [discriminate|].
  destruct (nth_error _ _); cbn [bind]; [|discriminate].
  unfold write at 1. destruct (_ || _); cbn [bind]; [discriminate|].
  apply IHb.
Qed.

Lemma TryParallelFor_par4_no_assert T Input N i s Scale zp sched total Output :
  TryParallelFor sched total (par4_unit T Input N i s Scale zp) Output
    <> Err AssertionFailure.
Proof.
  unfold TryParallelFor. destruct (total <=? 0); [discriminate|].
  generalize (sched total) as l. intros l. revert Output.
  induction l as [|[b e] l IH]; intros Output; cbn [run_ranges]; [discriminate|].
  pose proof (par4_unit_no_assert T Input N i s Scale zp b e Output) as Hu.
  destruct (par4_unit T Input N i s Scale zp b e Output) as [O1|err];
    cbn [bind]; [apply IH|].
  intros H. apply Hu. exact H.
Qed.

Lemma ParQuantizeLinearStd4_no_assert T Input Output out_start out_end Scale zp sched :
  ParQuantizeLinearStd4 T Input Output out_start out_end Scale zp sched
    <> Err AssertionFailure.
Proof.
  unfold ParQuantizeLinearStd4.
  destruct (quantize_first T Input Output out_start 0 Scale zp)
    as [[[O1 s1] i1]|err] eqn:E1; cbn [bind].
  2:{ revert E1. unfold quantize_first, quantize_int4, F32.static_cast_int32,
        F32.static_cast_int, Int.add32, read, write.
      repeat (match goal with
              | |- context [match ?c with _ => _ end] => destruct c; cbn [bind]
              end); intros H1 H2; congruence. }
  apply quantize_first_cursor in E1.
  destruct (quantize_last T Input O1 out_end (Int.size_sub out_end out_start) Scale zp)
    as [[[O2 e2] i2]|err] eqn:E2; cbn [bind].
  2:{ revert E2. unfold quantize_last, quantize_int4, F32.static_cast_int32,
        F32.static_cast_int, Int.add32, read, write.
      repeat (match goal with
              | |- context [match ?c with _ => _ end] => destruct c; cbn [bind]
              end); intros H1 H2; congruence. }
  apply quantize_last_cursor in E2.
  destruct (s1 =? e2); [discriminate|].
  assert (Hs : s1 mod 2 = 0).
  { pose proof (first_cursor_even out_start 0) as H. rewrite <- E1 in H. exact H. }
  assert (He : e2 mod 2 = 0).
  { pose proof (last_cursor_even out_end (Int.size_sub out_end out_start)) as H.
    rewrite <- E2 in H. exact H. }
  rewrite (size_sub_even e2 s1 He Hs). cbn [Z.eqb negb].
  apply TryParallelFor_par4_no_assert.
Qed.

Lemma boundary_cursors_values out_start out_end :
  0 <= out_start <= out_end -> out_end <= Int.int64_max ->
  boundary_cursors out_start out_end =
    (out_start + out_start mod 2, out_end - out_end mod 2,
     out_start mod 2, Int.size_wrap (out_end - out_start - out_end mod 2)).
Proof.
  unfold Int.int64_max. intros H1 H2.
  rewrite boundary_cursors_eq. unfold first_cursor, last_cursor.
  rewrite !land_1_mod.
  pose proof (Z.mod_pos_bound out_start 2 ltac:(lia)) as Bs.
  pose proof (Z.mod_pos_bound out_end 2 ltac:(lia)) as Be.
  pose proof (Z.div_mod out_end 2 ltac:(lia)) as De.
  assert (W : forall z, 0 <= z < 2 ^ 64 -> Int.size_wrap z = z)
    by (intros; apply size_wrap_small; unfold Int.size_max; lia).
  destruct (Z.eqb_spec (out_start mod 2) 0) as [Es|Es];
    destruct (Z.eqb_spec (out_end mod 2) 0) as [Ee|Ee]; cbn [negb fst snd].
  - rewrite Es, Ee, !Z.add_0_r, !Z.sub_0_r. unfold Int.size_sub. reflexivity.
  - unfold Int.size_sub. rewrite (W (out_end - 1)) by lia.
    rewrite (W (out_end - out_start)) by lia.
    replace (out_end mod 2) with 1 by lia. rewrite Es, Z.add_0_r. reflexivity.
  - unfold Int.size_add, Int.size_sub. rewrite (W (out_start + 1)) by lia.
    rewrite (W (0 + 1)) by lia.
    replace (out_start mod 2) with 1 by lia. rewrite Ee, !Z.sub_0_r. reflexivity.
  - unfold Int.size_add, Int.size_sub. rewrite (W (out_start + 1)) by lia.
    rewrite (W (0 + 1)) by lia. rewrite (W (out_end - 1)) by lia.
    rewrite (W (out_end - out_start)) by lia.
    replace (out_start mod 2) with 1 by lia.
    replace (out_end mod 2) with 1 by lia. reflexivity.
Qed.

Lemma num_blocks_of_small N :
  0 <= N -> N + block_size <= Int.int64_max ->
  num_blocks_of N = (N + 127) / 128.
Proof.
  unfold block_size, Int.int64_max. intros H1 H2.
  unfold num_blocks_of, Int.size_add, Int.size_sub, Int.ptrdiff_of_size, block_size.
  rewrite (size_wrap_small (N + 128)) by (unfold Int.size_max; lia).
  rewrite (size_wrap_small (N + 128 - 1)) by (unfold Int.size_max; lia).
  replace (N + 128 - 1) with (N + 127) by lia.
  apply int64_wrap_small. unfold Int.int64_min, Int.int64_max.
  assert (0 <= (N + 127) / 128) by (apply Z.div_pos; lia).
  assert ((N + 127) / 128 <= N + 127) by (apply Z.div_le_upper_bound; lia).
  lia.
Qed.

Lemma par4_span_small N i s b e :
  0 <= N -> N mod 2 = 0 -> 0 <= s -> 0 <= i <= 1 ->
  s + N + block_size <= Int.int64_max ->
  0 <= b < e -> e <= (N + 127) / 128 ->
  par4_span N i s b e =
    (b * 128 + i, b * 128 + s, Z.min N (e * 128) - b * 128) /\
  0 < Z.min N (e * 128) - b * 128 /\
  (Z.min N (e * 128) - b * 128) mod 2 = 0.
Proof.
  unfold block_size, Int.int64_max. intros HN Hev Hs Hi Hmax Hb He.
  pose proof (ceil_div_bounds N 128 HN ltac:(lia)) as B.
  replace (N + 128 - 1) with (N + 127) in B by lia.
  assert (R : forall z, - 2 ^ 63 <= z <= 2 ^ 63 - 1 -> Int.int64_wrap z = z)
    by (intros; apply int64_wrap_small; unfold Int.int64_min, Int.int64_max; lia).
  unfold par4_span, block_size, Int.mul64, Int.add64, Int.sub64, Int.ptrdiff_of_size.
  rewrite (R N) by lia. rewrite (R i) by lia. rewrite (R s) by lia.
  rewrite (R (b * 128)) by nia. rewrite (R (e * 128)) by nia.
  rewrite (R (b * 128 + i)) by nia. rewrite (R (b * 128 + s)) by nia.
  assert (Hlt : b * 128 < N) by nia.
  rewrite (R (Z.min N (e * 128) - b * 128)) by lia.
  split; [reflexivity|]. split; [lia|].
  destruct (Z.min_spec N (e * 128)) as [[_ ->]|[_ ->]].
  - rewrite Zminus_mod, Hev. replace (b * 128) with ((b * 64) * 2) by lia.
    rewrite Z.mod_mul by lia. reflexivity.
  - replace (e * 128 - b * 128) with ((e - b) * 64 * 2) by lia.
    apply Z.mod_mul. lia.
Qed.

(** C2. In the 4-bit quantizers the assertion [N % 2 == 0] never fails:
    after the boundary elements the number of elements left is even and the
    first of them is at an even index; and, the block size 128 being even,
    every unit of the parallel-for hands whole bytes to the kernel, and
    the bytes of two units that handle different blocks do not overlap.
    The indices are those the [ptrdiff_t] arithmetic of the units does not
    overflow on. *)
Theorem par4_units_disjoint_bytes (T : Int4Type) (Input : list float)
  (Output : list Z) (Scale : float) (ZeroPoint : Z) (sched : scheduler)
  (out_start out_end s' e' i' ie' : Z) :
  0 <= out_start <= out_end ->
  out_end + block_size <= Int.int64_max ->
  boundary_cursors out_start out_end = (s', e', i', ie') ->
  ParQuantizeLinearStd4 T Input Output out_start out_end Scale ZeroPoint sched
    <> Err AssertionFailure /\
  Int.size_sub e' s' mod 2 = 0 /\
  s' mod 2 = 0 /\
  forall b1 e1 b2 e2,
    0 <= b1 < e1 -> e1 <= b2 -> b2 < e2 <= num_blocks_of (Int.size_sub e' s') ->
    forall inp1 out1 count1 inp2 out2 count2,
    par4_span (Int.size_sub e' s') i' s' b1 e1 = (inp1, out1, count1) ->
    par4_span (Int.size_sub e' s') i' s' b2 e2 = (inp2, out2, count2) ->
    (out1 mod 2 = 0 /\ 0 < count1 /\ count1 mod 2 = 0) /\
    (out2 mod 2 = 0 /\ 0 < count2 /\ count2 mod 2 = 0) /\
    snd (par4_bytes (Int.size_sub e' s') i' s' b1 e1)
      <= fst (par4_bytes (Int.size_sub e' s') i' s' b2 e2).
Proof.
  intros Hrange Hmax Hc.
  split; [apply ParQuantizeLinearStd4_no_assert|].
  assert (Hs : s' mod 2 = 0).
  { pose proof (first_cursor_even out_start 0) as H.
    rewrite boundary_cursors_eq in Hc. inversion Hc; subst. exact H. }
  assert (He : e' mod 2 = 0).
  { pose proof (last_cursor_even out_end (Int.size_sub out_end out_start)) as H.
    rewrite boundary_cursors_eq in Hc. inversion Hc; subst. exact H. }
  split; [apply size_sub_even; assumption|]. split; [exact Hs|].
  unfold block_size, Int.int64_max in Hmax.
  rewrite boundary_cursors_values in Hc by (unfold Int.int64_max; lia).
  inversion Hc as [[Es Ee Ei Eie]]. clear Hc.
  pose proof (Z.mod_pos_bound out_start 2 ltac:(lia)) as Bs.
  pose proof (Z.mod_pos_bound out_end 2 ltac:(lia)) as Be.
  rewrite Es, Ee.
  intros b1 e1 b2 e2 H1 H12 H2.
  destruct (Z.le_gt_cases s' e') as [Hle|Hgt].
  - (* the range left is [s', e') *)
    assert (EN : Int.size_sub e' s' = e' - s')
      by (apply size_wrap_small; unfold Int.size_max; lia).
    rewrite EN in *.
    assert (HNev : (e' - s') mod 2 = 0) by (rewrite Zminus_mod, He, Hs; reflexivity).
    rewrite num_blocks_of_small in H2
      by (unfold block_size, Int.int64_max; lia).
    intros inp1 out1 count1 inp2 out2 count2.
    unfold par4_bytes.
    destruct (par4_span_small (e' - s') (out_start mod 2) s' b1 e1) as (-> & P1 & Q1);
      try (unfold block_size, Int.int64_max); try lia.
    destruct (par4_span_small (e' - s') (out_start mod 2) s' b2 e2) as (-> & P2 & Q2);
      try (unfold block_size, Int.int64_max); try lia.
    intros X1 X2. inversion X1; subst inp1 out1 count1.
    inversion X2; subst inp2 out2 count2. clear X1 X2.
    assert (Ho : forall b, (b * 128 + s') mod 2 = 0).
    { intros b. rewrite Z.add_mod, Hs by lia.
      replace (b * 128) with (b * 64 * 2) by lia. rewrite Z.mod_mul by lia.
      reflexivity. }
    repeat split; try apply Ho; try assumption.
    cbn [fst snd]. rewrite !shiftr_1_div.
    pose proof (ceil_div_bounds (e' - s') 128 ltac:(lia) ltac:(lia)) as B.
    replace (e' - s' + 128 - 1) with (e' - s' + 127) in B by lia.
    assert (Hm : Z.min (e' - s') (e1 * 128) = e1 * 128) by nia.
    rewrite Hm.
    replace (b1 * 128 + s') with (s' + (b1 * 64) * 2) by lia.
    replace (b2 * 128 + s') with (s' + (b2 * 64) * 2) by lia.
    rewrite !Z.div_add by lia.
    replace (e1 * 128 - b1 * 128 + 1) with (1 + ((e1 - b1) * 64) * 2) by lia.
    rewrite Z.div_add by lia. change (1 / 2) with 0. lia.
  - (* out_start = out_end, odd: no unit at all *)
    pose proof (Z.div_mod s' 2 ltac:(lia)) as Ds.
    pose proof (Z.div_mod e' 2 ltac:(lia)) as De.
    assert (e' = s' - 2) by lia.
    assert (EN : Int.size_sub e' s' = 2 ^ 64 - 2).
    { unfold Int.size_sub, Int.size_wrap. replace (e' - s') with (-2) by lia.
      reflexivity. }
    rewrite EN in H2. change (num_blocks_of (2 ^ 64 - 2)) with 0 in H2. lia.
Qed.

Lemma par4_units_disjoint_bytes_witness :
  boundary_cursors 3 1000 = (4, 1000, 1, 997) /\
  (ParQuantizeLinearStd4 Int4x2 [] [] 3 1000 F32.one 0 inline_scheduler
     <> Err AssertionFailure /\
   Int.size_sub 1000 4 mod 2 = 0 /\
   4 mod 2 = 0 /\
   forall b1 e1 b2 e2,
     0 <= b1 < e1 -> e1 <= b2 -> b2 < e2 <= num_blocks_of (Int.size_sub 1000 4) ->
     forall inp1 out1 count1 inp2 out2 count2,
     par4_span (Int.size_sub 1000 4) 1 4 b1 e1 = (inp1, out1, count1) ->
     par4_span (Int.size_sub 1000 4) 1 4 b2 e2 = (inp2, out2, count2) ->
     (out1 mod 2 = 0 /\ 0 < count1 /\ count1 mod 2 = 0) /\
     (out2 mod 2 = 0 /\ 0 < count2 /\ count2 mod 2 = 0) /\
     snd (par4_bytes (Int.size_sub 1000 4) 1 4 b1 e1)
       <= fst (par4_bytes (Int.size_sub 1000 4) 1 4 b2 e2)).
Proof.
  split; [reflexivity|].
  apply (par4_units_disjoint_bytes Int4x2 [] [] F32.one 0 inline_scheduler
           3 1000 4 1000 1 997).
  - lia.
  - vm_compute. discriminate.
  - reflexivity.
Defined.

(** ** The order of binary32 *)

Lemma ltb_key a b :
  F32.ltb a b = true <->
  F32.isnan a = false /\ F32.isnan b = false /\ key_lt (order_key a) (order_key b).
Proof.
  unfold F32.ltb, SFltb.
  destruct a as [sa|sa| |sa ma ea], b as [sb|sb| |sb mb eb];
    cbn [SFcompare F32.isnan order_key key_lt];
    try destruct sa; try destruct sb; cbn [key_lt];
    try (split; [discriminate | intros (_ & _ & H); lia]);
    try (split; [intros _; repeat split; lia | reflexivity]);
    try (split; [discriminate | intros (H & _); discriminate]);
    try (split; [discriminate | intros (_ & H & _); discriminate]).
  - (* both negative *)
    destruct (Z.compare_spec ea eb) as [E|E|E].
    + subst eb. rewrite Pos.compare_cont_spec. cbn [Pos.switch_Eq].
      fold (Pos.compare ma mb).
      destruct (Pos.compare_spec ma mb) as [F|F|F]; cbn [CompOpp].
      * split; [discriminate | intros (_ & _ & H); lia].
      * split; [discriminate | intros (_ & _ & H); lia].
      * split; [intros _; repeat split; lia | reflexivity].
    + split; [discriminate | intros (_ & _ & H); lia].
    + split; [intros _; repeat split; lia | reflexivity].
  - (* both positive *)
    destruct (Z.compare_spec ea eb) as [E|E|E].
    + subst eb. rewrite Pos.compare_cont_spec. cbn [Pos.switch_Eq].
      fold (Pos.compare ma mb).
      destruct (Pos.compare_spec ma mb) as [F|F|F].
      * split; [discriminate | intros (_ & _ & H); lia].
      * split; [intros _; repeat split; lia | reflexivity].
      * split; [discriminate | intros (_ & _ & H); lia].
    + split; [intros _; repeat split; lia | reflexivity].
    + split; [discriminate | intros (_ & _ & H); lia].
Qed.

Lemma leb_key a b :
  F32.leb a b = true <->
  F32.isnan a = false /\ F32.isnan b = false /\ ~ key_lt (order_key b) (order_key a).
Proof.
  unfold F32.leb, SFleb.
  destruct a as [sa|sa| |sa ma ea], b as [sb|sb| |sb mb eb];
    cbn [SFcompare F32.isnan order_key key_lt];
    try destruct sa; try destruct sb; cbn [key_lt];
    try (split; [discriminate | intros (_ & _ & H); exfalso; apply H; lia]);
    try (split; [intros _; repeat split; lia | reflexivity]);
    try (split; [discriminate | intros (H & _); discriminate]);
    try (split; [discriminate | intros (_ & H & _); discriminate]).
  - destruct (Z.compare_spec ea eb) as [E|E|E].
    + subst eb. rewrite Pos.compare_cont_spec. cbn [Pos.switch_Eq].
      fold (Pos.compare ma mb).
      destruct (Pos.compare_spec ma mb) as [F|F|F]; cbn [CompOpp].
      * split; [intros _; repeat split; lia | reflexivity].
      * split; [discriminate | intros (_ & _ & H); exfalso; apply H; lia].
      * split; [intros _; repeat split; lia | reflexivity].
    + split; [discriminate | intros (_ & _ & H); exfalso; apply H; lia].
    + split; [intros _; repeat split; lia | reflexivity].
  - destruct (Z.compare_spec ea eb) as [E|E|E].
    + subst eb. rewrite Pos.compare_cont_spec. cbn [Pos.switch_Eq].
      fold (Pos.compare ma mb).
      destruct (Pos.compare_spec ma mb) as [F|F|F].
      * split; [intros _; repeat split; lia | reflexivity].
      * split; [intros _; repeat split; lia | reflexivity].
      * split; [discriminate | intros (_ & _ & H); exfalso; apply H; lia].
    + split; [intros _; repeat split; lia | reflexivity].
    + split; [discriminate | intros (_ & _ & H); exfalso; apply H; lia].
Qed.

Lemma eqb_key a b :
  F32.eqb a b = true <->
  F32.isnan a = false /\ F32.isnan b = false /\ order_key a = order_key b.
Proof.
  unfold F32.eqb, SFeqb.
  destruct a as [sa|sa| |sa ma ea], b as [sb|sb| |sb mb eb];
    cbn [SFcompare F32.isnan order_key];
    try destruct sa; try destruct sb;
    try (split; [discriminate | intros (_ & _ & H); discriminate]);
    try (split; [intros _; repeat split; reflexivity | reflexivity]);
    try (split; [discriminate | intros (H & _); discriminate]);
    try (split; [discriminate | intros (_ & H & _); discriminate]).
  - destruct (Z.compare_spec ea eb) as [E|E|E].
    + subst eb. rewrite Pos.compare_cont_spec. cbn [Pos.switch_Eq].
      fold (Pos.compare ma mb).
      destruct (Pos.compare_spec ma mb) as [F|F|F]; cbn [CompOpp].
      * subst mb. split; [intros _; repeat split; reflexivity | reflexivity].
      * split; [discriminate | intros (_ & _ & H); inversion H; lia].
      * split; [discriminate | intros (_ & _ & H); inversion H; lia].
    + split; [discriminate | intros (_ & _ & H); inversion H; lia].
    + split; [discriminate | intros (_ & _ & H); inversion H; lia].
  - destruct (Z.compare_spec ea eb) as [E|E|E].
    + subst eb. rewrite Pos.compare_cont_spec. cbn [Pos.switch_Eq].
      fold (Pos.compare ma mb).
      destruct (Pos.compare_spec ma mb) as [F|F|F].
      * subst mb. split; [intros _; repeat split; reflexivity | reflexivity].
      * split; [discriminate | intros (_ & _ & H); inversion H; lia].
      * split; [discriminate | intros (_ & _ & H); inversion H; lia].
    + split; [discriminate | intros (_ & _ & H); inversion H; lia].
    + split; [discriminate | intros (_ & _ & H); inversion H; lia].
Qed.

Lemma order_key_inj a b :
  F32.isnan a = false -> F32.isnan b = false ->
  order_key a = order_key b ->
  a = b \/ (exists sa sb, a = S754_zero sa /\ b = S754_zero sb).
Proof.
  destruct a as [sa|sa| |sa ma ea], b as [sb|sb| |sb mb eb];
    cbn [F32.isnan order_key]; try discriminate; intros _ _;
    try destruct sa; try destruct sb; intros H; inversion H;
    try (left; reflexivity); try (right; eauto; fail);
    try (left; f_equal; lia).
Qed.

Lemma ltb_false_key a b :
  F32.isnan a = false -> F32.isnan b = false ->
  F32.ltb a b = false -> ~ key_lt (order_key a) (order_key b).
Proof.
  intros Ha Hb H K.
  assert (F32.ltb a b = true) by (apply ltb_key; auto). congruence.
Qed.

(** Unfolding [key_lt] on keys given as variables. *)
Ltac key_solve :=
  repeat match goal with
         | H : context [order_key ?x] |- _ =>
             let c := fresh "c" in let e := fresh "e" in let m := fresh "m" in
             destruct (order_key x) as [[c e] m]
         | |- context [order_key ?x] =>
             let c := fresh "c" in let e := fresh "e" in let m := fresh "m" in
             destruct (order_key x) as [[c e] m]
         end;
  unfold key_lt in *; lia.

Lemma std_min_nan_free a b :
  F32.isnan a = false -> F32.isnan (F32.std_min a b) = false.
Proof.
  intros Ha. unfold F32.std_min.
  destruct (F32.ltb b a) eqn:E; [|exact Ha].
  apply ltb_key in E. tauto.
Qed.

Lemma std_max_nan_free a b :
  F32.isnan a = false -> F32.isnan (F32.std_max a b) = false.
Proof.
  intros Ha. unfold F32.std_max.
  destruct (F32.ltb a b) eqn:E; [|exact Ha].
  apply ltb_key in E. tauto.
Qed.

(** [std::min] is associative as long as the middle argument is a number. *)
Lemma std_min_assoc a b c :
  F32.isnan b = false ->
  F32.std_min (F32.std_min a b) c = F32.std_min a (F32.std_min b c).
Proof.
  intros Hb. unfold F32.std_min.
  destruct (F32.ltb b a) eqn:Eba; destruct (F32.ltb c b) eqn:Ecb;
    rewrite ?Eba, ?Ecb; try reflexivity.
  - (* c < b < a *)
    apply ltb_key in Eba, Ecb.
    assert (F32.ltb c a = true) as -> by (apply ltb_key; repeat split; try tauto;
      destruct Eba as (_ & _ & K1), Ecb as (_ & _ & K2); key_solve).
    reflexivity.
  - (* not b < a, not c < b *)
    destruct (F32.ltb c a) eqn:Eca; [|reflexivity].
    exfalso. apply ltb_key in Eca. destruct Eca as (Hc & Ha & K).
    apply (ltb_false_key b a) in Eba; [|assumption..].
    apply (ltb_false_key c b) in Ecb; [|assumption..].
    key_solve.
Qed.

Lemma std_max_assoc a b c :
  F32.isnan b = false ->
  F32.std_max (F32.std_max a b) c = F32.std_max a (F32.std_max b c).
Proof.
  intros Hb. unfold F32.std_max.
  destruct (F32.ltb a b) eqn:Eab; destruct (F32.ltb b c) eqn:Ebc;
    rewrite ?Eab, ?Ebc; try reflexivity.
  - apply ltb_key in Eab, Ebc.
    assert (F32.ltb a c = true) as -> by (apply ltb_key; repeat split; try tauto;
      destruct Eab as (_ & _ & K1), Ebc as (_ & _ & K2); key_solve).
    reflexivity.
  - destruct (F32.ltb a c) eqn:Eac; [|reflexivity].
    exfalso. apply ltb_key in Eac. destruct Eac as (Ha & Hc & K).
    apply (ltb_false_key a b) in Eab; [|assumption..].
    apply (ltb_false_key b c) in Ebc; [|assumption..].
    key_solve.
Qed.

(** ** Buffers and loops *)

Lemma length_update {A} (buf : list A) n a : length (update buf n a) = length buf.
Proof.
  revert n. induction buf as [|h t IH]; intros [|n]; cbn; auto.
Qed.

Lemma nth_error_update_eq {A} (buf : list A) n a :
  (n < length buf)%nat -> nth_error (update buf n a) n = Some a.
Proof.
  revert n. induction buf as [|h t IH]; intros [|n] H; cbn in *; try lia; auto.
  apply IH. lia.
Qed.

Lemma nth_error_update_neq {A} (buf : list A) n a j :
  j <> n -> nth_error (update buf n a) j = nth_error buf j.
Proof.
  revert n j. induction buf as [|h t IH]; intros [|n] [|j] H; cbn; auto.
  contradiction.
Qed.

Lemma read_Ok {A} (buf : list A) i x :
  0 <= i -> nth_error buf (Z.to_nat i) = Some x -> read buf i = Ok x.
Proof.
  intros Hi H. unfold read.
  assert (Z.to_nat i < length buf)%nat by (apply nth_error_Some; congruence).
  replace (i <? 0) with false by (symmetry; apply Z.ltb_ge; lia).
  replace (Z.of_nat (length buf) <=? i) with false by (symmetry; apply Z.leb_gt; lia).
  cbn [orb]. rewrite H. reflexivity.
Qed.

Lemma read_inv {A} (buf : list A) i x :
  read buf i = Ok x ->
  0 <= i < Z.of_nat (length buf) /\ nth_error buf (Z.to_nat i) = Some x.
Proof.
  unfold read. destruct (i <? 0) eqn:E1; [discriminate|].
  destruct (Z.of_nat (length buf) <=? i) eqn:E2; [discriminate|]. cbn [orb].
  apply Z.ltb_ge in E1. apply Z.leb_gt in E2.
  destruct (nth_error buf (Z.to_nat i)); [|discriminate].
  intros H; inversion H. auto.
Qed.

Lemma write_Ok {A} (buf : list A) i a :
  0 <= i < Z.of_nat (length buf) -> write buf i a = Ok (update buf (Z.to_nat i) a).
Proof.
  intros H. unfold write.
  replace (i <? 0) with false by (symmetry; apply Z.ltb_ge; lia).
  replace (Z.of_nat (length buf) <=? i) with false by (symmetry; apply Z.leb_gt; lia).
  reflexivity.
Qed.

Lemma write_inv {A} (buf : list A) i a buf' :
  write buf i a = Ok buf' ->
  0 <= i < Z.of_nat (length buf) /\ buf' = update buf (Z.to_nat i) a.
Proof.
  unfold write. destruct (i <? 0) eqn:E1; [discriminate|].
  destruct (Z.of_nat (length buf) <=? i) eqn:E2; [discriminate|]. cbn [orb].
  apply Z.ltb_ge in E1. apply Z.leb_gt in E2.
  intros H; inversion H. auto.
Qed.

Lemma slice_Ok {A} (buf : list A) start count :
  0 <= start -> 0 <= count -> start + count <= Z.of_nat (length buf) ->
  slice buf start count = Ok (block_of buf start (start + count)).
Proof.
  intros H1 H2 H3. unfold slice, block_of.
  replace (start <? 0) with false by (symmetry; apply Z.ltb_ge; lia).
  replace (count <? 0) with false by (symmetry; apply Z.ltb_ge; lia).
  replace (Z.of_nat (length buf) <? start + count) with false
    by (symmetry; apply Z.ltb_ge; lia).
  cbn [orb]. replace (start + count - start) with count by lia. reflexivity.
Qed.

Lemma firstn_plus {A} (a b : nat) (l : list A) :
  firstn (a + b) l = firstn a l ++ firstn b (skipn a l).
Proof.
  revert l. induction a as [|a IH]; intros [|h t]; cbn; try reflexivity.
  - rewrite firstn_nil. reflexivity.
  - rewrite IH. reflexivity.
Qed.

Lemma block_of_app {A} (buf : list A) lo mid hi :
  0 <= lo <= mid -> mid <= hi ->
  block_of buf lo mid ++ block_of buf mid hi = block_of buf lo hi.
Proof.
  intros H1 H2. unfold block_of.
  replace (Z.to_nat (hi - lo)) with (Z.to_nat (mid - lo) + Z.to_nat (hi - mid))%nat by lia.
  rewrite firstn_plus. f_equal. rewrite skipn_skipn.
  replace (Z.to_nat (mid - lo) + Z.to_nat lo)%nat with (Z.to_nat mid) by lia.
  reflexivity.
Qed.

Lemma block_of_all {A} (buf : list A) :
  block_of buf 0 (Z.of_nat (length buf)) = buf.
Proof.
  unfold block_of. cbn [Z.to_nat skipn]. rewrite Z.sub_0_r, Nat2Z.id.
  apply firstn_all.
Qed.

Lemma for_loop_app {St} n1 n2 i (body : Z -> St -> result St) st :
  for_loop (n1 + n2) i body st =
    (st' <- for_loop n1 i body st ;; for_loop n2 (i + Z.of_nat n1) body st').
Proof.
  revert i st. induction n1 as [|n1 IH]; intros i st.
  - cbn. rewrite Z.add_0_r. reflexivity.
  - cbn [for_loop Nat.add]. destruct (body i st) as [st1|e]; cbn [bind]; [|reflexivity].
    rewrite IH. replace (i + 1 + Z.of_nat n1) with (i + Z.of_nat (S n1)) by lia.
    reflexivity.
Qed.

(** ** The min/max kernel *)

Lemma MlasFindMinMaxElement_folds l mn mx :
  MlasFindMinMaxElement l mn mx =
    (fold_left F32.std_min l mn, fold_left F32.std_max l mx).
Proof.
  unfold MlasFindMinMaxElement. revert mn mx.
  induction l as [|x l IH]; intros mn mx; cbn [fold_left fst snd]; auto.
Qed.

Lemma fold_min_nan_free l a :
  F32.isnan a = false -> F32.isnan (fold_left F32.std_min l a) = false.
Proof.
  revert a. induction l as [|x l IH]; intros a Ha; cbn [fold_left]; auto.
  apply IH, std_min_nan_free, Ha.
Qed.

Lemma fold_max_nan_free l a :
  F32.isnan a = false -> F32.isnan (fold_left F32.std_max l a) = false.
Proof.
  revert a. induction l as [|x l IH]; intros a Ha; cbn [fold_left]; auto.
  apply IH, std_max_nan_free, Ha.
Qed.

(** A minimum that started at or below [FLT_MAX] stays there. *)
Lemma std_min_below a x :
  F32.isnan a = false -> F32.ltb F32.FLT_MAX a = false ->
  F32.ltb F32.FLT_MAX (F32.std_min a x) = false.
Proof.
  intros Ha Hb. unfold F32.std_min.
  destruct (F32.ltb x a) eqn:E; [|exact Hb].
  destruct (F32.ltb F32.FLT_MAX x) eqn:F; [|reflexivity].
  exfalso. apply ltb_key in E, F.
  apply (ltb_false_key F32.FLT_MAX a) in Hb; [|reflexivity|exact Ha].
  destruct E as (_ & _ & K1), F as (_ & _ & K2). key_solve.
Qed.

Lemma std_max_above a x :
  F32.isnan a = false -> F32.ltb a F32.FLT_LOWEST = false ->
  F32.ltb (F32.std_max a x) F32.FLT_LOWEST = false.
Proof.
  intros Ha Hb. unfold F32.std_max.
  destruct (F32.ltb a x) eqn:E; [|exact Hb].
  destruct (F32.ltb x F32.FLT_LOWEST) eqn:F; [|reflexivity].
  exfalso. apply ltb_key in E, F.
  apply (ltb_false_key a F32.FLT_LOWEST) in Hb; [|exact Ha|reflexivity].
  destruct E as (_ & _ & K1), F as (_ & _ & K2). key_solve.
Qed.

Lemma fold_min_below l a :
  F32.isnan a = false -> F32.ltb F32.FLT_MAX a = false ->
  F32.ltb F32.FLT_MAX (fold_left F32.std_min l a) = false.
Proof.
  revert a. induction l as [|x l IH]; intros a Ha Hb; cbn [fold_left]; auto.
  apply IH; [apply std_min_nan_free, Ha | apply std_min_below; assumption].
Qed.

Lemma fold_max_above l a :
  F32.isnan a = false -> F32.ltb a F32.FLT_LOWEST = false ->
  F32.ltb (fold_left F32.std_max l a) F32.FLT_LOWEST = false.
Proof.
  revert a. induction l as [|x l IH]; intros a Ha Hb; cbn [fold_left]; auto.
  apply IH; [apply std_max_nan_free, Ha | apply std_max_above; assumption].
Qed.

(** Merging the minimum of a block into an accumulator is scanning the block
    into the accumulator. *)
Lemma fold_min_merge l a :
  F32.ltb F32.FLT_MAX a = false ->
  F32.std_min a (fold_left F32.std_min l F32.FLT_MAX) = fold_left F32.std_min l a.
Proof.
  intros Hb. induction l as [|x l IH] using rev_ind.
  - cbn [fold_left]. unfold F32.std_min. rewrite Hb. reflexivity.
  - rewrite !fold_left_app. cbn [fold_left].
    rewrite <- std_min_assoc by (apply fold_min_nan_free; reflexivity).
    rewrite IH. reflexivity.
Qed.

Lemma fold_max_merge l a :
  F32.ltb a F32.FLT_LOWEST = false ->
  F32.std_max a (fold_left F32.std_max l F32.FLT_LOWEST) = fold_left F32.std_max l a.
Proof.
  intros Hb. induction l as [|x l IH] using rev_ind.
  - cbn [fold_left]. unfold F32.std_max. rewrite Hb. reflexivity.
  - rewrite !fold_left_app. cbn [fold_left].
    rewrite <- std_max_assoc by (apply fold_max_nan_free; reflexivity).
    rewrite IH. reflexivity.
Qed.

(** ** The reduction of GetQuantizationParameter *)

Lemma chain_bounds a c l :
  chain a c l -> a <= c /\ forall u, In u l -> a <= fst u < snd u /\ snd u <= c.
Proof.
  induction 1 as [a|a b c l Hab Hc [IH1 IH2]].
  - split; [lia | intros u []].
  - split; [lia|]. intros u [<-|Hu]; cbn [fst snd]; [lia|].
    specialize (IH2 u Hu). lia.
Qed.

Lemma chain_NoDup a c l : chain a c l -> NoDup (map fst l).
Proof.
  induction 1 as [a|a b c l Hab Hc IH]; cbn [map fst]; constructor; auto.
  intros Hin. apply in_map_iff in Hin. destruct Hin as (u & Eu & Hu).
  apply (chain_bounds _ _ _ Hc) in Hu. lia.
Qed.

Lemma chain_inv a c l :
  chain a c l -> a < c ->
  exists b l1, l = (a, b) :: l1 /\ a < b /\ chain b c l1.
Proof.
  intros H Hac. destruct H as [a|a b c l Hab Hc]; [lia|].
  exists b, l. auto.
Qed.

Section MinMaxReduce.

Variable data : list float.
Variables n bs nb : Z.
Hypothesis Hn : n = Z.of_nat (length data).
Hypothesis Hbs : 0 <= bs.
Hypothesis Hnb : 1 <= nb <= 32.
Hypothesis Hcover : (nb - 1) * bs <= n <= nb * bs.
Hypothesis Hmax : nb * bs <= Int.int64_max.

Local Notation unit_ := (minmax_unit data n bs nb).
Local Notation slot_of := (unit_slot data n bs).

Lemma minmax_unit_ok b e agg :
  0 <= b < e -> e <= nb ->
  nth_error agg (Z.to_nat b) = Some init_slot ->
  unit_ b e agg = Ok (update agg (Z.to_nat b) (slot_of (b, e))).
Proof.
  intros Hb He Hslot. unfold minmax_unit, Int.narrow.
  unfold Int.int64_max in Hmax.
  assert (R : forall z, - 2 ^ 63 <= z <= 2 ^ 63 - 1 -> Int.int64_wrap z = z)
    by (intros; apply int64_wrap_small; unfold Int.int64_min, Int.int64_max; lia).
  unfold Int.mul64, Int.sub64, Int.size_of_ptrdiff.
  assert (0 <= b * bs <= (nb - 1) * bs) by nia.
  assert (b * bs <= e * bs <= nb * bs) by nia.
  rewrite (R (b * bs)) by lia. rewrite (R (e * bs)) by lia.
  rewrite (R (Z.min n (e * bs) - b * bs)) by lia.
  rewrite (size_wrap_small (Z.min n (e * bs) - b * bs))
    by (unfold Int.size_max; lia).
  rewrite slice_Ok by lia. cbn [bind].
  replace (b * bs + (Z.min n (e * bs) - b * bs)) with (Z.min n (e * bs)) by lia.
  unfold agg_idx, Int.rem64. rewrite Z.rem_small by lia.
  rewrite (read_Ok agg b init_slot) by (lia || assumption). cbn [bind].
  rewrite MlasFindMinMaxElement_folds.
  apply write_Ok.
  assert (Z.to_nat b < length agg)%nat by (apply nth_error_Some; congruence).
  lia.
Qed.

(** The slots after the units of a schedule, whatever their order. *)
Lemma run_units_spec l : forall agg,
  (forall u, In u l -> 0 <= fst u < snd u /\ snd u <= nb) ->
  NoDup (map fst l) ->
  (forall u, In u l -> nth_error agg (Z.to_nat (fst u)) = Some init_slot) ->
  exists final,
    run_ranges l unit_ agg = Ok final /\
    length final = length agg /\
    (forall u, In u l -> nth_error final (Z.to_nat (fst u)) = Some (slot_of u)) /\
    (forall j, (forall u, In u l -> Z.to_nat (fst u) <> j) ->
               nth_error final j = nth_error agg j).
Proof.
  induction l as [|[b e] l IH]; intros agg Hin Hnd Hinit.
  - exists agg. cbn. repeat split; auto. intros u [].
  - cbn [run_ranges].
    pose proof (Hin (b, e) (or_introl eq_refl)) as Hbe. cbn [fst snd] in Hbe.
    rewrite minmax_unit_ok; try lia.
    2:{ apply (Hinit (b, e)). left. reflexivity. }
    cbn [bind]. cbn [map fst] in Hnd.
    apply NoDup_cons_iff in Hnd. destruct Hnd as [Hnotin Hnd'].
    assert (Hne : forall u, In u l -> Z.to_nat (fst u) <> Z.to_nat b).
    { intros u Hu E. apply Hnotin. apply in_map_iff. exists u. split; [|exact Hu].
      specialize (Hin u (or_intror Hu)). lia. }
    destruct (IH (update agg (Z.to_nat b) (slot_of (b, e)))) as (final & E & Hl & H1 & H2).
    + intros u Hu. apply Hin. right. exact Hu.
    + exact Hnd'.
    + intros u Hu. rewrite nth_error_update_neq by (apply Hne, Hu).
      apply Hinit. right. exact Hu.
    + exists final. split; [exact E|]. split; [rewrite Hl; apply length_update|].
      split.
      * intros u [<-|Hu]; [|apply H1, Hu]. cbn [fst].
        rewrite H2 by exact Hne. apply nth_error_update_eq.
        pose proof (Hinit (b, e) (or_introl eq_refl)) as Hi. cbn [fst] in Hi.
        apply nth_error_Some. rewrite Hi. discriminate.
      * intros j Hj. rewrite H2 by (intros u Hu; apply Hj; right; exact Hu).
        apply nth_error_update_neq. intros ->. apply (Hj (b, e)); [left|]; reflexivity.
Qed.

Lemma init_loop_spec k : forall i agg,
  0 <= i -> i + Z.of_nat k <= Z.of_nat (length agg) ->
  exists agg',
    for_loop k i (fun i agg => write agg i init_slot) agg = Ok agg' /\
    length agg' = length agg /\
    (forall j, i <= j < i + Z.of_nat k ->
               nth_error agg' (Z.to_nat j) = Some init_slot) /\
    (forall j, (j < Z.to_nat i)%nat -> nth_error agg' j = nth_error agg j).
Proof.
  induction k as [|k IH]; intros i agg Hi Hlen.
  - exists agg. cbn. repeat split; auto. intros j Hj. lia.
  - cbn [for_loop]. rewrite write_Ok by lia. cbn [bind].
    destruct (IH (i + 1) (update agg (Z.to_nat i) init_slot)) as (agg' & E & Hl & H1 & H2).
    + lia.
    + rewrite length_update. lia.
    + exists agg'. split; [exact E|]. split; [rewrite Hl; apply length_update|].
      split.
      * intros j Hj. destruct (Z.eq_dec j i) as [->|Hne].
        -- rewrite H2 by lia. apply nth_error_update_eq. lia.
        -- apply H1. lia.
      * intros j Hj. rewrite H2 by lia. apply nth_error_update_neq. lia.
Qed.

Lemma bounded_init : bounded_acc (min init_slot, max init_slot).
Proof. repeat split. Qed.

Lemma merge_skip final k : forall i acc,
  0 <= i ->
  (forall j, i <= j < i + Z.of_nat k ->
             nth_error final (Z.to_nat j) = Some init_slot) ->
  bounded_acc acc ->
  for_loop k i (merge_body final) acc = Ok acc.
Proof.
  induction k as [|k IH]; intros i acc Hi Hinit Hacc; [reflexivity|].
  cbn [for_loop]. unfold merge_body at 1.
  rewrite (read_Ok final i init_slot) by (lia || (apply Hinit; lia)).
  cbn [bind min max init_slot].
  destruct Hacc as (N1 & N2 & B1 & B2).
  unfold F32.std_min at 1. unfold F32.std_max at 1. rewrite B1, B2.
  destruct acc as [a b]. cbn [fst snd] in *.
  apply IH; [lia | intros j Hj; apply Hinit; lia | repeat split; assumption].
Qed.

Lemma block_of_app_min lo mid hi :
  0 <= lo <= mid -> mid <= hi ->
  block_of data lo (Z.min n mid) ++ block_of data mid (Z.min n hi)
    = block_of data lo (Z.min n hi).
Proof.
  intros H1 H2. destruct (Z.le_gt_cases mid n) as [Hm|Hm].
  - rewrite (Z.min_r n mid) by lia. apply block_of_app; lia.
  - rewrite (Z.min_l n mid), (Z.min_l n hi) by lia.
    unfold block_of at 2. replace (Z.to_nat (n - mid)) with 0%nat by lia.
    cbn [firstn]. apply app_nil_r.
Qed.

(** Merging the slots of consecutive units is scanning their blocks. *)
Lemma merge_chain final a c l :
  chain a c l -> 0 <= a ->
  (forall u, In u l -> nth_error final (Z.to_nat (fst u)) = Some (slot_of u)) ->
  (forall u j, In u l -> fst u < j < snd u ->
               nth_error final (Z.to_nat j) = Some init_slot) ->
  forall acc, bounded_acc acc ->
  for_loop (Z.to_nat (c - a)) a (merge_body final) acc =
    Ok (fold_left F32.std_min (block_of data (a * bs) (Z.min n (c * bs))) (fst acc),
        fold_left F32.std_max (block_of data (a * bs) (Z.min n (c * bs))) (snd acc)).
Proof.
  induction 1 as [a|a b c l Hab Hc IH]; intros Ha Hslot Hinit acc Hacc.
  - rewrite Z.sub_diag. cbn [Z.to_nat for_loop].
    unfold block_of. replace (Z.to_nat (Z.min n (a * bs) - a * bs)) with 0%nat by lia.
    destruct acc; reflexivity.
  - pose proof (chain_bounds _ _ _ Hc) as [Hbc _].
    replace (Z.to_nat (c - a))
      with (1 + (Z.to_nat (b - a - 1) + Z.to_nat (c - b)))%nat by lia.
    rewrite for_loop_app. cbn [for_loop]. unfold merge_body at 1.
    rewrite (read_Ok final a (slot_of (a, b)))
      by (lia || (apply (Hslot (a, b)); left; reflexivity)).
    cbn [bind]. rewrite for_loop_app.
    destruct Hacc as (N1 & N2 & B1 & B2).
    unfold unit_slot at 1 2. cbn [min max fst snd].
    rewrite fold_min_merge by exact B1. rewrite fold_max_merge by exact B2.
    set (blk := block_of data (a * bs) (Z.min n (b * bs))).
    assert (Hacc1 : bounded_acc (fold_left F32.std_min blk (fst acc),
                                 fold_left F32.std_max blk (snd acc))).
    { repeat split; cbn [fst snd].
      - apply fold_min_nan_free, N1.
      - apply fold_max_nan_free, N2.
      - apply fold_min_below; assumption.
      - apply fold_max_above; assumption. }
    rewrite merge_skip; [| lia | | exact Hacc1].
    2:{ intros j Hj. apply (Hinit (a, b)); [left; reflexivity | cbn [fst snd]; lia]. }
    cbn [bind].
    match goal with
    | |- for_loop _ ?i _ _ = _ => replace i with b by lia
    end.
    rewrite IH; [| lia | | | exact Hacc1].
    2:{ intros u Hu. apply Hslot. right. exact Hu. }
    2:{ intros u j Hu Hj. apply (Hinit u); [right; exact Hu | exact Hj]. }
    cbn [fst snd]. rewrite <- !fold_left_app.
    unfold blk. rewrite block_of_app_min by nia. reflexivity.
Qed.

Lemma reduce_blocks (ranges : list (Z * Z)) (l0 : list (Z * Z))
  (agg0 : list FloatMinMax) :
  length agg0 = 32%nat ->
  chain 0 nb l0 -> Permutation l0 ranges ->
  (aggregate <- for_loop (Z.to_nat nb) 0
     (fun i agg => write agg i {| min := F32.FLT_MAX; max := F32.FLT_LOWEST |})
     agg0 ;;
   aggregate <- run_ranges ranges unit_ aggregate ;;
   slot0 <- read aggregate 0 ;;
   mm <- for_loop (Z.to_nat (nb - 1)) 1 (merge_body aggregate)
           (min slot0, max slot0) ;;
   Ok mm)
  = Ok (fold_left F32.std_min data F32.FLT_MAX,
        fold_left F32.std_max data F32.FLT_LOWEST).
Proof.
  intros Hlen Hchain Hperm.
  destruct (init_loop_spec (Z.to_nat nb) 0 agg0) as (agg1 & E1 & L1 & I1 & _);
    [lia | rewrite Hlen; lia |].
  fold init_slot. rewrite E1. cbn [bind].
  pose proof (chain_bounds _ _ _ Hchain) as [_ Hb0].
  assert (Hb : forall u, In u ranges -> 0 <= fst u < snd u /\ snd u <= nb).
  { intros u Hu. apply Hb0. apply (Permutation_in u (Permutation_sym Hperm) Hu). }
  destruct (run_units_spec ranges agg1) as (final & E2 & L2 & S1 & S2).
  - exact Hb.
  - apply (Permutation_NoDup (Permutation_map fst Hperm)).
    apply (chain_NoDup _ _ _ Hchain).
  - intros u Hu. apply I1. specialize (Hb u Hu). lia.
  - rewrite E2. cbn [bind].
    (* the slots in terms of the chain *)
    assert (C1 : forall u, In u l0 ->
                   nth_error final (Z.to_nat (fst u)) = Some (slot_of u)).
    { intros u Hu. apply S1. apply (Permutation_in u Hperm Hu). }
    assert (C2 : forall a c l, chain a c l -> 0 <= a -> c <= nb ->
                 (forall u, In u ranges -> In u l \/ snd u <= a \/ c <= fst u) ->
                 forall u j, In u l -> fst u < j < snd u ->
                   nth_error final (Z.to_nat j) = Some init_slot).
    { intros a c l Hc. induction Hc as [a|a b c l Hab Hc IH];
        intros Ha Hcn Hall u j Hu Hj; [destruct Hu|].
      pose proof (chain_bounds _ _ _ Hc) as [Hbc Hin].
      destruct Hu as [<-|Hu].
      - cbn [fst snd] in Hj. rewrite S2; [apply I1; lia|].
        intros v Hv Ev. pose proof (Hb v Hv) as Bv.
        destruct (Hall v Hv) as [[<-|Hv']|[Hv'|Hv']]; cbn [fst snd] in *; try lia.
        specialize (Hin v Hv'). lia.
      - apply (IH ltac:(lia) Hcn) with (u := u); try assumption.
        intros v Hv. destruct (Hall v Hv) as [[<-|Hv']|[Hv'|Hv']];
          cbn [fst snd]; auto; right; left; lia. }
    assert (C2' : forall u j, In u l0 -> fst u < j < snd u ->
                    nth_error final (Z.to_nat j) = Some init_slot).
    { apply (C2 0 nb l0 Hchain); try lia.
      intros u Hu. left. apply (Permutation_in u (Permutation_sym Hperm) Hu). }
    destruct (chain_inv _ _ _ Hchain ltac:(lia)) as (b & l1 & El & H0b & Hc1).
    rewrite El in C1, C2'.
    rewrite (read_Ok final 0 (slot_of (0, b)))
      by (lia || (apply (C1 (0, b)); left; reflexivity)).
    cbn [bind].
    pose proof (chain_bounds _ _ _ Hc1) as [Hbn _].
    replace (Z.to_nat (nb - 1)) with (Z.to_nat (b - 1) + Z.to_nat (nb - b))%nat by lia.
    rewrite for_loop_app.
    assert (Hacc : bounded_acc (min (slot_of (0, b)), max (slot_of (0, b)))).
    { unfold unit_slot. cbn [min max]. repeat split; cbn [fst snd].
      - apply fold_min_nan_free. reflexivity.
      - apply fold_max_nan_free. reflexivity.
      - apply fold_min_below; reflexivity.
      - apply fold_max_above; reflexivity. }
    rewrite merge_skip; [| lia | | exact Hacc].
    2:{ intros j Hj. apply (C2' (0, b)); [left; reflexivity | cbn [fst snd]; lia]. }
    cbn [bind].
    match goal with
    | |- context [for_loop _ ?i (merge_body final) _] => replace i with b by lia
    end.
    rewrite (merge_chain final b nb l1 Hc1); [| lia | | | exact Hacc].
    2:{ intros u Hu. apply C1. right. exact Hu. }
    2:{ intros u j Hu Hj. apply (C2' u); [right; exact Hu | exact Hj]. }
    cbn [bind]. unfold unit_slot. cbn [min max fst snd].
    rewrite <- !fold_left_app.
    change (0 * bs) with 0. rewrite block_of_app_min by nia.
    rewrite (Z.min_l n (nb * bs)) by lia. rewrite Hn, block_of_all. reflexivity.
Qed.


End MinMaxReduce.

Lemma inline_scheduler_valid : valid_scheduler inline_scheduler.
Proof.
  intros total Ht. exists [(0, total)]. split; [|apply Permutation_refl].
  constructor; [exact Ht | constructor].
Qed.

Lemma chain_seq k : forall a,
  chain a (a + Z.of_nat k)
        (map (fun i => (Z.of_nat i + a, Z.of_nat i + a + 1)) (seq 0 k)).
Proof.
  induction k as [|k IH]; intros a.
  - rewrite Z.add_0_r. constructor.
  - cbn [seq map]. replace (Z.of_nat 0 + a) with a by lia.
    constructor; [lia|].
    rewrite <- seq_shift, map_map.
    replace (a + Z.of_nat (S k)) with ((a + 1) + Z.of_nat k) by lia.
    erewrite map_ext; [apply (IH (a + 1))|].
    intros i. cbn beta. f_equal; lia.
Qed.

Lemma reverse_scheduler_valid : valid_scheduler reverse_scheduler.
Proof.
  intros total Ht. unfold reverse_scheduler.
  exists (map (fun i => (Z.of_nat i, Z.of_nat i + 1)) (seq 0 (Z.to_nat total))).
  split; [|apply Permutation_rev].
  pose proof (chain_seq (Z.to_nat total) 0) as H.
  replace (0 + Z.of_nat (Z.to_nat total)) with total in H by lia.
  erewrite map_ext; [exact H|].
  intros i. cbn beta. f_equal; lia.
Qed.

Lemma minmax_reduce_folds (data : list float) (should_parallelize : bool)
  (sched : scheduler) (aggregate : list FloatMinMax) :
  valid_scheduler sched ->
  length aggregate = 32%nat ->
  4 * Z.of_nat (length data) <= Int.int64_max ->
  minmax_reduce data (Z.of_nat (length data)) should_parallelize sched aggregate
    = Ok (fold_left F32.std_min data F32.FLT_MAX,
          fold_left F32.std_max data F32.FLT_LOWEST).
Proof.
  intros Hs Hlen Hmax. unfold minmax_reduce.
  set (n := Z.of_nat (length data)) in *.
  destruct (should_parallelize && (granularity <? n)) eqn:Ebr.
  - apply andb_true_iff in Ebr. destruct Ebr as [-> Hgt]. apply Z.ltb_lt in Hgt.
    pose proof (minmax_partition_bounds n Hmax) as [B _].
    specialize (B Hgt). rewrite minmax_partition_parallel in * by assumption.
    assert (Hb0 : ((n + 31) / 32 + 127) / 128 * 128 < n + 128).
    { unfold granularity in Hgt.
      pose proof (ceil_div_bounds n 32 ltac:(lia) ltac:(lia)) as B0.
      replace (n + 32 - 1) with (n + 31) in B0 by lia.
      pose proof (ceil_div_bounds ((n + 31) / 32) 128 ltac:(lia) ltac:(lia)) as B1.
      replace ((n + 31) / 32 + 128 - 1) with ((n + 31) / 32 + 127) in B1 by lia.
      lia. }
    set (bs := ((n + 31) / 32 + 127) / 128 * 128) in *.
    set (nb := (n + bs - 1) / bs) in *.
    destruct B as (Hbs & _ & Hcov & Hnb & _).
    unfold MAX_DEGREE_OF_PAR_FOR_MINMAX in Hnb.
    pose proof (ceil_div_bounds n bs ltac:(lia) Hbs) as Bc. fold nb in Bc.
    unfold TryParallelFor.
    replace (nb <=? 0) with false by (symmetry; apply Z.leb_gt; lia).
    destruct (Hs nb ltac:(lia)) as (l0 & Hchain & Hperm).
    assert (Hcov' : (nb - 1) * bs <= n <= nb * bs) by nia.
    assert (Hmax' : nb * bs <= Int.int64_max) by (unfold Int.int64_max in *; nia).
    apply (reduce_blocks data n bs nb eq_refl ltac:(lia) ltac:(lia) Hcov' Hmax'
             (sched nb) l0 aggregate Hlen Hchain Hperm).
  - assert (E : minmax_partition should_parallelize n = (n, 1)).
    { unfold minmax_partition. rewrite Ebr. reflexivity. }
    rewrite E. unfold TryParallelFor. cbn [Z.leb Z.compare].
    destruct (Hs 1 ltac:(lia)) as (l0 & Hchain & Hperm).
    apply (reduce_blocks data n n 1 eq_refl ltac:(lia) ltac:(lia) ltac:(lia)
             ltac:(unfold Int.int64_max in *; lia) (sched 1) l0 aggregate Hlen Hchain Hperm).
Qed.

(** C3. For every float buffer and every partition the parallel-for service
    chooses, in the parallel branch and in the single inline block, the
    per-block reduction followed by the sequential merge of the slots gives
    the minimum and maximum that one scan of the whole buffer gives. *)
Theorem minmax_reduce_whole_buffer (data : list float)
  (should_parallelize : bool) (sched : scheduler)
  (aggregate : list FloatMinMax) :
  valid_scheduler sched ->
  length aggregate = 32%nat ->
  4 * Z.of_nat (length data) <= Int.int64_max ->
  minmax_reduce data (Z.of_nat (length data)) should_parallelize sched aggregate
    = Ok (MlasFindMinMaxElement data F32.FLT_MAX F32.FLT_LOWEST).
Proof.
  intros Hs Hlen Hmax. rewrite MlasFindMinMaxElement_folds.
  apply minmax_reduce_folds; assumption.
Qed.

Lemma minmax_reduce_whole_buffer_witness :
  valid_scheduler reverse_scheduler /\
  length garbage = 32%nat /\
  4 * Z.of_nat (length sample_data) <= Int.int64_max /\
  minmax_reduce sample_data (Z.of_nat (length sample_data)) true
                reverse_scheduler garbage
    = Ok (MlasFindMinMaxElement sample_data F32.FLT_MAX F32.FLT_LOWEST).
Proof.
  split; [exact reverse_scheduler_valid|].
  split; [reflexivity|].
  split; [vm_compute; discriminate|].
  apply (minmax_reduce_whole_buffer sample_data true reverse_scheduler garbage).
  - exact reverse_scheduler_valid.
  - reflexivity.
  - vm_compute. discriminate.
Defined.

(** ** The range includes zero *)

Lemma include_zero_spans m M :
  F32.isnan m = false -> F32.isnan M = false ->
  F32.leb (fst (include_zero (m, M))) F32.zero = true /\
  F32.leb F32.zero (snd (include_zero (m, M))) = true /\
  F32.isnan (fst (include_zero (m, M))) = false /\
  F32.isnan (snd (include_zero (m, M))) = false.
Proof.
  intros Hm HM. unfold include_zero. cbn [fst snd].
  unfold F32.std_min, F32.std_max.
  destruct (F32.ltb F32.zero m) eqn:E1; destruct (F32.ltb M F32.zero) eqn:E2;
    repeat split; try assumption; try reflexivity;
    apply leb_key; repeat split; try assumption; try reflexivity;
    try (apply ltb_false_key; assumption || reflexivity).
Qed.

(** A scan that returns one of the values it compares gives no NaN on data
    without NaN. *)
Lemma fold_min_of_data l : forall a,
  F32.isnan a = false -> Forall (fun x => F32.isnan x = false) l ->
  F32.isnan (fold_left F32.std_min l a) = false.
Proof.
  induction l as [|x l IH]; intros a Ha Hl; cbn [fold_left]; [exact Ha|].
  inversion Hl as [|x' l' Hx Hl']. apply IH; [|exact Hl'].
  unfold F32.std_min. destruct (F32.ltb x a); assumption.
Qed.

Lemma fold_max_of_data l : forall a,
  F32.isnan a = false -> Forall (fun x => F32.isnan x = false) l ->
  F32.isnan (fold_left F32.std_max l a) = false.
Proof.
  induction l as [|x l IH]; intros a Ha Hl; cbn [fold_left]; [exact Ha|].
  inversion Hl as [|x' l' Hx Hl']. apply IH; [|exact Hl'].
  unfold F32.std_max. destruct (F32.ltb a x); assumption.
Qed.




(** ** Symmetric quantization *)

Lemma std_max_comm a b :
  F32.isnan a = false -> F32.isnan b = false ->
  (forall s, a <> S754_zero s) ->
  F32.std_max a b = F32.std_max b a.
Proof.
  intros Ha Hb Hz. unfold F32.std_max.
  destruct (F32.ltb a b) eqn:E1; destruct (F32.ltb b a) eqn:E2; try reflexivity.
  - exfalso. apply ltb_key in E1, E2.
    destruct E1 as (_ & _ & K1), E2 as (_ & _ & K2). key_solve.
  - apply (ltb_false_key a b) in E1; [|assumption..].
    apply (ltb_false_key b a) in E2; [|assumption..].
    assert (K : order_key a = order_key b).
    { destruct (order_key a) as [[c1 e1] m1], (order_key b) as [[c2 e2] m2].
      unfold key_lt in *. f_equal; [f_equal|]; lia. }
    destruct (order_key_inj a b Ha Hb K) as [->|(sa & sb & -> & _)];
      [reflexivity | exfalso; apply (Hz sa); reflexivity].
Qed.

(** The magnitude of the code, [std::max(max, -min)], against the one of the
    spec, [max(|min|, max)], for a range that includes zero. *)
Lemma symmetric_max_value mn mx :
  F32.isnan mn = false -> F32.isnan mx = false ->
  F32.leb mn F32.zero = true -> F32.leb F32.zero mx = true ->
  (if F32.ltb F32.zero (F32.std_max mx (F32.neg mn))
   then F32.div (F32.std_max mx (F32.neg mn)) (F32.of_Z 127) else F32.one)
  = symmetric_scale mn mx 127 /\
  (if F32.ltb F32.zero (F32.std_max mx (F32.neg mn))
   then F32.div (F32.std_max mx (F32.neg mn)) (F32.of_Z 64) else F32.one)
  = symmetric_scale mn mx 64.
Proof.
  intros Hn HN Hle Hge. unfold symmetric_scale.
  assert (E : F32.ltb F32.zero (F32.std_max mx (F32.neg mn))
              = F32.ltb F32.zero (F32.std_max (F32.abs mn) mx) /\
              (F32.ltb F32.zero (F32.std_max (F32.abs mn) mx) = true ->
               F32.std_max mx (F32.neg mn) = F32.std_max (F32.abs mn) mx)).
  { apply leb_key in Hle, Hge.
    destruct Hle as (_ & _ & Kle), Hge as (_ & _ & Kge).
    destruct mn as [s|s| |s m e]; try discriminate.
    - (* min is a zero: both magnitudes are max, or a zero *)
      cbn [F32.neg SFopp F32.abs SFabs]. unfold F32.std_max.
      assert (F32.ltb mx (S754_zero (negb s)) = false) as ->.
      { destruct (F32.ltb mx (S754_zero (negb s))) eqn:E; [|reflexivity].
        apply ltb_key in E. destruct E as (_ & _ & K). cbn [order_key] in *.
        key_solve. }
      change F32.zero with (S754_zero false).
      destruct (F32.ltb (S754_zero false) mx) eqn:E; rewrite ?E;
        [split; reflexivity|].
      split; [reflexivity | discriminate].
    - (* min is minus infinity *)
      destruct s; [|exfalso; cbn [order_key] in Kle; unfold key_lt in Kle;
                    cbn in Kle; apply Kle; lia].
      cbn [F32.neg SFopp F32.abs SFabs negb].
      rewrite (std_max_comm (S754_infinity false) mx) by (auto; discriminate).
      split; [reflexivity | reflexivity].
    - (* min is a negative float *)
      destruct s; [|exfalso; cbn [order_key] in Kle; unfold key_lt in Kle;
                    cbn in Kle; apply Kle; lia].
      cbn [F32.neg SFopp F32.abs SFabs negb].
      rewrite (std_max_comm (S754_finite false m e) mx) by (auto; discriminate).
      split; [reflexivity | reflexivity]. }
  destruct E as [E1 E2]. rewrite E1.
  destruct (F32.ltb F32.zero (F32.std_max (F32.abs mn) mx)) eqn:E;
    [rewrite (E2 eq_refl)|]; split; reflexivity.
Qed.

(** C6. With [Symmetric] and signed 8-bit output [GetQuantizationParameter]
    returns the zero point 0 and the scale [max(|min|, max) / qmax] when
    that magnitude is positive, 1.0 otherwise; the asymmetric formula is
    not applied. Three zeros give the scale 1.0 and the zero point 0. *)
Theorem symmetric_parameters (ReduceRange : bool) (data : list float)
  (should_parallelize : bool) (sched : scheduler)
  (aggregate : list FloatMinMax) :
  valid_scheduler sched ->
  length aggregate = 32%nat ->
  4 * Z.of_nat (length data) <= Int.int64_max ->
  (exists mm,
     minmax_reduce data (Z.of_nat (length data)) should_parallelize sched aggregate
       = Ok mm /\
     GetQuantizationParameter Int8 ReduceRange true data (Z.of_nat (length data))
       should_parallelize sched aggregate
     = Ok (symmetric_scale (fst (include_zero mm)) (snd (include_zero mm))
             (snd (quant_range Int8 ReduceRange)),
           0)) /\
  GetQuantizationParameter Int8 ReduceRange true
    [F32.zero; F32.zero; F32.zero] 3 should_parallelize sched aggregate
  = Ok (F32.one, 0).
Proof.
  intros Hs Hlen Hmax.
  assert (G : forall d, 4 * Z.of_nat (length d) <= Int.int64_max ->
    GetQuantizationParameter Int8 ReduceRange true d (Z.of_nat (length d))
      should_parallelize sched aggregate
    = Ok (symmetric_scale
            (fst (include_zero (fold_left F32.std_min d F32.FLT_MAX,
                                fold_left F32.std_max d F32.FLT_LOWEST)))
            (snd (include_zero (fold_left F32.std_min d F32.FLT_MAX,
                                fold_left F32.std_max d F32.FLT_LOWEST)))
            (snd (quant_range Int8 ReduceRange)), 0)).
  { intros d Hd. unfold GetQuantizationParameter.
    rewrite minmax_reduce_folds by assumption. cbn [bind].
    pose proof (include_zero_spans
                  (fold_left F32.std_min d F32.FLT_MAX)
                  (fold_left F32.std_max d F32.FLT_LOWEST)
                  (fold_min_nan_free d F32.FLT_MAX eq_refl)
                  (fold_max_nan_free d F32.FLT_LOWEST eq_refl)) as (L1 & L2 & N1 & N2).
    destruct (include_zero _) as [mn mx]. cbn [fst snd] in *.
    destruct (symmetric_max_value mn mx N1 N2 L1 L2) as [S127 S64].
    unfold scale_zero_point, quant_range. cbn [is_int8 andb].
    destruct ReduceRange; cbn [numeric_limits_min numeric_limits_max snd];
      f_equal; f_equal; assumption. }
  split.
  - eexists. split; [apply minmax_reduce_folds; assumption|].
    apply G. exact Hmax.
  - change 3 with (Z.of_nat (length [F32.zero; F32.zero; F32.zero])).
    rewrite (G [F32.zero; F32.zero; F32.zero]) by (vm_compute; discriminate).
    destruct ReduceRange; reflexivity.
Qed.

Lemma symmetric_parameters_witness :
  valid_scheduler reverse_scheduler /\
  length garbage = 32%nat /\
  4 * Z.of_nat (length sample_data) <= Int.int64_max /\
  (exists mm,
     minmax_reduce sample_data (Z.of_nat (length sample_data)) true
       reverse_scheduler garbage = Ok mm /\
     GetQuantizationParameter Int8 false true sample_data
       (Z.of_nat (length sample_data)) true reverse_scheduler garbage
     = Ok (symmetric_scale (fst (include_zero mm)) (snd (include_zero mm))
             (snd (quant_range Int8 false)),
           0)) /\
  GetQuantizationParameter Int8 false true
    [F32.zero; F32.zero; F32.zero] 3 true reverse_scheduler garbage
  = Ok (F32.one, 0).
Proof.
  split; [exact reverse_scheduler_valid|].
  split; [reflexivity|].
  split; [vm_compute; discriminate|].
  apply (symmetric_parameters false sample_data true reverse_scheduler garbage).
  - exact reverse_scheduler_valid.
  - reflexivity.
  - vm_compute. discriminate.
Defined.

(** ** Scales that underflow *)

(** C7, at an input where it fails. The data is the single float 2^-149:
    the range is [0, 2^-149], not degenerate, and its width divided by 255
    (by 127 in the symmetric case) rounds to zero. The scale returned is
    zero, and the zero point is computed from [0 / 0]. *)
Theorem scale_underflows_to_zero :
  GetQuantizationParameter UInt8 false false [denorm_min] 1 false
    inline_scheduler garbage = Ok (S754_zero false, 255) /\
  GetQuantizationParameter Int8 false true [denorm_min] 1 false
    inline_scheduler garbage = Ok (S754_zero false, 0) /\
  F32.div (F32.sub F32.zero F32.zero) (S754_zero false) = S754_nan.
Proof. repeat split; vm_compute; reflexivity. Qed.

(** ** The 4-bit quantizers on an empty range at an odd index *)

(** C1, at an input where it fails. The range [1, 1) is empty and the input
    holds no element: the code reads [Input[0]] for the high nibble of byte
    0, where the sequential reference leaves the output as it is. With an
    element behind the input pointer the first step stores it in that
    nibble, and the second step reads [Input[inp_end - 1]] with
    [inp_end = 0]. *)
Theorem empty_odd_range_reads_input :
  ParQuantizeLinearStdS4 [] [0] 1 1 F32.one 0 inline_scheduler = Err OutOfBounds /\
  ParQuantizeLinearStdU4 [] [0] 1 1 F32.one 0 inline_scheduler = Err OutOfBounds /\
  reference4 Int4x2 [] [0] 1 1 F32.one 0 = Ok [0] /\
  quantize_first Int4x2 [F32.of_Z 3] [0] 1 0 F32.one 0 = Ok ([48], 2, 1) /\
  quantize_last Int4x2 [F32.of_Z 3] [48] 1 0 F32.one 0 = Err OutOfBounds /\
  boundary_cursors 1 1 = (2, 0, 1, Int.size_max).
Proof. repeat split; vm_compute; reflexivity. Qed.

(** ** Rounding to binary32 *)

Lemma digits2_pos_log2 p : Zpos (digits2_pos p) = Z.log2 (Zpos p) + 1.
Proof.
  induction p as [p IH|p IH|]; cbn [digits2_pos]; [| |reflexivity];
    rewrite Pos2Z.inj_succ, IH.
  - change (Zpos p~1) with (2 * Zpos p + 1).
    rewrite Z.log2_succ_double by lia. lia.
  - change (Zpos p~0) with (2 * Zpos p).
    rewrite Z.log2_double by lia. lia.
Qed.

Lemma digits_bounds p :
  2 ^ (Zpos (digits2_pos p) - 1) <= Zpos p < 2 ^ Zpos (digits2_pos p).
Proof.
  rewrite digits2_pos_log2.
  pose proof (Z.log2_spec (Zpos p) ltac:(lia)) as H.
  replace (Z.log2 (Zpos p) + 1 - 1) with (Z.log2 (Zpos p)) by lia.
  replace (Z.log2 (Zpos p) + 1) with (Z.succ (Z.log2 (Zpos p))) by lia.
  exact H.
Qed.

Lemma digits_unique p d :
  2 ^ (d - 1) <= Zpos p < 2 ^ d -> Zpos (digits2_pos p) = d.
Proof.
  intros H. rewrite digits2_pos_log2.
  assert (0 < d).
  { destruct (Z.lt_trichotomy d 0) as [Hd|[Hd|Hd]]; [| |lia].
    - rewrite (Z.pow_neg_r 2 d Hd) in H. lia.
    - subst d. cbn in H. lia. }
  rewrite (Z.log2_unique (Zpos p) (d - 1)); [lia | lia |].
  replace (Z.succ (d - 1)) with d by lia. exact H.
Qed.

Lemma digits_le p d : 0 <= d -> (Zpos p < 2 ^ d <-> Zpos (digits2_pos p) <= d).
Proof.
  intros Hd. pose proof (digits_bounds p) as B. split; intros H.
  - destruct (Z.le_gt_cases (Zpos (digits2_pos p)) d) as [|G]; [assumption|].
    assert (2 ^ d <= 2 ^ (Zpos (digits2_pos p) - 1))
      by (apply Z.pow_le_mono_r; lia).
    lia.
  - assert (2 ^ Zpos (digits2_pos p) <= 2 ^ d) by (apply Z.pow_le_mono_r; lia).
    lia.
Qed.

Lemma digits_mul_pow2 p q k :
  0 <= k -> Zpos q = Zpos p * 2 ^ k ->
  Zpos (digits2_pos q) = Zpos (digits2_pos p) + k.
Proof.
  intros Hk E. apply digits_unique. rewrite E.
  pose proof (digits_bounds p) as [B1 B2].
  replace (Zpos (digits2_pos p) + k - 1) with (Zpos (digits2_pos p) - 1 + k) by lia.
  rewrite !Z.pow_add_r by lia.
  assert (0 < 2 ^ k) by (apply Z.pow_pos_nonneg; lia).
  split; nia.
Qed.

Lemma iter_xO_value m d : Zpos (Pos.iter xO m d) = Zpos m * 2 ^ Zpos d.
Proof.
  change (Pos.iter xO m d) with (shift_pos d m).
  rewrite shift_pos_correct, Z.pow_pos_fold. lia.
Qed.

Lemma shl_align_value mx ex ex' :
  ex' <= ex ->
  Zpos (fst (shl_align mx ex ex')) = Zpos mx * 2 ^ (ex - ex') /\
  snd (shl_align mx ex ex') = ex'.
Proof.
  intros H. unfold shl_align. destruct (ex' - ex) as [|d|d] eqn:E; try lia.
  - cbn [fst snd]. replace (ex - ex') with 0 by lia. split; lia.
  - cbn [fst snd]. rewrite iter_xO_value.
    replace (ex - ex') with (Zpos d) by lia. split; reflexivity.
Qed.

Lemma shl_align_none mx ex ex' :
  ex <= ex' -> shl_align mx ex ex' = (mx, ex).
Proof.
  intros H. unfold shl_align. destruct (ex' - ex) as [|d|d] eqn:E; try lia;
    reflexivity.
Qed.

Lemma iter_pos_nat {A} (f : A -> A) p x :
  iter_pos f p x = Nat.iter (Pos.to_nat p) f x.
Proof.
  revert x. induction p as [p IH|p IH|]; intros x; cbn [iter_pos].
  - rewrite !IH, Pos2Nat.inj_xI.
    replace (S (2 * Pos.to_nat p))
      with (Pos.to_nat p + Pos.to_nat p + 1)%nat by lia.
    rewrite !Nat.iter_add. reflexivity.
  - rewrite !IH, Pos2Nat.inj_xO.
    replace (2 * Pos.to_nat p)%nat with (Pos.to_nat p + Pos.to_nat p)%nat by lia.
    rewrite Nat.iter_add. reflexivity.
  - reflexivity.
Qed.

Lemma shr_1_m mrs : 0 <= shr_m mrs -> shr_m (shr_1 mrs) = shr_m mrs / 2.
Proof.
  destruct mrs as [m r s]. cbn [shr_m]. intros Hm.
  destruct m as [|[p|p|]|p]; cbn [shr_1 shr_m]; try lia; try reflexivity.
  - replace (Zpos p~1) with (1 + Zpos p * 2) by lia.
    rewrite Z.div_add by lia. reflexivity.
  - replace (Zpos p~0) with (0 + Zpos p * 2) by lia.
    rewrite Z.div_add by lia. reflexivity.
Qed.

Lemma shr_iter_m k : forall mrs,
  0 <= shr_m mrs ->
  shr_m (Nat.iter k shr_1 mrs) = shr_m mrs / 2 ^ Z.of_nat k.
Proof.
  induction k as [|k IH]; intros mrs Hm.
  - cbn [Nat.iter]. change (Z.of_nat 0) with 0.
    rewrite Z.pow_0_r, Z.div_1_r. reflexivity.
  - assert (0 < 2 ^ Z.of_nat k) by (apply Z.pow_pos_nonneg; lia).
    rewrite Nat.iter_succ_r, IH.
    + rewrite shr_1_m by exact Hm.
      rewrite Z.div_div by lia.
      rewrite Nat2Z.inj_succ, Z.pow_succ_r by lia. reflexivity.
    + rewrite shr_1_m by exact Hm. apply Z.div_pos; lia.
Qed.

Lemma shr_iter_exact k : forall m,
  0 <= m ->
  Nat.iter k shr_1 (Build_shr_record (m * 2 ^ Z.of_nat k) false false)
    = Build_shr_record m false false.
Proof.
  induction k as [|k IH]; intros m Hm.
  - cbn [Nat.iter]. change (Z.of_nat 0) with 0.
    rewrite Z.pow_0_r, Z.mul_1_r. reflexivity.
  - rewrite Nat.iter_succ_r.
    rewrite Nat2Z.inj_succ, Z.pow_succ_r by lia.
    assert (E : shr_1 (Build_shr_record (m * (2 * 2 ^ Z.of_nat k)) false false)
                = Build_shr_record (m * 2 ^ Z.of_nat k) false false).
    { assert (0 <= m * 2 ^ Z.of_nat k)
        by (apply Z.mul_nonneg_nonneg; [lia | apply Z.pow_nonneg; lia]).
      replace (m * (2 * 2 ^ Z.of_nat k)) with (2 * (m * 2 ^ Z.of_nat k)) by lia.
      destruct (m * 2 ^ Z.of_nat k) as [|p|p]; try lia; reflexivity. }
    rewrite E. apply IH. exact Hm.
Qed.

Lemma shr_value mrs e sh :
  0 <= shr_m mrs ->
  shr_m (fst (shr mrs e sh)) = shr_m mrs / 2 ^ Z.max sh 0 /\
  snd (shr mrs e sh) = e + Z.max sh 0.
Proof.
  intros Hm. unfold shr. destruct sh as [|p|p]; cbn [fst snd].
  - cbn. rewrite Z.div_1_r. split; lia.
  - rewrite iter_pos_nat, shr_iter_m by exact Hm.
    rewrite positive_nat_Z. rewrite Z.max_l by lia. split; reflexivity.
  - cbn. rewrite Z.div_1_r. split; lia.
Qed.

Lemma fexp_eq e : fexp F32.prec F32.emax e = Z.max (e - 24) (-149).
Proof. reflexivity. Qed.

Lemma binary_round_aux_canonical s m e :
  canonical_mantissa F32.prec F32.emax m e = true -> e <= 104 ->
  binary_round_aux F32.prec F32.emax s (Zpos m) e loc_Exact = S754_finite s m e.
Proof.
  unfold canonical_mantissa. intros Hc He. apply Z.eqb_eq in Hc.
  unfold binary_round_aux, shr_fexp. cbn [Zdigits2 shr_record_of_loc].
  rewrite Hc, Z.sub_diag. cbn [shr shr_m loc_of_shr_record round_nearest_even Zdigits2].
  rewrite Hc, Z.sub_diag. cbn [shr shr_m].
  replace (e <=? F32.emax - F32.prec) with true
    by (symmetry; apply Z.leb_le; unfold F32.emax, F32.prec; lia).
  reflexivity.
Qed.

(** Rounding a value that has a canonical representation gives that
    representation: nothing is lost. *)
Lemma binary_round_exact s mx ex m' e' :
  canonical_mantissa F32.prec F32.emax m' e' = true -> e' <= 104 ->
  (e' <= ex /\ Zpos m' = Zpos mx * 2 ^ (ex - e')) \/
  (ex <= e' /\ Zpos mx = Zpos m' * 2 ^ (e' - ex)) ->
  binary_round F32.prec F32.emax s mx ex = S754_finite s m' e'.
Proof.
  intros Hc He Hv.
  assert (Hd : Zpos (digits2_pos mx) + ex = Zpos (digits2_pos m') + e').
  { destruct Hv as [[H1 H2]|[H1 H2]].
    - rewrite (digits_mul_pow2 mx m' (ex - e')) by (lia || assumption). lia.
    - rewrite (digits_mul_pow2 m' mx (e' - ex)) by (lia || assumption). lia. }
  pose proof Hc as Hc'. unfold canonical_mantissa in Hc'. apply Z.eqb_eq in Hc'.
  unfold binary_round. rewrite Hd, Hc'.
  destruct Hv as [[H1 H2]|[H1 H2]].
  - pose proof (shl_align_value mx ex e' H1) as [V1 V2].
    destruct (shl_align mx ex e') as [mz ez]. cbn [fst snd] in V1, V2.
    subst ez. rewrite <- H2 in V1. inversion V1; subst mz.
    apply binary_round_aux_canonical; assumption.
  - rewrite shl_align_none by exact H1.
    destruct (Z.eq_dec ex e') as [->|Hne].
    + rewrite Z.sub_diag, Z.mul_1_r in H2. inversion H2; subst.
      apply binary_round_aux_canonical; assumption.
    + unfold binary_round_aux, shr_fexp. cbn [Zdigits2 shr_record_of_loc].
      rewrite Hd, Hc'. unfold shr at 1.
      destruct (e' - ex) as [|p|p] eqn:E; try lia.
      rewrite iter_pos_nat, H2, <- (positive_nat_Z p).
      rewrite shr_iter_exact by lia.
      cbn [shr_m loc_of_shr_record round_nearest_even Zdigits2].
      replace (ex + Z.of_nat (Pos.to_nat p)) with e' by lia.
      rewrite Hc', Z.sub_diag. cbn [shr shr_m].
      replace (e' <=? F32.emax - F32.prec) with true
        by (symmetry; apply Z.leb_le; unfold F32.emax, F32.prec; lia).
      reflexivity.
Qed.

Lemma Zdigits2_bound m : 0 <= m -> 0 <= Zdigits2 m /\ m < 2 ^ Zdigits2 m.
Proof.
  intros Hm. destruct m as [|p|p]; cbn [Zdigits2]; try lia.
  pose proof (digits_bounds p). lia.
Qed.

Lemma Zdigits2_le m d : 0 <= m < 2 ^ d -> 0 <= d -> Zdigits2 m <= d.
Proof.
  intros Hm Hd. destruct m as [|p|p]; cbn [Zdigits2]; try lia.
  apply digits_le; lia.
Qed.

Lemma round_nearest_even_bounds m l :
  m <= round_nearest_even m l <= m + 1.
Proof.
  unfold round_nearest_even. destruct l as [|[| |]]; try lia.
  destruct (Z.even m); lia.
Qed.

Lemma shr_fexp_bounds m e l :
  0 <= m ->
  0 <= shr_m (fst (shr_fexp F32.prec F32.emax m e l)) < 2 ^ 24 /\
  -149 <= snd (shr_fexp F32.prec F32.emax m e l) /\
  shr_m (fst (shr_fexp F32.prec F32.emax m e l)) <= m /\
  e <= snd (shr_fexp F32.prec F32.emax m e l) /\
  (m < 2 ^ 24 -> -149 <= e -> shr_fexp F32.prec F32.emax m e l
                              = (shr_record_of_loc m l, e)).
Proof.
  intros Hm. unfold shr_fexp.
  assert (Hr : shr_m (shr_record_of_loc m l) = m)
    by (destruct l as [|[| |]]; reflexivity).
  pose proof (shr_value (shr_record_of_loc m l) e
                (fexp F32.prec F32.emax (Zdigits2 m + e) - e)) as [V1 V2];
    [rewrite Hr; exact Hm|].
  rewrite V1, V2, Hr. rewrite fexp_eq.
  pose proof (Zdigits2_bound m Hm) as [D1 D2].
  set (d := Zdigits2 m) in *.
  set (sh := Z.max (d + e - 24) (-149) - e) in *.
  assert (P : 0 < 2 ^ Z.max sh 0) by (apply Z.pow_pos_nonneg; lia).
  assert (Hle : m / 2 ^ Z.max sh 0 <= m).
  { apply Z.div_le_upper_bound; [exact P | nia]. }
  repeat split; try lia.
  - apply Z.div_pos; lia.
  - apply Z.div_lt_upper_bound; [exact P|].
    rewrite <- Z.pow_add_r by lia.
    assert (2 ^ d <= 2 ^ (Z.max sh 0 + 24)) by (apply Z.pow_le_mono_r; lia).
    lia.
  - intros Hlt He.
    assert (d <= 24) by (apply Zdigits2_le; lia).
    unfold shr. destruct sh as [|p|p] eqn:Es; try reflexivity. lia.
Qed.

(** What [binary_round_aux] returns is well formed. *)
Lemma binary_round_aux_wf s m e l :
  0 <= m -> wf32 (binary_round_aux F32.prec F32.emax s m e l).
Proof.
  intros Hm. unfold binary_round_aux.
  pose proof (shr_fexp_bounds m e l Hm) as (B1 & B2 & _ & _ & _).
  destruct (shr_fexp F32.prec F32.emax m e l) as [mrs' e1]. cbn [fst snd] in B1, B2.
  pose proof (round_nearest_even_bounds (shr_m mrs') (loc_of_shr_record mrs')) as R.
  remember (round_nearest_even (shr_m mrs') (loc_of_shr_record mrs')) as m2 eqn:Em2.
  clear Em2.
  pose proof (shr_fexp_bounds m2 e1 loc_Exact ltac:(lia)) as (C1 & C2 & C3 & C4 & C5).
  destruct (Z.eq_dec m2 (2 ^ 24)) as [E|NE].
  - rewrite E. vm_compute (Zdigits2 (2 ^ 24)).
    unfold shr_fexp. vm_compute (Zdigits2 (2 ^ 24)). rewrite fexp_eq.
    replace (Z.max (25 + e1 - 24) (-149) - e1) with 1 by lia.
    cbn. destruct (e1 + 1 <=? 104); cbn; lia.
  - rewrite C5 by lia. cbn [shr_record_of_loc shr_m].
    destruct m2 as [|p|p]; cbn [wf32]; try exact I.
    destruct (e1 <=? F32.emax - F32.prec); cbn [wf32]; lia.
Qed.

(** ** Rounding a quotient to the nearest integer *)

Lemma Zrne_scale a b c :
  0 < b -> 0 < c -> F32.Zrne (a * c) (b * c) = F32.Zrne a b.
Proof.
  intros Hb Hc. unfold F32.Zrne.
  rewrite Z.div_mul_cancel_r by lia.
  rewrite Z.mul_mod_distr_r by lia.
  replace (2 * (a mod b * c)) with ((2 * (a mod b)) * c) by lia.
  destruct (Z.compare_spec (2 * (a mod b)) b);
    destruct (Z.compare_spec (2 * (a mod b) * c) (b * c));
    try reflexivity; nia.
Qed.

Lemma Zrne_spec a b :
  0 < b ->
  - b <= 2 * (a - F32.Zrne a b * b) <= b /\
  (Z.abs (2 * (a - F32.Zrne a b * b)) = b -> Z.even (F32.Zrne a b) = true) /\
  a / b <= F32.Zrne a b <= a / b + 1.
Proof.
  intros Hb. unfold F32.Zrne.
  pose proof (Z.div_mod a b ltac:(lia)) as D.
  pose proof (Z.mod_pos_bound a b Hb) as B.
  destruct (Z.compare_spec (2 * (a mod b)) b) as [E|E|E].
  - destruct (Z.even (a / b)) eqn:Ev.
    + repeat split; try nia. intros _. exact Ev.
    + repeat split; try nia. intros _.
      rewrite Z.even_add, Ev. reflexivity.
  - repeat split; try nia.
  - repeat split; try nia.
Qed.

Lemma Zrne_exact q b : 0 < b -> F32.Zrne (q * b) b = q.
Proof.
  intros Hb. unfold F32.Zrne. rewrite Z.div_mul, Z.mod_mul by lia.
  replace (2 * 0 ?= b) with Lt by (symmetry; apply Z.compare_lt_iff; lia).
  reflexivity.
Qed.

(** Rounding keeps integer bounds. *)
Lemma Zrne_le a b q : 0 < b -> a <= q * b -> F32.Zrne a b <= q.
Proof.
  intros Hb H. pose proof (Zrne_spec a b Hb) as (S1 & _ & _).
  destruct (Z.le_gt_cases (F32.Zrne a b) q) as [|G]; [assumption|]. nia.
Qed.

Lemma Zrne_ge a b q : 0 < b -> q * b <= a -> q <= F32.Zrne a b.
Proof.
  intros Hb H. pose proof (Zrne_spec a b Hb) as (S1 & _ & _).
  destruct (Z.le_gt_cases q (F32.Zrne a b)) as [|G]; [assumption|]. nia.
Qed.

(** ** Integers as floats *)

Lemma binary_round_shift s mx ex :
  fexp F32.prec F32.emax (Zpos (digits2_pos mx) + ex) <= ex ->
  fexp F32.prec F32.emax (Zpos (digits2_pos mx) + ex) <= 104 ->
  binary_round F32.prec F32.emax s mx ex =
    S754_finite s
      (Z.to_pos (Zpos mx * 2 ^ (ex - fexp F32.prec F32.emax (Zpos (digits2_pos mx) + ex))))
      (fexp F32.prec F32.emax (Zpos (digits2_pos mx) + ex)).
Proof.
  intros H1 H2. set (e' := fexp F32.prec F32.emax (Zpos (digits2_pos mx) + ex)) in *.
  assert (P : 0 < Zpos mx * 2 ^ (ex - e'))
    by (apply Z.mul_pos_pos; [lia | apply Z.pow_pos_nonneg; lia]).
  apply binary_round_exact; [| exact H2 | left; split; [exact H1|]].
  - unfold canonical_mantissa. apply Z.eqb_eq.
    rewrite (digits_mul_pow2 mx _ (ex - e')); [| lia | rewrite Z2Pos.id by lia; reflexivity].
    replace (Zpos (digits2_pos mx) + (ex - e') + e') with (Zpos (digits2_pos mx) + ex) by lia.
    reflexivity.
  - rewrite Z2Pos.id by lia. reflexivity.
Qed.

(** The float of a non-zero integer below 2^24, however it is scaled. *)
Lemma binary_round_int s n t :
  0 < n < 2 ^ 24 -> 0 <= t ->
  binary_round F32.prec F32.emax s (Z.to_pos (n * 2 ^ t)) (- t) =
  binary_round F32.prec F32.emax s (Z.to_pos n) 0.
Proof.
  intros Hn Ht.
  assert (Pt : 0 < 2 ^ t) by (apply Z.pow_pos_nonneg; lia).
  set (d := Zpos (digits2_pos (Z.to_pos n))).
  assert (Hd : 1 <= d <= 24).
  { unfold d. split; [lia|]. apply digits_le; [lia|]. rewrite Z2Pos.id by lia. lia. }
  assert (P : 0 < n * 2 ^ (24 - d))
    by (apply Z.mul_pos_pos; [lia | apply Z.pow_pos_nonneg; lia]).
  assert (C : canonical_mantissa F32.prec F32.emax
                (Z.to_pos (n * 2 ^ (24 - d))) (d - 24) = true).
  { unfold canonical_mantissa. apply Z.eqb_eq.
    rewrite (digits_mul_pow2 (Z.to_pos n) _ (24 - d));
      [| lia | rewrite !Z2Pos.id by lia; reflexivity].
    fold d. rewrite fexp_eq. lia. }
  rewrite (binary_round_exact s (Z.to_pos n) 0 (Z.to_pos (n * 2 ^ (24 - d))) (d - 24));
    [| exact C | lia |].
  2:{ left. split; [lia|]. rewrite !Z2Pos.id by lia. f_equal. f_equal. lia. }
  apply binary_round_exact; [exact C | lia |].
  rewrite !Z2Pos.id by nia.
  destruct (Z.le_gt_cases (d - 24) (- t)) as [L|G].
  - left. split; [exact L|].
    replace (24 - d) with (t + (- t - (d - 24))) by lia.
    rewrite Z.pow_add_r by lia. lia.
  - right. split; [lia|].
    replace t with ((24 - d) + (d - 24 - - t)) at 1 by lia.
    rewrite Z.pow_add_r by lia. lia.
Qed.

Lemma match_nonzero {A} (z : Z) (a b : A) :
  z <> 0 -> match z with 0 => a | _ => b end = b.
Proof. destruct z; [contradiction | reflexivity | reflexivity]. Qed.

Lemma normalize_signed s z E sz :
  z <> 0 ->
  binary_normalize F32.prec F32.emax (cond_Zopp s z) E sz =
  binary_round F32.prec F32.emax (xorb s (z <? 0)) (Z.to_pos (Z.abs z)) E.
Proof.
  intros Hz. destruct z as [|p|p]; [contradiction| |]; destruct s; reflexivity.
Qed.

Lemma sub_aligned sx mx ex sy my ey :
  ey <= ex ->
  F32.sub (S754_finite sx mx ex) (S754_finite sy my ey) =
  binary_normalize F32.prec F32.emax
    (cond_Zopp sx (Zpos mx * 2 ^ (ex - ey)) - cond_Zopp sy (Zpos my)) ey false.
Proof.
  intros H. unfold F32.sub, SFsub. rewrite Z.min_r by exact H.
  pose proof (shl_align_value mx ex ey H) as [V _].
  rewrite V, shl_align_none by lia. reflexivity.
Qed.

Lemma one_eq : F32.one = S754_finite false 8388608 (-23).
Proof. reflexivity. Qed.

Lemma of_Z_signed s n :
  0 < n -> F32.of_Z (cond_Zopp s n)
           = binary_round F32.prec F32.emax s (Z.to_pos n) 0.
Proof.
  intros Hn. unfold F32.of_Z, F32.of_dyadic.
  rewrite normalize_signed by lia.
  replace (n <? 0) with false by (symmetry; apply Z.ltb_ge; lia).
  rewrite xorb_false_r, Z.abs_eq by lia. reflexivity.
Qed.

Lemma binary_round_int_neg s n e :
  0 < n < 2 ^ 24 -> e <= 0 ->
  binary_round F32.prec F32.emax s (Z.to_pos (n * 2 ^ (- e))) e =
  binary_round F32.prec F32.emax s (Z.to_pos n) 0.
Proof.
  intros Hn He. pose proof (binary_round_int s n (- e) Hn ltac:(lia)) as H.
  rewrite Z.opp_involutive in H. exact H.
Qed.

(** [RoundHalfToEven] on a float with a fraction: either the float is an
    integer and comes back as it is, or the result is the float of the
    nearest integer. *)
Lemma RoundHalfToEven_fraction s m e :
  Zpos m < 2 ^ 24 -> -149 <= e -> e < 0 ->
  0 <= F32.Zrne (Zpos m) (2 ^ (- e)) < 2 ^ 24 /\
  ((RoundHalfToEven (S754_finite s m e) = S754_finite s m e /\
    Zpos m = F32.Zrne (Zpos m) (2 ^ (- e)) * 2 ^ (- e)) \/
   RoundHalfToEven (S754_finite s m e)
     = F32.of_Z (cond_Zopp s (F32.Zrne (Zpos m) (2 ^ (- e))))).
Proof.
  intros Hm Hemin He.
  set (k := - e). assert (Hk : 0 < k) by lia.
  assert (Pk : 0 < 2 ^ k) by (apply Z.pow_pos_nonneg; lia).
  assert (Pk2 : 2 <= 2 ^ k).
  { replace k with (1 + (k - 1)) by lia. rewrite Z.pow_add_r by lia.
    assert (0 < 2 ^ (k - 1)) by (apply Z.pow_pos_nonneg; lia). lia. }
  pose proof (Zrne_spec (Zpos m) (2 ^ k) Pk) as (S1 & _ & S3).
  set (n := F32.Zrne (Zpos m) (2 ^ k)) in *.
  assert (Hq : 0 <= Zpos m / 2 ^ k < 2 ^ 23).
  { split; [apply Z.div_pos; lia|]. apply Z.div_lt_upper_bound; [lia|]. lia. }
  assert (Hn : 0 <= n < 2 ^ 24) by lia.
  split; [exact Hn|].
  unfold RoundHalfToEven. cbn [F32.isfinite negb].
  unfold F32.remainderf. rewrite one_eq. cbv zeta.
  set (e0 := Z.min e (-23)).
  set (c := 2 ^ (e - e0)).
  assert (Pc : 0 < c) by (apply Z.pow_pos_nonneg; lia).
  assert (EY : 8388608 * 2 ^ (-23 - e0) = 2 ^ k * c).
  { change 8388608 with (2 ^ 23). unfold c.
    rewrite <- !Z.pow_add_r by lia. f_equal. lia. }
  rewrite EY. fold c. rewrite Zrne_scale by lia. fold n.
  replace (Zpos m * c - n * (2 ^ k * c)) with ((Zpos m - n * 2 ^ k) * c) by lia.
  set (R0 := Zpos m - n * 2 ^ k) in *.
  destruct (Z.eq_dec R0 0) as [EZ|NZ].
  - left. rewrite EZ. cbn [Z.mul]. split; [reflexivity|]. unfold R0 in EZ. lia.
  - right.
    assert (NR : R0 * c <> 0) by nia.
    rewrite (match_nonzero (R0 * c)) by exact NR.
    rewrite normalize_signed by exact NR.
    (* the remainder, as a float *)
    assert (HR0 : 0 < Z.abs R0 <= Zpos m /\ 2 * Z.abs R0 <= 2 ^ k).
    { pose proof (Z.div_mod (Zpos m) (2 ^ k) ltac:(lia)) as D.
      pose proof (Z.mod_pos_bound (Zpos m) (2 ^ k) Pk) as B.
      assert (Cn : n = Zpos m / 2 ^ k \/ n = Zpos m / 2 ^ k + 1) by lia.
      assert (ER0 : R0 = Zpos m mod 2 ^ k \/
                    (R0 = Zpos m mod 2 ^ k - 2 ^ k /\ 2 ^ k <= 2 * (Zpos m mod 2 ^ k))).
      { unfold R0 in *. destruct Cn as [Cn|Cn]; rewrite Cn in *; [left|right]; lia. }
      assert (0 <= Zpos m / 2 ^ k * 2 ^ k)
        by (apply Z.mul_nonneg_nonneg; lia).
      destruct ER0 as [ER0|[ER0 Hh]]; rewrite ER0 in *; lia. }
    set (mr := Z.to_pos (Z.abs (R0 * c))).
    assert (Emr : Zpos mr = Z.abs R0 * c).
    { unfold mr. rewrite Z2Pos.id by lia. rewrite Z.abs_mul. lia. }
    set (dr := Zpos (digits2_pos (Z.to_pos (Z.abs R0)))).
    assert (Hdr : 1 <= dr <= 24 /\ dr <= k).
    { unfold dr. split; [split; [lia|]|].
      - apply digits_le; [lia|]. rewrite Z2Pos.id by lia. lia.
      - apply digits_le; [lia|]. rewrite Z2Pos.id by lia.
        replace k with (1 + (k - 1)) in * by lia.
        rewrite Z.pow_add_r in * by lia.
        assert (0 < 2 ^ (k - 1)) by (apply Z.pow_pos_nonneg; lia). lia. }
    assert (Edr : Zpos (digits2_pos mr) = dr + (e - e0)).
    { apply (digits_mul_pow2 (Z.to_pos (Z.abs R0)) mr (e - e0)); [lia|].
      rewrite Emr, Z2Pos.id by lia. reflexivity. }
    set (er := fexp F32.prec F32.emax (Zpos (digits2_pos mr) + e0)).
    assert (Her : er = Z.max (dr + e - 24) (-149)).
    { unfold er. rewrite fexp_eq, Edr. f_equal. lia. }
    rewrite binary_round_shift by (fold er; lia). fold er.
    rewrite sub_aligned by lia.
    (* the difference is n, scaled *)
    assert (ES : cond_Zopp s (Zpos m * 2 ^ (e - er))
                 - cond_Zopp (xorb s (R0 * c <? 0))
                     (Zpos (Z.to_pos (Zpos mr * 2 ^ (e0 - er))))
                 = cond_Zopp s (n * 2 ^ (- er))).
    { assert (Pe : 0 < 2 ^ (e0 - er)) by (apply Z.pow_pos_nonneg; lia).
      rewrite Z2Pos.id by nia. rewrite Emr.
      assert (E1 : 2 ^ (e - er) = c * 2 ^ (e0 - er)).
      { unfold c. rewrite <- Z.pow_add_r by lia. f_equal. lia. }
      assert (E2 : 2 ^ (- er) = 2 ^ k * c * 2 ^ (e0 - er)).
      { unfold c. rewrite <- !Z.pow_add_r by lia. f_equal. lia. }
      rewrite E1, E2.
      assert (E3 : Zpos m = n * 2 ^ k + R0) by (unfold R0; lia).
      destruct (R0 * c <? 0) eqn:Sg.
      - apply Z.ltb_lt in Sg. assert (R0 < 0) by nia.
        rewrite Z.abs_neq by lia. destruct s; cbn [xorb cond_Zopp]; nia.
      - apply Z.ltb_ge in Sg. assert (0 < R0) by nia.
        rewrite Z.abs_eq by lia. destruct s; cbn [xorb cond_Zopp]; nia. }
    rewrite ES.
    destruct (Z.eq_dec n 0) as [En|Nn].
    + rewrite En. cbn [Z.mul]. destruct s; reflexivity.
    + assert (Pe : 0 < 2 ^ (- er)) by (apply Z.pow_pos_nonneg; lia).
      rewrite normalize_signed by nia.
      replace (n * 2 ^ (- er) <? 0) with false by (symmetry; apply Z.ltb_ge; nia).
      rewrite xorb_false_r, Z.abs_eq by nia.
      rewrite (binary_round_int_neg s n er) by lia.
      rewrite of_Z_signed by lia. reflexivity.
Qed.

(** ** RoundHalfToEven *)

Lemma valid_wf x : F32.valid x = true -> wf32 x.
Proof.
  destruct x as [s|s| |s m e]; cbn [wf32]; auto.
  unfold F32.valid, valid_binary, bounded, canonical_mantissa.
  intros H. apply andb_true_iff in H. destruct H as [H _].
  apply Z.eqb_eq in H. rewrite fexp_eq in H.
  split; [|lia]. apply digits_le; lia.
Qed.

Lemma RoundHalfToEven_integer s m e :
  0 <= e -> RoundHalfToEven (S754_finite s m e) = S754_finite s m e.
Proof.
  intros He. unfold RoundHalfToEven. cbn [F32.isfinite negb].
  unfold F32.remainderf. rewrite one_eq. cbv zeta.
  rewrite Z.min_r by lia.
  replace (-23 - -23) with 0 by lia. rewrite Z.pow_0_r, Z.mul_1_r.
  replace (e - -23) with (e + 23) by lia. rewrite Z.pow_add_r by lia.
  change (2 ^ 23) with 8388608.
  replace (Zpos m * (2 ^ e * 8388608)) with ((Zpos m * 2 ^ e) * 8388608) by lia.
  rewrite Zrne_exact by lia. rewrite Z.sub_diag. reflexivity.
Qed.

Lemma RoundHalfToEven_zero s : RoundHalfToEven (S754_zero s) = S754_zero false.
Proof. destruct s; reflexivity. Qed.

Lemma to_Q_of_Z z : Z.abs z < 2 ^ 24 -> (F32.to_Q (F32.of_Z z) == inject_Z z)%Q.
Proof.
  intros Hz. destruct (Z.eq_dec z 0) as [->|NZ]; [reflexivity|].
  unfold F32.of_Z, F32.of_dyadic.
  replace z with (cond_Zopp (z <? 0) (Z.abs z)) at 1.
  2:{ destruct (Z.ltb_spec z 0); cbn [cond_Zopp]; lia. }
  rewrite normalize_signed by lia.
  replace (Z.abs z <? 0) with false by (symmetry; apply Z.ltb_ge; lia).
  rewrite xorb_false_r, Z.abs_idemp.
  set (a := Z.abs z) in *. set (p := Z.to_pos a).
  assert (Ep : Zpos p = a) by (unfold p; rewrite Z2Pos.id by lia; reflexivity).
  set (d := Zpos (digits2_pos p)).
  assert (Hd : 1 <= d <= 24).
  { unfold d. split; [lia|]. apply digits_le; [lia|]. lia. }
  rewrite binary_round_shift; rewrite fexp_eq, Z.add_0_r; fold d; try lia.
  rewrite Z.max_l by lia. replace (0 - (d - 24)) with (24 - d) by lia.
  assert (P : 0 < 2 ^ (24 - d)) by (apply Z.pow_pos_nonneg; lia).
  unfold F32.to_Q. rewrite Z2Pos.id by nia.
  destruct (Z.leb_spec 0 (d - 24)) as [L|L].
  - replace (24 - d) with 0 by lia. replace (d - 24) with 0 by lia.
    rewrite !Z.pow_0_r, !Z.mul_1_r. rewrite Ep.
    destruct (Z.ltb_spec z 0); cbn [cond_Zopp]; unfold a;
      [rewrite Z.abs_neq by lia | rewrite Z.abs_eq by lia];
      rewrite ?Z.opp_involutive; reflexivity.
  - replace (- (d - 24)) with (24 - d) by lia.
    unfold Qeq. cbn [Qnum Qden inject_Z]. rewrite Z2Pos.id by lia. rewrite Ep.
    destruct (Z.ltb_spec z 0); cbn [cond_Zopp]; unfold a;
      [rewrite Z.abs_neq by lia | rewrite Z.abs_eq by lia]; lia.
Qed.

Lemma trunc_of_Z z : Z.abs z < 2 ^ 24 -> F32.trunc (F32.of_Z z) = Some z.
Proof.
  intros Hz. destruct (Z.eq_dec z 0) as [->|NZ]; [reflexivity|].
  unfold F32.of_Z, F32.of_dyadic.
  replace z with (cond_Zopp (z <? 0) (Z.abs z)) at 1.
  2:{ destruct (Z.ltb_spec z 0); cbn [cond_Zopp]; lia. }
  rewrite normalize_signed by lia.
  replace (Z.abs z <? 0) with false by (symmetry; apply Z.ltb_ge; lia).
  rewrite xorb_false_r, Z.abs_idemp.
  set (a := Z.abs z) in *. set (p := Z.to_pos a).
  assert (Ep : Zpos p = a) by (unfold p; rewrite Z2Pos.id by lia; reflexivity).
  set (d := Zpos (digits2_pos p)).
  assert (Hd : 1 <= d <= 24).
  { unfold d. split; [lia|]. apply digits_le; [lia|]. lia. }
  rewrite binary_round_shift; rewrite fexp_eq, Z.add_0_r; fold d; try lia.
  rewrite Z.max_l by lia. replace (0 - (d - 24)) with (24 - d) by lia.
  assert (P : 0 < 2 ^ (24 - d)) by (apply Z.pow_pos_nonneg; lia).
  unfold F32.trunc. rewrite Z2Pos.id by nia. rewrite Ep. f_equal.
  assert (E : (if 0 <=? d - 24 then a * 2 ^ (24 - d) * 2 ^ (d - 24)
               else a * 2 ^ (24 - d) / 2 ^ (- (d - 24))) = a).
  { destruct (Z.leb_spec 0 (d - 24)) as [L|L].
    - replace (24 - d) with 0 by lia. replace (d - 24) with 0 by lia.
      rewrite !Z.pow_0_r. lia.
    - replace (- (d - 24)) with (24 - d) by lia. apply Z.div_mul. lia. }
  rewrite E. unfold a. destruct (Z.ltb_spec z 0); cbn [cond_Zopp]; lia.
Qed.

Lemma trunc_finite x r : F32.trunc x = Some r -> F32.isfinite x = true.
Proof. destruct x; cbn; congruence. Qed.

Lemma to_Q_fraction s m e :
  e < 0 ->
  F32.to_Q (S754_finite s m e) = Qmake (cond_Zopp s (Zpos m)) (Z.to_pos (2 ^ (- e))).
Proof.
  intros He. unfold F32.to_Q.
  replace (0 <=? e) with false by (symmetry; apply Z.leb_gt; lia). reflexivity.
Qed.

(** The distance of [a / 2^k] to an integer, in integers. *)
Lemma Qabs_dyadic_distance a k n :
  0 <= k ->
  Qabs (Qmake a (Z.to_pos (2 ^ k)) - inject_Z n)
  = Qmake (Z.abs (a - n * 2 ^ k)) (Z.to_pos (2 ^ k)).
Proof.
  intros Hk. assert (P : 0 < 2 ^ k) by (apply Z.pow_pos_nonneg; lia).
  unfold Qminus, Qplus, Qopp, inject_Z, Qabs. cbn [Qnum Qden].
  rewrite Pos.mul_1_r, Z.mul_1_r, Z2Pos.id by lia.
  f_equal. f_equal. lia.
Qed.

(** C9. For a finite binary32 [x], [RoundHalfToEven x] is a finite float
    whose value is an integer [n] at distance at most 1/2 from [x], the
    even one when the distance is exactly 1/2; a float that is not finite
    (NaN, an infinity) comes back as it is; 0.5 gives 0, 1.5 gives 2 and
    2.5 gives 2. *)
Theorem RoundHalfToEven_nearest_even (x : float) :
  F32.valid x = true ->
  (F32.isfinite x = true ->
   F32.isfinite (RoundHalfToEven x) = true /\
   exists n : Z,
     (F32.to_Q (RoundHalfToEven x) == inject_Z n)%Q /\
     (Qabs (F32.to_Q x - inject_Z n) <= 1 # 2)%Q /\
     ((Qabs (F32.to_Q x - inject_Z n) == 1 # 2)%Q -> Z.even n = true)) /\
  (F32.isfinite x = false -> RoundHalfToEven x = x) /\
  RoundHalfToEven (F32.of_dyadic 1 (-1)) = F32.zero /\
  RoundHalfToEven (F32.of_dyadic 3 (-1)) = F32.of_Z 2 /\
  RoundHalfToEven (F32.of_dyadic 5 (-1)) = F32.of_Z 2.
Proof.
  intros Hv. pose proof (valid_wf x Hv) as Hwf.
  split; [|split; [|repeat split; vm_compute; reflexivity]].
  2:{ intros Hf. unfold RoundHalfToEven. rewrite Hf. reflexivity. }
  intros Hf. destruct x as [s|s| |s m e]; try discriminate.
  - (* a zero *)
    rewrite RoundHalfToEven_zero. split; [reflexivity|]. exists 0.
    split; [reflexivity|]. split; [discriminate | intros H; discriminate H].
  - cbn [wf32] in Hwf. destruct Hwf as [Hm He].
    destruct (Z.leb_spec 0 e) as [Hpos|Hneg].
    + (* an integer *)
      rewrite RoundHalfToEven_integer by exact Hpos. split; [reflexivity|].
      exists (cond_Zopp s (Zpos m * 2 ^ e)).
      assert (E : F32.to_Q (S754_finite s m e)
                  = inject_Z (cond_Zopp s (Zpos m * 2 ^ e))).
      { unfold F32.to_Q.
        replace (0 <=? e) with true by (symmetry; apply Z.leb_le; lia).
        f_equal. destruct s; cbn [cond_Zopp]; lia. }
      rewrite E. split; [reflexivity|].
      assert (D : (inject_Z (cond_Zopp s (Zpos m * 2 ^ e))
                   - inject_Z (cond_Zopp s (Zpos m * 2 ^ e)) == 0)%Q) by ring.
      split.
      * rewrite D. discriminate.
      * intros H. rewrite D in H. discriminate H.
    + (* a float with a fraction *)
      pose proof (RoundHalfToEven_fraction s m e Hm He Hneg) as [Hn Hr].
      set (k := - e) in *. assert (Hk : 0 < k) by lia.
      assert (Pk : 0 < 2 ^ k) by (apply Z.pow_pos_nonneg; lia).
      pose proof (Zrne_spec (Zpos m) (2 ^ k) Pk) as (S1 & S2 & _).
      set (n := F32.Zrne (Zpos m) (2 ^ k)) in *.
      assert (Near : (Qabs (F32.to_Q (S754_finite s m e) - inject_Z (cond_Zopp s n))
                      <= 1 # 2)%Q /\
                     ((Qabs (F32.to_Q (S754_finite s m e) - inject_Z (cond_Zopp s n))
                       == 1 # 2)%Q -> Z.even (cond_Zopp s n) = true)).
      { rewrite to_Q_fraction by exact Hneg. fold k.
        rewrite Qabs_dyadic_distance by lia.
        assert (A : Z.abs (cond_Zopp s (Zpos m) - cond_Zopp s n * 2 ^ k)
                    = Z.abs (Zpos m - n * 2 ^ k))
          by (destruct s; cbn [cond_Zopp]; lia).
        rewrite A. unfold Qle, Qeq. cbn [Qnum Qden]. rewrite Z2Pos.id by lia.
        split; [lia|]. intros H.
        assert (Ev : Z.even n = true) by (apply S2; lia).
        destruct s; cbn [cond_Zopp]; [rewrite Z.even_opp|]; exact Ev. }
      destruct Hr as [[-> Em]| ->].
      * split; [reflexivity|]. exists (cond_Zopp s n). split; [|exact Near].
        rewrite to_Q_fraction by exact Hneg. fold k.
        unfold Qeq. cbn [Qnum Qden inject_Z]. rewrite Z2Pos.id by lia.
        fold n in Em. destruct s; cbn [cond_Zopp]; lia.
      * assert (Hz : Z.abs (cond_Zopp s n) < 2 ^ 24)
          by (destruct s; cbn [cond_Zopp]; lia).
        split.
        -- apply (trunc_finite _ (cond_Zopp s n)). apply trunc_of_Z. exact Hz.
        -- exists (cond_Zopp s n). split; [apply to_Q_of_Z; exact Hz | exact Near].
Qed.

Lemma RoundHalfToEven_nearest_even_witness :
  F32.valid (F32.of_dyadic 5 (-1)) = true /\
  ((F32.isfinite (F32.of_dyadic 5 (-1)) = true ->
    F32.isfinite (RoundHalfToEven (F32.of_dyadic 5 (-1))) = true /\
    exists n : Z,
      (F32.to_Q (RoundHalfToEven (F32.of_dyadic 5 (-1))) == inject_Z n)%Q /\
      (Qabs (F32.to_Q (F32.of_dyadic 5 (-1)) - inject_Z n) <= 1 # 2)%Q /\
      ((Qabs (F32.to_Q (F32.of_dyadic 5 (-1)) - inject_Z n) == 1 # 2)%Q ->
       Z.even n = true)) /\
   (F32.isfinite (F32.of_dyadic 5 (-1)) = false ->
    RoundHalfToEven (F32.of_dyadic 5 (-1)) = F32.of_dyadic 5 (-1)) /\
   RoundHalfToEven (F32.of_dyadic 1 (-1)) = F32.zero /\
   RoundHalfToEven (F32.of_dyadic 3 (-1)) = F32.of_Z 2 /\
   RoundHalfToEven (F32.of_dyadic 5 (-1)) = F32.of_Z 2).
Proof.
  split; [reflexivity|].
  apply (RoundHalfToEven_nearest_even (F32.of_dyadic 5 (-1))). reflexivity.
Defined.

(** ** The zero point *)

(** The value of [RoundHalfToEven] on a well-formed finite float. *)
Lemma RoundHalfToEven_value s m e :
  Zpos m < 2 ^ 24 -> -149 <= e ->
  F32.trunc (RoundHalfToEven (S754_finite s m e))
    = Some (cond_Zopp s (F32.rint_mag m e)) /\
  (F32.to_Q (RoundHalfToEven (S754_finite s m e))
   == inject_Z (cond_Zopp s (F32.rint_mag m e)))%Q.
Proof.
  intros Hm He. unfold F32.rint_mag.
  destruct (Z.leb_spec 0 e) as [Hpos|Hneg].
  - rewrite RoundHalfToEven_integer by exact Hpos. unfold F32.trunc, F32.to_Q.
    replace (0 <=? e) with true by (symmetry; apply Z.leb_le; lia).
    split; [reflexivity|]. destruct s; cbn [cond_Zopp]; [|reflexivity].
    replace (- Zpos m * 2 ^ e) with (- (Zpos m * 2 ^ e)) by lia. reflexivity.
  - pose proof (RoundHalfToEven_fraction s m e Hm He Hneg) as [Hn Hr].
    assert (Pk : 0 < 2 ^ (- e)) by (apply Z.pow_pos_nonneg; lia).
    set (n := F32.Zrne (Zpos m) (2 ^ (- e))) in *.
    destruct Hr as [[-> Em]| ->].
    + unfold F32.trunc. rewrite to_Q_fraction by exact Hneg.
      replace (0 <=? e) with false by (symmetry; apply Z.leb_gt; lia).
      split.
      * rewrite Em at 1. rewrite Z.div_mul by lia. reflexivity.
      * unfold Qeq. cbn [Qnum Qden inject_Z]. rewrite Z2Pos.id by lia.
        destruct s; cbn [cond_Zopp]; lia.
    + assert (Hz : Z.abs (cond_Zopp s n) < 2 ^ 24)
        by (destruct s; cbn [cond_Zopp]; lia).
      split; [apply trunc_of_Z | apply to_Q_of_Z]; exact Hz.
Qed.

Lemma rint_mag_nonneg m e : 0 <= F32.rint_mag m e.
Proof.
  unfold F32.rint_mag. destruct (Z.leb_spec 0 e) as [H|H].
  - apply Z.mul_nonneg_nonneg; [lia | apply Z.pow_nonneg; lia].
  - assert (P : 0 < 2 ^ (- e)) by (apply Z.pow_pos_nonneg; lia).
    apply Zrne_ge; [exact P | lia].
Qed.

(** A well-formed magnitude that is at most an integer bound in the order
    of the floats rounds to at most that integer. *)
Lemma rint_mag_le m e mb eb Qb :
  Zpos m < 2 ^ 24 -> 2 ^ 23 <= Zpos mb -> eb <= 0 ->
  Zpos mb = Qb * 2 ^ (- eb) ->
  e < eb \/ (e = eb /\ Zpos m <= Zpos mb) ->
  F32.rint_mag m e <= Qb.
Proof.
  intros Hm Hmb Heb EQ Hle. unfold F32.rint_mag.
  assert (Pb : 0 < 2 ^ (- eb)) by (apply Z.pow_pos_nonneg; lia).
  destruct (Z.leb_spec 0 e) as [H|H].
  - assert (e = 0) by lia. assert (eb = 0) by lia. subst e eb.
    rewrite Z.pow_0_r in *. lia.
  - assert (P : 0 < 2 ^ (- e)) by (apply Z.pow_pos_nonneg; lia).
    apply Zrne_le; [exact P|].
    destruct Hle as [Hlt|[-> Hle]]; [|lia].
    replace (- e) with ((- eb) + 1 + (eb - e - 1)) by lia.
    rewrite !Z.pow_add_r by lia.
    assert (1 <= 2 ^ (eb - e - 1)) by (apply (Z.pow_le_mono_r 2 0); lia).
    change (2 ^ 24) with (2 * 2 ^ 23) in Hm. change (2 ^ 1) with 2. nia.
Qed.

Lemma div_wf x y : wf32 (F32.div x y).
Proof.
  unfold F32.div, SFdiv.
  destruct x as [sx|sx| |sx mx ex], y as [sy|sy| |sy my ey]; try exact I.
  unfold SFdiv_core_binary.
  set (m' := match _ - _ - _ with Zpos _ => _ | Z0 => _ | Zneg _ => _ end).
  assert (Hm' : 0 <= m').
  { unfold m'. destruct (_ - _ - _) as [|p|p]; try lia.
    rewrite Z.shiftl_mul_pow2 by lia.
    apply Z.mul_nonneg_nonneg; [lia | apply Z.pow_nonneg; lia]. }
  pose proof (Z.div_eucl_eq m' (Zpos my) ltac:(lia)) as E.
  pose proof (Z.mod_pos_bound m' (Zpos my) ltac:(lia)) as B.
  unfold Z.modulo in B.
  destruct (Z.div_eucl m' (Zpos my)) as [q r].
  apply binary_round_aux_wf. nia.
Qed.

Lemma binary_normalize_wf z e sz :
  wf32 (binary_normalize F32.prec F32.emax z e sz).
Proof.
  destruct z as [|p|p]; cbn [binary_normalize]; [exact I| |];
    unfold binary_round;
    destruct (shl_align _ _ _) as [mz ez]; apply binary_round_aux_wf; lia.
Qed.

Lemma sub_wf x y : wf32 x -> wf32 y -> wf32 (F32.sub x y).
Proof.
  intros Hx Hy. unfold F32.sub, SFsub.
  destruct x as [sx|sx| |sx mx ex], y as [sy|sy| |sy my ey];
    try exact I; try exact Hx; try exact Hy;
    try (destruct sx, sy; exact I).
  apply binary_normalize_wf.
Qed.

Lemma clamp_cases lo hi x :
  F32.std_max lo (F32.std_min hi x) = lo \/
  (F32.std_max lo (F32.std_min hi x) = hi /\ F32.ltb lo hi = true) \/
  (F32.std_max lo (F32.std_min hi x) = x /\
   F32.ltb x hi = true /\ F32.ltb lo x = true).
Proof.
  unfold F32.std_max, F32.std_min.
  destruct (F32.ltb x hi) eqn:E1.
  - destruct (F32.ltb lo x) eqn:E2; auto.
  - destruct (F32.ltb lo hi) eqn:E2; auto.
Qed.

Lemma RoundHalfToEven_rint x :
  wf32 x -> F32.isfinite x = true ->
  F32.trunc (RoundHalfToEven x) = Some (rint x) /\
  (F32.to_Q (RoundHalfToEven x) == inject_Z (rint x))%Q.
Proof.
  intros Hwf Hf. destruct x as [s|s| |s m e]; try discriminate.
  - rewrite RoundHalfToEven_zero. split; reflexivity.
  - destruct Hwf as [Hm He]. apply RoundHalfToEven_value; assumption.
Qed.

Lemma rint_upper x hi qhi :
  wf32 x -> F32.isfinite x = true ->
  is_bound false hi qhi -> 0 <= qhi ->
  ~ key_lt (order_key hi) (order_key x) ->
  rint x <= qhi.
Proof.
  intros Hwf Hf Hb Hq Hle. destruct x as [s|s| |s m e]; try discriminate;
    cbn [rint]; [exact Hq|].
  pose proof (rint_mag_nonneg m e) as Hn.
  destruct s; cbn [cond_Zopp]; [lia|].
  destruct Hwf as [Hm He].
  destruct Hb as [[-> ->]|(mh & eh & -> & Hmh & Heh & EQ)].
  - exfalso. apply Hle. cbn. lia.
  - apply (rint_mag_le m e mh eh qhi); try lia.
    cbn [order_key key_lt] in Hle. lia.
Qed.

Lemma rint_lower x lo qlo :
  wf32 x -> F32.isfinite x = true ->
  is_bound true lo qlo -> 0 <= qlo ->
  ~ key_lt (order_key x) (order_key lo) ->
  - qlo <= rint x.
Proof.
  intros Hwf Hf Hb Hq Hle. destruct x as [s|s| |s m e]; try discriminate;
    cbn [rint]; [lia|].
  pose proof (rint_mag_nonneg m e) as Hn.
  destruct s; cbn [cond_Zopp]; [|lia].
  destruct Hwf as [Hm He].
  destruct Hb as [[-> ->]|(ml & el & -> & Hml & Hel & EQ)].
  - exfalso. apply Hle. cbn. lia.
  - assert (F32.rint_mag m e <= qlo); [|lia].
    apply (rint_mag_le m e ml el qlo); try lia.
    cbn [order_key key_lt] in Hle. lia.
Qed.

Lemma is_bound_finite neg f q :
  is_bound neg f q -> wf32 f /\ F32.isfinite f = true /\ F32.isnan f = false.
Proof.
  intros [[-> _]|(m & e & -> & Hm & He & _)]; cbn; repeat split; lia.
Qed.

(** A clamped float rounds to an integer between the bounds. *)
Lemma clamp_round_range lo hi qlo qhi x :
  is_bound true lo qlo -> is_bound false hi qhi -> 0 <= qlo -> 0 <= qhi ->
  wf32 x ->
  exists zp,
    F32.trunc (RoundHalfToEven (F32.std_max lo (F32.std_min hi x))) = Some zp /\
    (F32.to_Q (RoundHalfToEven (F32.std_max lo (F32.std_min hi x)))
     == inject_Z zp)%Q /\
    - qlo <= zp <= qhi.
Proof.
  intros Hlo Hhi Hql Hqh Hx.
  pose proof (is_bound_finite _ _ _ Hlo) as (Wlo & Flo & Nlo).
  pose proof (is_bound_finite _ _ _ Hhi) as (Whi & Fhi & Nhi).
  assert (Klo : ~ key_lt (0, 0, 0) (order_key lo)).
  { destruct Hlo as [[-> _]|(ml & el & -> & _)]; cbn [order_key key_lt]; lia. }
  assert (Khi : ~ key_lt (order_key hi) (0, 0, 0)).
  { destruct Hhi as [[-> _]|(mh & eh & -> & _)]; cbn [order_key key_lt]; lia. }
  assert (G : forall c, wf32 c -> F32.isfinite c = true ->
                ~ key_lt (order_key hi) (order_key c) ->
                ~ key_lt (order_key c) (order_key lo) ->
                exists zp,
                  F32.trunc (RoundHalfToEven c) = Some zp /\
                  (F32.to_Q (RoundHalfToEven c) == inject_Z zp)%Q /\
                  - qlo <= zp <= qhi).
  { intros c Wc Fc U L. exists (rint c).
    pose proof (RoundHalfToEven_rint c Wc Fc) as [T Q].
    split; [exact T|]. split; [exact Q|]. split.
    - apply (rint_lower c lo qlo); assumption.
    - apply (rint_upper c hi qhi); assumption. }
  destruct (clamp_cases lo hi x) as [->|[[-> Hlh]|(-> & Hxh & Hlx)]].
  - apply G; try assumption.
    + destruct (order_key lo) as [[c e] m], (order_key hi) as [[c' e'] m'].
      unfold key_lt in *. lia.
    + destruct (order_key lo) as [[c e] m]. unfold key_lt. lia.
  - apply G; try assumption.
    + destruct (order_key hi) as [[c e] m]. unfold key_lt. lia.
    + destruct (order_key lo) as [[c e] m], (order_key hi) as [[c' e'] m'].
      unfold key_lt in *. lia.
  - apply ltb_key in Hxh, Hlx.
    destruct Hxh as (Nx & _ & K1), Hlx as (_ & _ & K2).
    assert (Fx : F32.isfinite x = true).
    { destruct x as [s|s| |s m e]; try reflexivity; try discriminate.
      exfalso. destruct s; cbn [order_key] in *.
      - destruct Hlo as [[-> _]|(ml & el & -> & _)]; cbn in K2; lia.
      - destruct Hhi as [[-> _]|(mh & eh & -> & _)]; cbn in K1; lia. }
    apply G; try assumption.
    + destruct (order_key hi) as [[c1 e1] m1], (order_key x) as [[c2 e2] m2].
      unfold key_lt in *. lia.
    + destruct (order_key lo) as [[c1 e1] m1], (order_key x) as [[c2 e2] m2].
      unfold key_lt in *. lia.
Qed.

Lemma quant_range_bounds T ReduceRange :
  is_bound true (F32.of_Z (fst (quant_range T ReduceRange)))
           (- fst (quant_range T ReduceRange)) /\
  is_bound false (F32.of_Z (snd (quant_range T ReduceRange)))
           (snd (quant_range T ReduceRange)) /\
  numeric_limits_min T <= fst (quant_range T ReduceRange) <= 0 /\
  0 <= snd (quant_range T ReduceRange) <= numeric_limits_max T.
Proof.
  destruct T, ReduceRange; cbn [quant_range is_int8 andb fst snd
    numeric_limits_min numeric_limits_max];
    (split; [|split; [|split; lia]]);
    try (left; split; reflexivity);
    right.
  - exists 8388608%positive, (-17). repeat split; try reflexivity; try lia; discriminate.
  - exists 8388608%positive, (-17). repeat split; try reflexivity; try lia; discriminate.
  - exists 8388608%positive, (-16). repeat split; try reflexivity; try lia; discriminate.
  - exists 16646144%positive, (-17). repeat split; try reflexivity; try lia; discriminate.
  - exists 16711680%positive, (-16). repeat split; try reflexivity; try lia; discriminate.
  - exists 16711680%positive, (-16). repeat split; try reflexivity; try lia; discriminate.
Qed.

Lemma scale_zero_point_asymmetric T ReduceRange Symmetric mn mx :
  is_int8 T && Symmetric = false ->
  exists scale zp,
    scale_zero_point T ReduceRange Symmetric mn mx = Ok (scale, zp) /\
    scale = (if F32.eqb mx mn then F32.one
             else F32.div (F32.sub mx mn)
                    (F32.of_Z (snd (quant_range T ReduceRange)
                               - fst (quant_range T ReduceRange)))) /\
    (F32.to_Q
       (RoundHalfToEven
          (F32.std_max (F32.of_Z (fst (quant_range T ReduceRange)))
             (F32.std_min (F32.of_Z (snd (quant_range T ReduceRange)))
                (F32.sub (F32.of_Z (fst (quant_range T ReduceRange)))
                         (F32.div mn scale)))))
     == inject_Z zp)%Q /\
    fst (quant_range T ReduceRange) <= zp <= snd (quant_range T ReduceRange) /\
    numeric_limits_min T <= zp <= numeric_limits_max T.
Proof.
  intros Hsym. unfold scale_zero_point. rewrite Hsym.
  pose proof (quant_range_bounds T ReduceRange) as (Blo & Bhi & Rlo & Rhi).
  destruct (quant_range T ReduceRange) as [qmin qmax]. cbn [fst snd] in *.
  set (scale := if F32.eqb mx mn then F32.one
                else F32.div (F32.sub mx mn) (F32.of_Z (qmax - qmin))).
  set (izp := F32.sub (F32.of_Z qmin) (F32.div mn scale)).
  assert (Wizp : wf32 izp).
  { unfold izp. apply sub_wf; [apply binary_normalize_wf | apply div_wf]. }
  destruct (clamp_round_range (F32.of_Z qmin) (F32.of_Z qmax) (- qmin) qmax izp
              Blo Bhi ltac:(lia) ltac:(lia) Wizp) as (zp & Tr & Q & Rg).
  exists scale, zp. unfold F32.static_cast_int. rewrite Tr.
  replace (numeric_limits_min T <=? zp) with true by (symmetry; apply Z.leb_le; lia).
  replace (zp <=? numeric_limits_max T) with true by (symmetry; apply Z.leb_le; lia).
  cbn [andb bind]. repeat split; try reflexivity; try exact Q; lia.
Qed.

(** C5. In the asymmetric case [GetQuantizationParameter] returns the zero
    point [RoundHalfToEven(clamp(qmin - min / scale, qmin, qmax))]: the
    rounded float is the integer returned, the cast to the output type is
    defined, and the zero point lies in [qmin, qmax], inside the range of
    the type. *)
Theorem zero_point_in_range (T : QType) (ReduceRange Symmetric : bool)
  (data : list float) (should_parallelize : bool) (sched : scheduler)
  (aggregate : list FloatMinMax) :
  valid_scheduler sched ->
  length aggregate = 32%nat ->
  4 * Z.of_nat (length data) <= Int.int64_max ->
  is_int8 T && Symmetric = false ->
  exists mm scale zp,
    minmax_reduce data (Z.of_nat (length data)) should_parallelize sched aggregate
      = Ok mm /\
    GetQuantizationParameter T ReduceRange Symmetric data (Z.of_nat (length data))
      should_parallelize sched aggregate = Ok (scale, zp) /\
    (F32.to_Q
       (RoundHalfToEven
          (F32.std_max (F32.of_Z (fst (quant_range T ReduceRange)))
             (F32.std_min (F32.of_Z (snd (quant_range T ReduceRange)))
                (F32.sub (F32.of_Z (fst (quant_range T ReduceRange)))
                         (F32.div (fst (include_zero mm)) scale)))))
     == inject_Z zp)%Q /\
    fst (quant_range T ReduceRange) <= zp <= snd (quant_range T ReduceRange) /\
    numeric_limits_min T <= zp <= numeric_limits_max T.
Proof.
  intros Hs Hlen Hmax Hsym.
  pose proof (minmax_reduce_folds data should_parallelize sched aggregate
                Hs Hlen Hmax) as Hr.
  unfold GetQuantizationParameter. rewrite Hr. cbn [bind].
  destruct (include_zero _) as [mn mx] eqn:Ez.
  destruct (scale_zero_point_asymmetric T ReduceRange Symmetric mn mx Hsym)
    as (scale & zp & E & _ & Q & R1 & R2).
  exists (fold_left F32.std_min data F32.FLT_MAX,
          fold_left F32.std_max data F32.FLT_LOWEST), scale, zp.
  rewrite Ez. cbn [fst]. repeat split; try assumption; lia.
Qed.

Lemma zero_point_in_range_witness :
  valid_scheduler reverse_scheduler /\
  length garbage = 32%nat /\
  4 * Z.of_nat (length sample_data) <= Int.int64_max /\
  is_int8 UInt8 && false = false /\
  exists mm scale zp,
    minmax_reduce sample_data (Z.of_nat (length sample_data)) true
      reverse_scheduler garbage = Ok mm /\
    GetQuantizationParameter UInt8 false false sample_data
      (Z.of_nat (length sample_data)) true reverse_scheduler garbage
      = Ok (scale, zp) /\
    (F32.to_Q
       (RoundHalfToEven
          (F32.std_max (F32.of_Z (fst (quant_range UInt8 false)))
             (F32.std_min (F32.of_Z (snd (quant_range UInt8 false)))
                (F32.sub (F32.of_Z (fst (quant_range UInt8 false)))
                         (F32.div (fst (include_zero mm)) scale)))))
     == inject_Z zp)%Q /\
    fst (quant_range UInt8 false) <= zp <= snd (quant_range UInt8 false) /\
    numeric_limits_min UInt8 <= zp <= numeric_limits_max UInt8.
Proof.
  split; [exact reverse_scheduler_valid|].
  split; [reflexivity|].
  split; [vm_compute; discriminate|].
  split; [reflexivity|].
  apply (zero_point_in_range UInt8 false false sample_data true
           reverse_scheduler garbage).
  - exact reverse_scheduler_valid.
  - reflexivity.
  - vm_compute. discriminate.
  - reflexivity.
Defined.

(** ** The narrow-float overload *)

Lemma trunc_Qtrunc x r : F32.trunc x = Some r -> r = Qtrunc (F32.to_Q x).
Proof.
  destruct x as [s|s| |s m e]; unfold F32.trunc; try discriminate.
  - intros H. inversion H. reflexivity.
  - intros H.
    assert (E : r = cond_Zopp s (if 0 <=? e then Zpos m * 2 ^ e
                                 else Zpos m / 2 ^ (- e))) by congruence.
    rewrite E. clear H E. unfold F32.to_Q, Qtrunc.
    destruct (Z.leb_spec 0 e) as [L|L].
    + cbv [inject_Z Qnum Qden]. rewrite Z.quot_1_r.
      destruct s; cbv [cond_Zopp]; ring.
    + cbn [Qnum Qden].
      assert (P : 0 < 2 ^ (- e)) by (apply Z.pow_pos_nonneg; lia).
      rewrite Z2Pos.id by lia.
      destruct s; cbn [cond_Zopp].
      * rewrite Z.quot_opp_l by lia. rewrite Z.quot_div_nonneg by lia. reflexivity.
      * rewrite Z.quot_div_nonneg by lia. reflexivity.
Qed.

Lemma quantize_f16_trunc T x Scale zp v :
  quantize_f16 T x (ToFloat Scale) zp = Ok v -> v = quantize_trunc T x Scale zp.
Proof.
  unfold quantize_f16, quantize_trunc, F32.static_cast_int32, F32.static_cast_int.
  destruct (F32.trunc (F32.div (ToFloat x) (ToFloat Scale))) as [r|] eqn:E;
    [|discriminate].
  apply trunc_Qtrunc in E.
  destruct (_ && _); cbn [bind]; [|discriminate].
  unfold Int.add32. destruct (Int.in_int32 _); cbn [bind]; [|discriminate].
  intros H. inversion H. subst r. reflexivity.
Qed.

Lemma to_Q_scale s m t e m' :
  0 <= t -> Zpos m' = Zpos m * 2 ^ t ->
  (F32.to_Q (S754_finite s m' (e - t)) == F32.to_Q (S754_finite s m e))%Q.
Proof.
  intros Ht Em. unfold F32.to_Q.
  assert (Pt : 0 < 2 ^ t) by (apply Z.pow_pos_nonneg; lia).
  assert (C : cond_Zopp s (Zpos m') = cond_Zopp s (Zpos m) * 2 ^ t)
    by (destruct s; cbn [cond_Zopp]; lia).
  destruct (Z.leb_spec 0 (e - t)) as [L1|L1]; destruct (Z.leb_spec 0 e) as [L2|L2];
    try lia.
  - rewrite C. replace e with (t + (e - t)) at 2 by lia.
    rewrite Z.pow_add_r by lia.
    replace (cond_Zopp s (Zpos m) * 2 ^ t * 2 ^ (e - t))
      with (cond_Zopp s (Zpos m) * (2 ^ t * 2 ^ (e - t))) by lia.
    reflexivity.
  - assert (P : 0 < 2 ^ (- (e - t))) by (apply Z.pow_pos_nonneg; lia).
    unfold Qeq. cbn [Qnum Qden inject_Z]. rewrite Z2Pos.id by lia. rewrite C.
    replace t with (e + (- (e - t))) at 1 by lia.
    rewrite Z.pow_add_r by lia. lia.
  - assert (P : 0 < 2 ^ (- (e - t))) by (apply Z.pow_pos_nonneg; lia).
    assert (P' : 0 < 2 ^ (- e)) by (apply Z.pow_pos_nonneg; lia).
    unfold Qeq. cbn [Qnum Qden]. rewrite !Z2Pos.id by lia. rewrite C.
    replace (- (e - t)) with (t + (- e)) by lia.
    rewrite Z.pow_add_r by lia. lia.
Qed.

(** Widening a binary16 to binary32 keeps its value. *)
Lemma ToFloat_exact h :
  F16.valid h = true -> (F32.to_Q (ToFloat h) == F32.to_Q h)%Q.
Proof.
  destruct h as [s|s| |s m e]; try reflexivity.
  unfold F16.valid, valid_binary, bounded, canonical_mantissa.
  intros H. apply andb_true_iff in H. destruct H as [H1 H2].
  apply Z.eqb_eq in H1. apply Z.leb_le in H2.
  unfold fexp, emin, F16.prec, F16.emax in *.
  unfold ToFloat.
  rewrite normalize_signed by lia.
  change (Zpos m <? 0) with false. rewrite xorb_false_r.
  change (Z.to_pos (Z.abs (Zpos m))) with m.
  set (d := Zpos (digits2_pos m)) in *.
  rewrite binary_round_shift; rewrite fexp_eq; fold d; try lia.
  set (e' := Z.max (d + e - 24) (-149)).
  assert (P : 0 < 2 ^ (e - e')) by (apply Z.pow_pos_nonneg; lia).
  replace e' with (e - (e - e')) at 2 by lia.
  apply to_Q_scale; [lia|]. rewrite Z2Pos.id by nia. reflexivity.
Qed.

Lemma chain_cover a c l :
  chain a c l -> forall j, a <= j < c -> exists u, In u l /\ fst u <= j < snd u.
Proof.
  induction 1 as [a|a b c l Hab Hc IH]; intros j Hj; [lia|].
  destruct (Z.lt_ge_cases j b) as [Hlt|Hge].
  - exists (a, b). split; [left; reflexivity | cbn [fst snd]; lia].
  - destruct (IH j ltac:(lia)) as (u & Hu & Hr). exists u. split; [right|]; assumption.
Qed.

Section NarrowFloat.

Variable T : OutputType.
Variable Input : list MLFloat16.
Variable Output : list Z.
Variable Scale : MLFloat16.
Variable ZeroPoint : Z.

Hypothesis Hlen : (length Input <= length Output)%nat.
Hypothesis Hmax : Z.of_nat (length Input) + block_size <= Int.int64_max.
Hypothesis Hdef :
  Forall (fun x => exists v, quantize_f16 T x (ToFloat Scale) ZeroPoint = Ok v) Input.

Local Notation N := (Z.of_nat (length Input)).
Local Notation tgt :=
  (map (fun x => quantize_trunc T x Scale ZeroPoint) Input
   ++ skipn (length Input) Output).
Local Notation body :=
  (fun (begin_idx : Z) (Output : list Z) =>
     x <- read Input begin_idx ;;
     v <- quantize_f16 T x (ToFloat Scale) ZeroPoint ;;
     write Output begin_idx v).

Lemma f16_body_ok i out :
  0 <= i < N -> length out = length Output ->
  exists v, nth_error tgt (Z.to_nat i) = Some v /\
            body i out = Ok (update out (Z.to_nat i) v).
Proof.
  intros Hi Hl.
  destruct (nth_error Input (Z.to_nat i)) as [x|] eqn:Ex.
  2:{ apply nth_error_None in Ex. lia. }
  pose proof (proj1 (Forall_forall _ _) Hdef x (nth_error_In _ _ Ex)) as [v Hv].
  exists v. split.
  - rewrite nth_error_app1 by (rewrite length_map; lia).
    rewrite (map_nth_error _ _ _ Ex). f_equal. symmetry.
    apply (quantize_f16_trunc T x Scale ZeroPoint v Hv).
  - cbn beta. rewrite (read_Ok Input i x) by (lia || assumption). cbn [bind].
    rewrite Hv. cbn [bind]. apply write_Ok. lia.
Qed.

Lemma f16_loop_spec k : forall i out,
  0 <= i -> i + Z.of_nat k <= N -> length out = length Output ->
  exists out',
    for_loop k i body out = Ok out' /\
    length out' = length Output /\
    (forall j, i <= Z.of_nat j < i + Z.of_nat k ->
               nth_error out' j = nth_error tgt j) /\
    (forall j, Z.of_nat j < i \/ i + Z.of_nat k <= Z.of_nat j ->
               nth_error out' j = nth_error out j).
Proof.
  induction k as [|k IH]; intros i out Hi Hk Hl.
  - exists out. cbn [for_loop]. repeat split; auto. intros j Hj. lia.
  - cbn [for_loop].
    destruct (f16_body_ok i out ltac:(lia) Hl) as (v & Hv & ->). cbn [bind].
    destruct (IH (i + 1) (update out (Z.to_nat i) v)) as (out' & E & L' & A & B);
      [lia | lia | rewrite length_update; exact Hl |].
    exists out'. split; [exact E|]. split; [exact L'|]. split.
    + intros j Hj. destruct (Z.eq_dec (Z.of_nat j) i) as [Ej|Nj].
      * rewrite B by lia. subst i. rewrite Nat2Z.id in *.
        rewrite nth_error_update_eq by lia. symmetry. exact Hv.
      * apply A. lia.
    + intros j Hj. rewrite B by lia. apply nth_error_update_neq. lia.
Qed.

Lemma f16_unit_spec b e out :
  0 <= b < e -> e <= (N + 127) / 128 -> length out = length Output ->
  exists out',
    f16_unit T Input N Scale ZeroPoint b e out = Ok out' /\
    length out' = length Output /\
    (forall j, b * 128 <= Z.of_nat j < Z.min N (e * 128) ->
               nth_error out' j = nth_error tgt j) /\
    (forall j, nth_error out' j = nth_error tgt j \/
               nth_error out' j = nth_error out j).
Proof.
  intros Hb He Hl. unfold block_size, Int.int64_max in Hmax.
  pose proof (ceil_div_bounds N 128 ltac:(lia) ltac:(lia)) as B.
  replace (N + 128 - 1) with (N + 127) in B by lia.
  assert (R : forall z, - 2 ^ 63 <= z <= 2 ^ 63 - 1 -> Int.int64_wrap z = z)
    by (intros; apply int64_wrap_small; unfold Int.int64_min, Int.int64_max; lia).
  unfold f16_unit, block_size, Int.mul64, Int.ptrdiff_of_size.
  rewrite (R N) by lia. rewrite (R (b * 128)) by nia. rewrite (R (e * 128)) by nia.
  assert (Hlt : b * 128 < N) by nia.
  replace (Z.min N (e * 128) <? b * 128) with false
    by (symmetry; apply Z.ltb_ge; lia).
  destruct (f16_loop_spec (Z.to_nat (Z.min N (e * 128) - b * 128)) (b * 128) out)
    as (out' & E & L' & A & C); [lia | lia | exact Hl |].
  exists out'. split; [exact E|]. split; [exact L'|]. split.
  - intros j Hj. apply A. lia.
  - intros j.
    destruct (Z.lt_ge_cases (Z.of_nat j) (b * 128)) as [H1|H1];
      [right; apply C; lia|].
    destruct (Z.lt_ge_cases (Z.of_nat j) (Z.min N (e * 128))) as [H2|H2];
      [left; apply A; lia | right; apply C; lia].
Qed.

Lemma f16_run_spec l : forall out,
  (forall u, In u l -> 0 <= fst u < snd u /\ snd u <= (N + 127) / 128) ->
  length out = length Output ->
  exists out',
    run_ranges l (f16_unit T Input N Scale ZeroPoint) out = Ok out' /\
    length out' = length Output /\
    (forall u j, In u l -> fst u * 128 <= Z.of_nat j < Z.min N (snd u * 128) ->
                 nth_error out' j = nth_error tgt j) /\
    (forall j, nth_error out' j = nth_error tgt j \/
               nth_error out' j = nth_error out j).
Proof.
  induction l as [|[b e] l IH]; intros out Hin Hl.
  - exists out. cbn [run_ranges]. repeat split; auto. intros u j [].
  - cbn [run_ranges].
    pose proof (Hin (b, e) (or_introl eq_refl)) as Hbe. cbn [fst snd] in Hbe.
    destruct (f16_unit_spec b e out ltac:(lia) ltac:(lia) Hl) as (out1 & E1 & L1 & A1 & B1).
    rewrite E1. cbn [bind].
    destruct (IH out1) as (out' & E & L' & A & B);
      [intros u Hu; apply Hin; right; exact Hu | exact L1 |].
    exists out'. split; [exact E|]. split; [exact L'|]. split.
    + intros u j [<-|Hu] Hj.
      * cbn [fst snd] in Hj. destruct (B j) as [Bj|Bj]; [exact Bj|].
        rewrite Bj. apply A1. exact Hj.
      * apply (A u j Hu Hj).
    + intros j. destruct (B j) as [Bj|Bj]; [left; exact Bj|].
      rewrite Bj. apply B1.
Qed.

Lemma ParQuantizeLinearStd_f16_spec sched :
  valid_scheduler sched ->
  ParQuantizeLinearStd_f16 T Input Output N Scale ZeroPoint sched = Ok tgt.
Proof.
  intros Hs. unfold ParQuantizeLinearStd_f16.
  rewrite num_blocks_of_small by lia.
  unfold TryParallelFor.
  pose proof (ceil_div_bounds N 128 ltac:(lia) ltac:(lia)) as B.
  replace (N + 128 - 1) with (N + 127) in B by lia.
  destruct (Z.leb_spec ((N + 127) / 128) 0) as [Hz|Hp].
  - assert (length Input = 0%nat) by lia.
    destruct Input; [|discriminate]. reflexivity.
  - destruct (Hs _ Hp) as (l0 & Hchain & Hperm).
    pose proof (chain_bounds _ _ _ Hchain) as [_ Hb0].
    destruct (f16_run_spec (sched ((N + 127) / 128)) Output) as (out' & E & L' & A & C).
    + intros u Hu. specialize (Hb0 u (Permutation_in u (Permutation_sym Hperm) Hu)). lia.
    + reflexivity.
    + rewrite E. f_equal. apply nth_error_ext. intros j.
      destruct (Z.lt_ge_cases (Z.of_nat j) N) as [Hj|Hj].
      * destruct (chain_cover _ _ _ Hchain (Z.of_nat j / 128)) as (u & Hu & Hr).
        { split; [apply Z.div_pos; lia|].
          apply Z.div_lt_upper_bound; lia. }
        apply (A u j (Permutation_in u Hperm Hu)).
        pose proof (Z.div_mod (Z.of_nat j) 128 ltac:(lia)) as D.
        pose proof (Z.mod_pos_bound (Z.of_nat j) 128 ltac:(lia)) as M.
        lia.
      * destruct (C j) as [Cj|Cj]; [exact Cj|]. rewrite Cj.
        rewrite nth_error_app2 by (rewrite length_map; lia).
        rewrite length_map, nth_error_skipn. f_equal. lia.
Qed.

End NarrowFloat.

(** X15. On inputs for which the conversion to [int32_t] and the addition
    of the zero point are defined for every element, the [MLFloat16]
    overload widens every element and the scale to a float (the value is
    kept) and writes
    [clamp(trunc(Input[i] / scale) + zero_point, type_min, type_max)] for
    every [i], whatever the partition, where [trunc] discards the fraction:
    1.75 and -1.75 give 1 and -1, where rounding to nearest gives 2. *)
Theorem f16_quantizes_by_truncation (T : OutputType) (Input : list MLFloat16)
  (Output : list Z) (Scale : MLFloat16) (ZeroPoint : Z) (sched : scheduler) :
  valid_scheduler sched ->
  (length Input <= length Output)%nat ->
  Z.of_nat (length Input) + block_size <= Int.int64_max ->
  Forall (fun x => exists v, quantize_f16 T x (ToFloat Scale) ZeroPoint = Ok v)
         Input ->
  ParQuantizeLinearStd_f16 T Input Output (Z.of_nat (length Input)) Scale
    ZeroPoint sched
  = Ok (map (fun x => quantize_trunc T x Scale ZeroPoint) Input
        ++ skipn (length Input) Output) /\
  (forall h, F16.valid h = true -> (F32.to_Q (ToFloat h) == F32.to_Q h)%Q) /\
  quantize_f16 I8 (F16.of_dyadic 7 (-2)) (ToFloat (F16.of_dyadic 1 0)) 0 = Ok 1 /\
  quantize_f16 I8 (F16.of_dyadic (-7) (-2)) (ToFloat (F16.of_dyadic 1 0)) 0
    = Ok (-1) /\
  F32.nearbyintf (F32.div (ToFloat (F16.of_dyadic 7 (-2)))
                          (ToFloat (F16.of_dyadic 1 0))) = F32.of_Z 2.
Proof.
  intros Hs Hlen Hmax Hdef. split.
  - apply ParQuantizeLinearStd_f16_spec; assumption.
  - split; [exact ToFloat_exact|]. repeat split; vm_compute; reflexivity.
Qed.

Lemma f16_quantizes_by_truncation_witness :
  valid_scheduler reverse_scheduler /\
  (length sample_f16 <= length [0; 0; 0; 9])%nat /\
  Z.of_nat (length sample_f16) + block_size <= Int.int64_max /\
  Forall (fun x => exists v, quantize_f16 I8 x (ToFloat f16_one) 0 = Ok v)
         sample_f16 /\
  ParQuantizeLinearStd_f16 I8 sample_f16 [0; 0; 0; 9]
    (Z.of_nat (length sample_f16)) f16_one 0 reverse_scheduler
  = Ok (map (fun x => quantize_trunc I8 x f16_one 0) sample_f16
        ++ skipn (length sample_f16) [0; 0; 0; 9]) /\
  (forall h, F16.valid h = true -> (F32.to_Q (ToFloat h) == F32.to_Q h)%Q) /\
  quantize_f16 I8 (F16.of_dyadic 7 (-2)) (ToFloat (F16.of_dyadic 1 0)) 0 = Ok 1 /\
  quantize_f16 I8 (F16.of_dyadic (-7) (-2)) (ToFloat (F16.of_dyadic 1 0)) 0
    = Ok (-1) /\
  F32.nearbyintf (F32.div (ToFloat (F16.of_dyadic 7 (-2)))
                          (ToFloat (F16.of_dyadic 1 0))) = F32.of_Z 2.
Proof.
  assert (D : Forall (fun x => exists v, quantize_f16 I8 x (ToFloat f16_one) 0 = Ok v)
                     sample_f16).
  { repeat constructor; eexists; vm_compute; reflexivity. }
  split; [exact reverse_scheduler_valid|].
  split; [vm_compute; lia|].
  split; [vm_compute; discriminate|].
  split; [exact D|].
  apply (f16_quantizes_by_truncation I8 sample_f16 [0; 0; 0; 9] f16_one 0
           reverse_scheduler).
  - exact reverse_scheduler_valid.
  - vm_compute. lia.
  - vm_compute. discriminate.
  - exact D.
Defined.

(** C10. The clamp of lines 253-254 comes after the conversion of line 252:
    for the largest binary16, 65504, and the scale 2^-24, both valid, the
    quotient is 65504 * 2^24 = 1098974756864, beyond [int32_t], so that
    [static_cast<int32_t>] is undefined and the call has no defined
    result, where the truncation formula gives 127, the largest [int8_t].
    An infinity with the scale 1.0 does the same. *)
Theorem f16_cast_out_of_range :
  F16.valid (F16.of_dyadic 2047 5) = true /\
  F16.valid (F16.of_dyadic 1 (-24)) = true /\
  F32.trunc (F32.div (ToFloat (F16.of_dyadic 2047 5))
                     (ToFloat (F16.of_dyadic 1 (-24))))
    = Some 1098974756864 /\
  Int.int32_max < 1098974756864 /\
  ParQuantizeLinearStd_f16 I8 [F16.of_dyadic 2047 5] [0] 1
    (F16.of_dyadic 1 (-24)) 0 inline_scheduler = Err UndefinedCast /\
  quantize_trunc I8 (F16.of_dyadic 2047 5) (F16.of_dyadic 1 (-24)) 0 = 127 /\
  F16.valid (S754_infinity false) = true /\
  ParQuantizeLinearStd_f16 I8 [S754_infinity false] [0] 1 f16_one 0
    inline_scheduler = Err UndefinedCast.
Proof. repeat split; vm_compute; reflexivity. Qed.

(** * Further properties of the code *)

(** ** Packed bytes *)

Lemma testbit_15 n : 0 <= n -> Z.testbit 15 n = (n <? 4).
Proof.
  intros Hn. change 15 with (Z.ones 4). rewrite Z.testbit_ones_nonneg by lia.
  reflexivity.
Qed.

Lemma testbit_240 n : 0 <= n -> Z.testbit 240 n = (4 <=? n) && (n <? 8).
Proof.
  intros Hn. change 240 with (Z.shiftl (Z.ones 4) 4).
  destruct (Z.leb_spec 4 n) as [H|H].
  - rewrite Z.shiftl_spec by lia. rewrite Z.testbit_ones_nonneg by lia.
    destruct (Z.ltb_spec (n - 4) 4), (Z.ltb_spec n 8); try reflexivity; lia.
  - rewrite Z.shiftl_spec_low by lia. reflexivity.
Qed.

Lemma SetElem_0 b v : SetElem b 0 v = Z.lor (Z.land b 240) (Z.land v 15).
Proof. reflexivity. Qed.

Lemma SetElem_1 b v :
  SetElem b 1 v = Z.lor (Z.land b 15) (Z.shiftl (Z.land v 15) 4).
Proof. reflexivity. Qed.

Ltac bits :=
  apply Z.bits_inj'; intros n Hn;
  repeat (rewrite ?Z.lor_spec, ?Z.land_spec, ?testbit_15, ?testbit_240 by lia);
  destruct (Z.ltb_spec n 4); destruct (Z.leb_spec 4 n); destruct (Z.ltb_spec n 8);
  try lia;
  rewrite ?Z.shiftl_spec_low, ?Z.shiftl_spec by lia;
  repeat (rewrite ?Z.lor_spec, ?Z.land_spec, ?testbit_15, ?testbit_240 by lia);
  repeat match goal with
         | |- context [?a <? 4] => destruct (Z.ltb_spec a 4); try lia
         | |- context [4 <=? ?a] => destruct (Z.leb_spec 4 a); try lia
         | |- context [?a <? 8] => destruct (Z.ltb_spec a 8); try lia
         end;
  cbn [andb orb];
  rewrite ?andb_false_r, ?andb_true_r, ?orb_false_r, ?orb_false_l, ?andb_false_l;
  try reflexivity.

(** Setting the two lanes of a byte in either order gives the same byte. *)
Lemma SetElem_comm b v w :
  SetElem (SetElem b 0 v) 1 w = SetElem (SetElem b 1 w) 0 v.
Proof.
  rewrite !SetElem_0, !SetElem_1. bits.
  all: try (rewrite orb_comm; reflexivity).
Qed.

Lemma lane_land_same b l v :
  l = 0 \/ l = 1 ->
  Z.land (Z.shiftr (SetElem b l v) (4 * l)) 15 = Z.land v 15.
Proof.
  intros [-> | ->]; [rewrite SetElem_0 | rewrite SetElem_1];
    apply Z.bits_inj'; intros n Hn.
  - change (4 * 0) with 0. rewrite Z.shiftr_0_r.
    rewrite !Z.land_spec, Z.lor_spec, !Z.land_spec, testbit_15, testbit_240 by lia.
    destruct (Z.ltb_spec n 4) as [H|H]; rewrite ?andb_false_r; try reflexivity.
    replace (4 <=? n) with false by (symmetry; apply Z.leb_gt; lia).
    cbn [andb]. rewrite andb_false_r, !andb_true_r. reflexivity.
  - change (4 * 1) with 4.
    rewrite !Z.land_spec, Z.shiftr_spec, Z.lor_spec, !Z.land_spec, !testbit_15 by lia.
    destruct (Z.ltb_spec n 4) as [H|H]; rewrite ?andb_false_r; try reflexivity.
    rewrite Z.shiftl_spec by lia. replace (n + 4 - 4) with n by lia.
    rewrite Z.land_spec, testbit_15 by lia.
    replace (n + 4 <? 4) with false by (symmetry; apply Z.ltb_ge; lia).
    replace (n <? 4) with true by (symmetry; apply Z.ltb_lt; lia).
    rewrite andb_false_r, !andb_true_r. reflexivity.
Qed.

Lemma lane_land_other b l v :
  l = 0 \/ l = 1 ->
  Z.land (Z.shiftr (SetElem b l v) (4 * (1 - l))) 15
  = Z.land (Z.shiftr b (4 * (1 - l))) 15.
Proof.
  intros [-> | ->]; [rewrite SetElem_0 | rewrite SetElem_1];
    apply Z.bits_inj'; intros n Hn.
  - change (4 * (1 - 0)) with 4.
    rewrite !Z.land_spec, !Z.shiftr_spec, Z.lor_spec, !Z.land_spec, !testbit_15, testbit_240 by lia.
    destruct (Z.ltb_spec n 4) as [H|H]; rewrite ?andb_false_r; try reflexivity.
    replace (4 <=? n + 4) with true by (symmetry; apply Z.leb_le; lia).
    replace (n + 4 <? 8) with true by (symmetry; apply Z.ltb_lt; lia).
    replace (n + 4 <? 4) with false by (symmetry; apply Z.ltb_ge; lia).
    cbn [andb]. rewrite !andb_true_r, andb_false_r, orb_false_r. reflexivity.
  - change (4 * (1 - 1)) with 0. rewrite !Z.shiftr_0_r.
    rewrite !Z.land_spec, Z.lor_spec, !Z.land_spec, !testbit_15 by lia.
    destruct (Z.ltb_spec n 4) as [H|H]; rewrite ?andb_false_r; try reflexivity.
    rewrite Z.shiftl_spec_low by lia.
    rewrite !andb_true_r, orb_false_r. reflexivity.
Qed.


(** A lane gives back the value that was set, when the value is one of the
    type; the other lane is as it was. *)
Lemma GetElem_SetElem_same T b l v :
  l = 0 \/ l = 1 -> min_val T <= v <= max_val T ->
  GetElem T (SetElem b l v) l = v.
Proof.
  intros Hl Hv. unfold GetElem. rewrite lane_land_same by exact Hl.
  change 15 with (Z.ones 4). rewrite Z.land_ones by lia. change (2 ^ 4) with 16.
  destruct T; cbn [min_val max_val] in Hv.
  - destruct (Z.ltb_spec (v mod 16) 8) as [H|H].
    + destruct (Z.le_gt_cases 0 v) as [P|P].
      * apply Z.mod_small. lia.
      * exfalso. replace v with ((v + 16) + (-1) * 16) in H by lia.
        rewrite Z.mod_add in H by lia. rewrite Z.mod_small in H by lia. lia.
    + destruct (Z.le_gt_cases 0 v) as [P|P].
      * rewrite Z.mod_small in H by lia. lia.
      * replace v with ((v + 16) + (-1) * 16) at 1 by lia.
        rewrite Z.mod_add by lia. rewrite Z.mod_small by lia. lia.
  - apply Z.mod_small. lia.
Qed.

Lemma GetElem_SetElem_other T b l v :
  l = 0 \/ l = 1 -> GetElem T (SetElem b l v) (1 - l) = GetElem T b (1 - l).
Proof.
  intros Hl. unfold GetElem. rewrite lane_land_other by exact Hl. reflexivity.
Qed.

Lemma quantize_int4_range T x Scale zp v :
  quantize_int4 T x Scale zp = Ok v -> min_val T <= v <= max_val T.
Proof.
  unfold quantize_int4.
  destruct (F32.static_cast_int32 _); cbn [bind]; [|discriminate].
  destruct (Int.add32 _ _); cbn [bind]; [|discriminate].
  intros H. injection H as <-. destruct T; cbn [min_val max_val]; lia.
Qed.

(** ** Nibble writes *)

Lemma nth_nth_error {A} (l : list A) n d :
  nth n l d = match nth_error l n with Some x => x | None => d end.
Proof. revert n; induction l as [|a l IH]; intros [|n]; cbn; auto. Qed.

Lemma nth_update_eq (buf : list Z) n a :
  (n < length buf)%nat -> nth n (update buf n a) 0 = a.
Proof. intros H. rewrite nth_nth_error, nth_error_update_eq by exact H. reflexivity. Qed.

Lemma nth_update_neq (buf : list Z) n a j :
  j <> n -> nth j (update buf n a) 0 = nth j buf 0.
Proof.
  intros H. rewrite !nth_nth_error, nth_error_update_neq by exact H. reflexivity.
Qed.

Lemma update_beyond {A} (buf : list A) : forall n a,
  (length buf <= n)%nat -> update buf n a = buf.
Proof.
  induction buf as [|h t IH]; intros [|n] a H; cbn in *; try reflexivity; [lia|].
  f_equal. apply IH. lia.
Qed.

Lemma length_write_nibble v i buf : length (write_nibble v i buf) = length buf.
Proof. apply length_update. Qed.

Lemma length_write_all v l : forall buf, length (write_all v l buf) = length buf.
Proof.
  induction l as [|j l IH]; intros buf; [reflexivity|].
  cbn [write_all fold_left]. fold (write_all v l (write_nibble v j buf)).
  rewrite IH. apply length_write_nibble.
Qed.

Lemma write_all_app v l1 l2 buf :
  write_all v (l1 ++ l2) buf = write_all v l2 (write_all v l1 buf).
Proof. apply fold_left_app. Qed.

Lemma lane_cases i : i mod 2 = 0 \/ i mod 2 = 1.
Proof. pose proof (Z.mod_pos_bound i 2 ltac:(lia)). lia. Qed.

Lemma get_nibble_write_same T v i buf :
  0 <= i < 2 * Z.of_nat (length buf) -> min_val T <= v i <= max_val T ->
  get_nibble T (write_nibble v i buf) i = v i.
Proof.
  intros Hi Hv. unfold get_nibble, write_nibble.
  assert (0 <= i / 2 < Z.of_nat (length buf))
    by (split; [apply Z.div_pos; lia | apply Z.div_lt_upper_bound; lia]).
  rewrite nth_update_eq by lia.
  apply GetElem_SetElem_same; [apply lane_cases | exact Hv].
Qed.

Lemma get_nibble_write_other T v i j buf :
  0 <= i -> 0 <= j -> i <> j ->
  get_nibble T (write_nibble v j buf) i = get_nibble T buf i.
Proof.
  intros Hi Hj Hne. unfold get_nibble, write_nibble.
  destruct (Z.eq_dec (i / 2) (j / 2)) as [E|E].
  - rewrite E. destruct (lt_dec (Z.to_nat (j / 2)) (length buf)) as [L|L].
    + rewrite nth_update_eq by exact L.
      pose proof (Z.div_mod i 2 ltac:(lia)). pose proof (Z.div_mod j 2 ltac:(lia)).
      assert (El : i mod 2 = 1 - j mod 2)
        by (destruct (lane_cases i), (lane_cases j); lia).
      rewrite El. apply GetElem_SetElem_other. apply lane_cases.
    + rewrite update_beyond by lia. reflexivity.
  - rewrite nth_update_neq; [reflexivity|].
    assert (0 <= i / 2) by (apply Z.div_pos; lia).
    assert (0 <= j / 2) by (apply Z.div_pos; lia). lia.
Qed.

(** After the values of the indices of [l] were stored, in any order and
    any number of times, the nibbles of [l] hold their values and the others
    are as they were. *)
Lemma write_all_nibbles T v l : forall buf,
  (forall j, In j l ->
     0 <= j < 2 * Z.of_nat (length buf) /\ min_val T <= v j <= max_val T) ->
  forall i, 0 <= i ->
    get_nibble T (write_all v l buf) i
    = if in_dec Z.eq_dec i l then v i else get_nibble T buf i.
Proof.
  induction l as [|j l IH]; intros buf Hl i Hi; [reflexivity|].
  cbn [write_all fold_left]. fold (write_all v l (write_nibble v j buf)).
  rewrite IH; [| | exact Hi].
  2:{ intros k Hk. rewrite length_write_nibble. apply Hl. right. exact Hk. }
  destruct (in_dec Z.eq_dec i l) as [I|I];
    destruct (in_dec Z.eq_dec i (j :: l)) as [J|J]; try reflexivity.
  - exfalso. apply J. right. exact I.
  - destruct J as [<-|J]; [|contradiction].
    apply get_nibble_write_same; apply (Hl j); left; reflexivity.
  - apply get_nibble_write_other; [exact Hi | apply (Hl j); left; reflexivity |].
    intros ->. apply J. left. reflexivity.
Qed.

Lemma idx_range_S lo n : idx_range lo (S n) = lo :: idx_range (lo + 1) n.
Proof.
  unfold idx_range. cbn [seq map]. rewrite <- seq_shift, map_map. f_equal; [lia|].
  apply map_ext. intros k. lia.
Qed.

Lemma In_idx_range lo n i : In i (idx_range lo n) <-> lo <= i < lo + Z.of_nat n.
Proof.
  unfold idx_range. rewrite in_map_iff. split.
  - intros (k & <- & Hk). apply in_seq in Hk. lia.
  - intros H. exists (Z.to_nat (i - lo)). split; [lia|]. apply in_seq. lia.
Qed.

(** The read-modify-write of one nibble (lines 171-172 and 186-187, and the
    kernel's store). *)
Lemma nibble_store v i out :
  0 <= i < 2 * Z.of_nat (length out) ->
  exists byte,
    read out (i / 2) = Ok byte /\
    write out (i / 2) (SetElem byte (i mod 2) (v i)) = Ok (write_nibble v i out).
Proof.
  intros Hi.
  assert (H : 0 <= i / 2 < Z.of_nat (length out))
    by (split; [apply Z.div_pos; lia | apply Z.div_lt_upper_bound; lia]).
  destruct (nth_error out (Z.to_nat (i / 2))) as [byte|] eqn:E.
  2:{ apply nth_error_None in E. lia. }
  exists byte. split; [apply read_Ok; [lia | exact E]|].
  rewrite write_Ok by exact H. unfold write_nibble.
  rewrite nth_nth_error, E. reflexivity.
Qed.

Lemma kernel_loop_writes T Scale zp v ob block : forall n out,
  0 <= ob -> 0 <= n ->
  2 * ob + n + Z.of_nat (length block) <= 2 * Z.of_nat (length out) ->
  (forall k x, nth_error block k = Some x ->
     quantize_int4 T x Scale zp = Ok (v (2 * ob + n + Z.of_nat k))) ->
  MlasQuantizeLinear4_loop T block n out ob Scale zp
  = Ok (write_all v (idx_range (2 * ob + n) (length block)) out).
Proof.
  induction block as [|x rest IH]; intros n out Hob Hn Hlen Hq; [reflexivity|].
  cbn [MlasQuantizeLinear4_loop length]. rewrite idx_range_S.
  rewrite (Hq 0%nat x eq_refl). cbn [bind].
  replace (2 * ob + n + Z.of_nat 0) with (2 * ob + n) by lia.
  cbn [length] in Hlen.
  destruct (nibble_store v (2 * ob + n) out ltac:(lia)) as (byte & Er & Ew).
  assert (E1 : ob + Z.shiftr n 1 = (2 * ob + n) / 2).
  { rewrite shiftr_1_div. replace (2 * ob + n) with (n + ob * 2) by lia.
    rewrite Z.div_add by lia. lia. }
  assert (E2 : Z.land n 1 = (2 * ob + n) mod 2).
  { rewrite land_1_mod. replace (2 * ob + n) with (n + ob * 2) by lia.
    rewrite Z.mod_add by lia. reflexivity. }
  rewrite E1, E2, Er. cbn [bind]. rewrite Ew. cbn [bind].
  rewrite IH; [| exact Hob | lia | rewrite length_write_nibble; lia |].
  - cbn [write_all fold_left]. replace (2 * ob + (n + 1)) with (2 * ob + n + 1) by lia.
    reflexivity.
  - intros k y Hk. rewrite (Hq (S k) y Hk). do 2 f_equal. lia.
Qed.

Lemma update_twice {A} (buf : list A) : forall p a b,
  update (update buf p a) p b = update buf p b.
Proof.
  induction buf as [|h t IH]; intros [|p] a b; cbn; try reflexivity.
  f_equal. apply IH.
Qed.

Lemma update_swap {A} (buf : list A) : forall p q a b,
  p <> q -> update (update buf p a) q b = update (update buf q b) p a.
Proof.
  induction buf as [|h t IH]; intros [|p] [|q] a b H; cbn; try reflexivity;
    try congruence.
  f_equal. apply IH. congruence.
Qed.

(** Two stores to different nibbles can be exchanged. *)
Lemma write_nibble_comm v i j buf :
  0 <= i -> 0 <= j -> i <> j ->
  write_nibble v i (write_nibble v j buf) = write_nibble v j (write_nibble v i buf).
Proof.
  intros Hi Hj Hne. unfold write_nibble.
  destruct (Z.eq_dec (i / 2) (j / 2)) as [E|E].
  - rewrite E. destruct (lt_dec (Z.to_nat (j / 2)) (length buf)) as [L|L].
    + rewrite !nth_update_eq by exact L. rewrite !update_twice. f_equal.
      pose proof (Z.div_mod i 2 ltac:(lia)). pose proof (Z.div_mod j 2 ltac:(lia)).
      destruct (lane_cases i) as [Li|Li], (lane_cases j) as [Lj|Lj];
        rewrite Li, Lj; try lia.
      * symmetry. apply SetElem_comm.
      * apply SetElem_comm.
    + rewrite !(update_beyond buf) by lia. reflexivity.
  - assert (0 <= i / 2) by (apply Z.div_pos; lia).
    assert (0 <= j / 2) by (apply Z.div_pos; lia).
    rewrite !nth_update_neq by lia. apply update_swap. lia.
Qed.

(** The order of the stores to distinct nibbles does not matter. *)
Lemma write_all_perm v l1 l2 :
  Permutation l1 l2 -> NoDup l1 -> (forall i, In i l1 -> 0 <= i) ->
  forall buf, write_all v l1 buf = write_all v l2 buf.
Proof.
  induction 1 as [|x l l' Hp IH|x y l|l l' l'' Hp1 IH1 Hp2 IH2];
    intros Hnd Hpos buf.
  - reflexivity.
  - cbn [write_all fold_left]. apply IH.
    + apply NoDup_cons_iff in Hnd. apply Hnd.
    + intros i Hi. apply Hpos. right. exact Hi.
  - cbn [write_all fold_left]. f_equal. apply write_nibble_comm.
    + apply Hpos. right. left. reflexivity.
    + apply Hpos. left. reflexivity.
    + apply NoDup_cons_iff in Hnd. destruct Hnd as [Hn _].
      intros ->. apply Hn. left. reflexivity.
  - rewrite IH1 by assumption. apply IH2.
    + apply (Permutation_NoDup Hp1 Hnd).
    + intros i Hi. apply Hpos. apply (Permutation_in _ (Permutation_sym Hp1) Hi).
Qed.

Lemma NoDup_idx_range n : forall lo, NoDup (idx_range lo n).
Proof.
  induction n as [|n IH]; intros lo; [constructor|].
  rewrite idx_range_S. constructor; [|apply IH].
  rewrite In_idx_range. lia.
Qed.

Lemma nth_error_block_of {A} (buf : list A) lo hi k x :
  0 <= lo -> nth_error (block_of buf lo hi) k = Some x ->
  nth_error buf (Z.to_nat lo + k) = Some x /\ Z.of_nat k < hi - lo.
Proof.
  intros Hlo H. unfold block_of in H.
  destruct (Nat.lt_ge_cases k (Z.to_nat (hi - lo))) as [L|L].
  - rewrite nth_error_firstn in H.
    replace (k <? Z.to_nat (hi - lo))%nat with true in H
      by (symmetry; apply Nat.ltb_lt; exact L).
    rewrite nth_error_skipn in H. split; [exact H | lia].
  - assert (N : nth_error (firstn (Z.to_nat (hi - lo)) (skipn (Z.to_nat lo) buf)) k = None).
    { apply nth_error_None. rewrite length_firstn. lia. }
    congruence.
Qed.

Section PackedOutput.

Variable T : Int4Type.
Variable Input : list float.
Variable Scale : float.
Variable ZeroPoint : Z.
Variables out_start out_end : Z.

Hypothesis Hrange : 0 <= out_start <= out_end.
Hypothesis Hmax : out_end + block_size <= Int.int64_max.
Hypothesis Hin : out_end - out_start <= Z.of_nat (length Input).
Hypothesis Hdef :
  Forall (fun x => exists v, quantize_int4 T x Scale (GetElem T ZeroPoint 0) = Ok v)
         (firstn (Z.to_nat (out_end - out_start)) Input).

Local Notation zp := (GetElem T ZeroPoint 0).
Local Notation val := (quant_at T Input Scale zp out_start).

Lemma quant_at_Ok k x :
  nth_error Input k = Some x -> Z.of_nat k < out_end - out_start ->
  quantize_int4 T x Scale zp = Ok (val (out_start + Z.of_nat k)).
Proof.
  intros Hk Hlt. unfold quant_at.
  replace (Z.to_nat (out_start + Z.of_nat k - out_start)) with k by lia.
  rewrite Hk.
  assert (I : In x (firstn (Z.to_nat (out_end - out_start)) Input)).
  { apply (nth_error_In _ k). rewrite nth_error_firstn.
    replace (k <? Z.to_nat (out_end - out_start))%nat with true
      by (symmetry; apply Nat.ltb_lt; lia).
    exact Hk. }
  destruct (proj1 (Forall_forall _ _) Hdef x I) as [v Hv]. rewrite Hv. reflexivity.
Qed.

Lemma quant_at_range i :
  out_start <= i < out_end -> min_val T <= val i <= max_val T.
Proof.
  intros Hi.
  destruct (nth_error Input (Z.to_nat (i - out_start))) as [x|] eqn:E.
  2:{ apply nth_error_None in E. lia. }
  pose proof (quant_at_Ok _ x E ltac:(lia)) as Q.
  replace (out_start + Z.of_nat (Z.to_nat (i - out_start))) with i in Q by lia.
  apply (quantize_int4_range _ _ _ _ _ Q).
Qed.

(** Lines 164-176. *)
Lemma quantize_first_writes out :
  out_start < out_end -> out_end <= 2 * Z.of_nat (length out) ->
  quantize_first T Input out out_start 0 Scale ZeroPoint
  = Ok (write_all val (if out_start mod 2 =? 0 then [] else [out_start]) out,
        out_start + out_start mod 2, out_start mod 2).
Proof.
  intros Hlt Hout. unfold quantize_first. rewrite land_1_mod.
  destruct (Z.eqb_spec (out_start mod 2) 0) as [E|E]; cbn [negb].
  - rewrite E, Z.add_0_r. reflexivity.
  - assert (E1 : out_start mod 2 = 1) by (destruct (lane_cases out_start); lia).
    destruct (nth_error Input 0) as [x|] eqn:Ex.
    2:{ apply nth_error_None in Ex. lia. }
    rewrite (read_Ok Input 0 x) by (lia || exact Ex). cbn [bind].
    rewrite (quant_at_Ok 0 x Ex) by lia. cbn [bind].
    replace (out_start + Z.of_nat 0) with out_start by lia.
    destruct (nibble_store val out_start out ltac:(lia)) as (byte & Er & Ew).
    rewrite shiftr_1_div, Er. cbn [bind]. rewrite E1 in Ew. rewrite Ew. cbn [bind].
    unfold Int.size_add. rewrite !size_wrap_small
      by (unfold Int.size_max, Int.int64_max, block_size in *; lia).
    rewrite E1. reflexivity.
Qed.

(** Lines 179-191. *)
Lemma quantize_last_writes out :
  out_start < out_end -> out_end <= 2 * Z.of_nat (length out) ->
  quantize_last T Input out out_end (Int.size_sub out_end out_start) Scale ZeroPoint
  = Ok (write_all val (if out_end mod 2 =? 0 then [] else [out_end - 1]) out,
        out_end - out_end mod 2, out_end - out_start - out_end mod 2).
Proof.
  intros Hlt Hout. unfold quantize_last. rewrite land_1_mod.
  unfold Int.size_sub. rewrite (size_wrap_small (out_end - out_start))
    by (unfold Int.size_max, Int.int64_max, block_size in *; lia).
  destruct (Z.eqb_spec (out_end mod 2) 0) as [E|E]; cbn [negb].
  - rewrite E, !Z.sub_0_r. reflexivity.
  - assert (E1 : out_end mod 2 = 1) by (destruct (lane_cases out_end); lia).
    rewrite !size_wrap_small
      by (unfold Int.size_max, Int.int64_max, block_size in *; lia).
    destruct (nth_error Input (Z.to_nat (out_end - out_start - 1))) as [x|] eqn:Ex.
    2:{ apply nth_error_None in Ex. lia. }
    rewrite (read_Ok Input _ x) by (lia || exact Ex). cbn [bind].
    rewrite (quant_at_Ok _ x Ex) by lia. cbn [bind].
    replace (out_start + Z.of_nat (Z.to_nat (out_end - out_start - 1)))
      with (out_end - 1) by lia.
    destruct (nibble_store val (out_end - 1) out ltac:(lia)) as (byte & Er & Ew).
    assert (E0 : (out_end - 1) mod 2 = 0).
    { pose proof (Z.div_mod out_end 2 ltac:(lia)) as D.
      replace (out_end - 1) with (0 + (out_end / 2) * 2) by lia.
      rewrite Z.mod_add by lia. reflexivity. }
    rewrite shiftr_1_div, Er. cbn [bind]. rewrite E0 in Ew. rewrite Ew. cbn [bind].
    rewrite E1. reflexivity.
Qed.

Local Notation s' := (out_start + out_start mod 2).
Local Notation e' := (out_end - out_end mod 2).
Local Notation N := (e' - s').
Local Notation unit_indices :=
  (fun u : Z * Z =>
     idx_range (s' + fst u * 128)
               (Z.to_nat (Z.min N (snd u * 128) - fst u * 128))).

Lemma cursors_even : s' mod 2 = 0 /\ e' mod 2 = 0.
Proof.
  pose proof (Z.div_mod out_start 2 ltac:(lia)) as D1.
  pose proof (Z.div_mod out_end 2 ltac:(lia)) as D2.
  destruct (lane_cases out_start) as [A|A], (lane_cases out_end) as [B|B];
    rewrite ?A, ?B; split.
  all: try (rewrite Z.add_0_r; exact A).
  all: try (rewrite Z.sub_0_r; exact B).
  all: try (replace (out_start + 1) with (0 + (out_start / 2 + 1) * 2) by lia;
            rewrite Z.mod_add by lia; reflexivity).
  all: try (replace (out_end - 1) with (0 + (out_end / 2) * 2) by lia;
            rewrite Z.mod_add by lia; reflexivity).
Qed.

(** Lines 213-224. *)
Lemma par4_unit_writes b e out :
  s' < e' -> 0 <= b < e -> e <= (N + 127) / 128 ->
  out_end <= 2 * Z.of_nat (length out) ->
  par4_unit T Input N (out_start mod 2) s' Scale ZeroPoint b e out
  = Ok (write_all val (unit_indices (b, e)) out).
Proof.
  intros Hlt Hb He Hout. destruct cursors_even as [Es Ee].
  pose proof (lane_cases out_start) as Ls. pose proof (lane_cases out_end) as Le.
  assert (EN : N mod 2 = 0).
  { pose proof (Z.div_mod s' 2 ltac:(lia)). pose proof (Z.div_mod e' 2 ltac:(lia)).
    replace N with (0 + (e' / 2 - s' / 2) * 2) by lia.
    rewrite Z.mod_add by lia. reflexivity. }
  destruct (par4_span_small N (out_start mod 2) s' b e) as (Esp & Hc & Hc2);
    try lia.
  unfold par4_unit. rewrite Esp. cbn [fst snd].
  set (c := Z.min N (e * 128) - b * 128) in *.
  unfold Int.size_of_ptrdiff. rewrite (size_wrap_small c)
    by (unfold Int.size_max, Int.int64_max, block_size in *; lia).
  assert (Hb128 : b * 128 < N).
  { pose proof (ceil_div_bounds N 128 ltac:(lia) ltac:(lia)). nia. }
  unfold MlasQuantizeLinear4.
  rewrite slice_Ok by lia. cbn [bind].
  assert (Lb : length (block_of Input (b * 128 + out_start mod 2)
                                (b * 128 + out_start mod 2 + c))
               = Z.to_nat c).
  { unfold block_of. rewrite length_firstn, length_skipn. lia. }
  rewrite shiftr_1_div.
  assert (E2 : 2 * ((b * 128 + s') / 2) = b * 128 + s').
  { pose proof (Z.div_mod (b * 128 + s') 2 ltac:(lia)) as D.
    replace (b * 128 + s') with (s' + (b * 64) * 2) in D at 3 by lia.
    rewrite Z.mod_add in D by lia. lia. }
  rewrite (kernel_loop_writes T Scale zp val).
  - rewrite Lb. cbn [fst snd]. do 3 f_equal. lia.
  - apply Z.div_pos; lia.
  - lia.
  - rewrite Lb. lia.
  - intros k x Hk. apply nth_error_block_of in Hk; [|lia]. destruct Hk as [Hk Hkc].
    rewrite (quant_at_Ok _ x Hk) by lia. do 2 f_equal. lia.
Qed.

Lemma run_units_writes l : forall out,
  s' < e' ->
  (forall u, In u l -> 0 <= fst u < snd u /\ snd u <= (N + 127) / 128) ->
  out_end <= 2 * Z.of_nat (length out) ->
  run_ranges l (par4_unit T Input N (out_start mod 2) s' Scale ZeroPoint) out
  = Ok (write_all val (flat_map unit_indices l) out).
Proof.
  induction l as [|[b e] l IH]; intros out Hlt Hl Hout; [reflexivity|].
  cbn [run_ranges flat_map].
  pose proof (Hl (b, e) (or_introl eq_refl)) as Hbe. cbn [fst snd] in Hbe.
  rewrite par4_unit_writes by lia. cbn [bind].
  rewrite IH; [| exact Hlt | intros u Hu; apply Hl; right; exact Hu
               | rewrite length_write_all; exact Hout].
  rewrite write_all_app. reflexivity.
Qed.

Lemma In_units l nb i :
  s' < e' -> nb = (N + 127) / 128 -> chain 0 nb l ->
  (exists u, In u l /\ In i (unit_indices u)) <-> s' <= i < e'.
Proof.
  intros Hlt Hnb Hc.
  pose proof (ceil_div_bounds N 128 ltac:(lia) ltac:(lia)) as B.
  replace (N + 128 - 1) with (N + 127) in B by lia. rewrite <- Hnb in B.
  destruct (chain_bounds _ _ _ Hc) as [_ Hb]. split.
  - intros ([b e] & Hu & Hi). apply In_idx_range in Hi. cbn [fst snd] in Hi.
    specialize (Hb _ Hu). cbn [fst snd] in Hb. lia.
  - intros Hi.
    assert (Hj : 0 <= (i - s') / 128 < nb).
    { split; [apply Z.div_pos; lia|]. apply Z.div_lt_upper_bound; lia. }
    destruct (chain_cover _ _ _ Hc _ Hj) as ([b e] & Hu & Hr). cbn [fst snd] in Hr.
    exists (b, e). split; [exact Hu|]. apply In_idx_range. cbn [fst snd].
    pose proof (Z.div_mod (i - s') 128 ltac:(lia)) as D.
    pose proof (Z.mod_pos_bound (i - s') 128 ltac:(lia)) as M.
    specialize (Hb _ Hu). cbn [fst snd] in Hb. lia.
Qed.

Lemma units_NoDup a c l :
  chain a c l -> 0 <= a -> NoDup (flat_map unit_indices l).
Proof.
  induction 1 as [a|a b c l Hab Hc IH]; intros Ha; [constructor|].
  cbn [flat_map fst snd]. apply NoDup_app.
  - apply NoDup_idx_range.
  - apply IH. lia.
  - intros i Hi Hi'. apply In_idx_range in Hi. apply in_flat_map in Hi'.
    destruct Hi' as ([b' e'0] & Hu & Hi'). apply In_idx_range in Hi'.
    cbn [fst snd] in Hi'.
    destruct (chain_bounds _ _ _ Hc) as [_ Hb]. specialize (Hb _ Hu).
    cbn [fst snd] in Hb. lia.
Qed.

Lemma ParQuantizeLinearStd4_writes Output sched :
  valid_scheduler sched ->
  out_start < out_end -> out_end <= 2 * Z.of_nat (length Output) ->
  exists L,
    ParQuantizeLinearStd4 T Input Output out_start out_end Scale ZeroPoint sched
    = Ok (write_all val L Output) /\
    (forall i, In i L <-> out_start <= i < out_end) /\
    NoDup L.
Proof.
  intros Hs Hlt Hout. destruct cursors_even as [Es Ee].
  pose proof (lane_cases out_start) as Ls. pose proof (lane_cases out_end) as Le.
  set (L1 := if out_start mod 2 =? 0 then [] else [out_start]).
  set (L2 := if out_end mod 2 =? 0 then [] else [out_end - 1]).
  assert (I1 : forall i, In i L1 <-> out_start <= i < s').
  { intros i. unfold L1. destruct (Z.eqb_spec (out_start mod 2) 0); cbn [In]; lia. }
  assert (I2 : forall i, In i L2 <-> e' <= i < out_end).
  { intros i. unfold L2. destruct (Z.eqb_spec (out_end mod 2) 0); cbn [In]; lia. }
  assert (D1 : NoDup L1).
  { unfold L1. destruct (out_start mod 2 =? 0); repeat constructor. intros []. }
  assert (D2 : NoDup L2).
  { unfold L2. destruct (out_end mod 2 =? 0); repeat constructor. intros []. }
  assert (Hle : s' <= e').
  { destruct (Z.le_gt_cases s' e') as [H|H]; [exact H|]. exfalso.
    assert (s' = e' + 1 \/ s' = e' + 2) as [E|E] by lia.
    - rewrite E in Es. replace (e' + 1) with (1 + (e' / 2) * 2) in Es
        by (pose proof (Z.div_mod e' 2 ltac:(lia)); lia).
      rewrite Z.mod_add in Es by lia. discriminate Es.
    - lia. }
  unfold ParQuantizeLinearStd4.
  rewrite quantize_first_writes by assumption. cbn [bind]. fold L1.
  rewrite quantize_last_writes
    by (try assumption; rewrite length_write_all; assumption).
  cbn [bind]. fold L2. rewrite <- write_all_app.
  destruct (Z.eqb_spec s' e') as [E|E].
  - exists (L1 ++ L2). split; [reflexivity|]. split.
    + intros i. rewrite in_app_iff, I1, I2. lia.
    + apply NoDup_app; [exact D1 | exact D2 |].
      intros i Hi Hi'. apply I1 in Hi. apply I2 in Hi'. lia.
  - unfold Int.size_sub. rewrite (size_wrap_small N)
      by (unfold Int.size_max, Int.int64_max, block_size in *; lia).
    assert (EN : N mod 2 = 0).
    { pose proof (Z.div_mod s' 2 ltac:(lia)). pose proof (Z.div_mod e' 2 ltac:(lia)).
      replace N with (0 + (e' / 2 - s' / 2) * 2) by lia.
      rewrite Z.mod_add by lia. reflexivity. }
    rewrite EN. cbn [Z.eqb negb].
    rewrite num_blocks_of_small by (unfold block_size in *; lia).
    unfold TryParallelFor.
    assert (Hnb : 0 < (N + 127) / 128).
    { apply Z.div_str_pos. lia. }
    replace ((N + 127) / 128 <=? 0) with false by (symmetry; apply Z.leb_gt; exact Hnb).
    destruct (Hs _ Hnb) as (l & Hc & Hp).
    rewrite run_units_writes.
    + rewrite <- write_all_app.
      exists ((L1 ++ L2) ++ flat_map unit_indices (sched ((N + 127) / 128))).
      assert (P : forall i,
                (exists u, In u (sched ((N + 127) / 128)) /\ In i (unit_indices u))
                <-> s' <= i < e').
      { intros i. rewrite <- (In_units l _ i ltac:(lia) eq_refl Hc). split.
        - intros (u & Hu & Hi). exists u. split; [|exact Hi].
          apply (Permutation_in _ (Permutation_sym Hp) Hu).
        - intros (u & Hu & Hi). exists u. split; [|exact Hi].
          apply (Permutation_in _ Hp Hu). }
      split; [reflexivity|]. split.
      * intros i. rewrite !in_app_iff, I1, I2, in_flat_map, P. lia.
      * apply NoDup_app.
        -- apply NoDup_app; [exact D1 | exact D2 |].
           intros i Hi Hi'. apply I1 in Hi. apply I2 in Hi'. lia.
        -- apply (Permutation_NoDup (Permutation_flat_map unit_indices Hp)).
           apply (units_NoDup 0 _ l Hc). lia.
        -- intros i Hi Hi'. apply in_app_iff in Hi. apply in_flat_map in Hi'.
           apply P in Hi'. rewrite I1, I2 in Hi. lia.
    + lia.
    + intros u Hu. apply (Permutation_in _ (Permutation_sym Hp)) in Hu.
      destruct (chain_bounds _ _ _ Hc) as [_ Hb]. specialize (Hb _ Hu). lia.
    + rewrite length_write_all. exact Hout.
Qed.

End PackedOutput.

(** X1. The 4-bit quantizers store every element of a range in its nibble:
    for a range [out_start, out_end) within the buffers that is not empty
    at an odd index, with every element convertible, a call succeeds with
    any partition of the work; afterwards the nibble of the logical index
    [out_start + k] holds the quantized element [k] of the input, for every
    [k] below [out_end - out_start], every nibble outside the range is as it
    was and the buffer has the length it had. *)
Theorem ParQuantizeLinearStd4_nibbles (T : Int4Type) (Input : list float)
  (Output : list Z) (out_start out_end : Z) (Scale : float) (ZeroPoint : Z)
  (sched : scheduler) :
  valid_scheduler sched ->
  0 <= out_start <= out_end ->
  (out_start = out_end -> out_start mod 2 = 0) ->
  out_end + block_size <= Int.int64_max ->
  out_end - out_start <= Z.of_nat (length Input) ->
  out_end <= 2 * Z.of_nat (length Output) ->
  Forall (fun x => exists v, quantize_int4 T x Scale (GetElem T ZeroPoint 0) = Ok v)
         (firstn (Z.to_nat (out_end - out_start)) Input) ->
  exists Output',
    ParQuantizeLinearStd4 T Input Output out_start out_end Scale ZeroPoint sched
    = Ok Output' /\
    length Output' = length Output /\
    (forall k x, nth_error Input k = Some x -> Z.of_nat k < out_end - out_start ->
       quantize_int4 T x Scale (GetElem T ZeroPoint 0)
       = Ok (get_nibble T Output' (out_start + Z.of_nat k))) /\
    (forall i, 0 <= i -> ~ (out_start <= i < out_end) ->
       get_nibble T Output' i = get_nibble T Output i).
Proof.
  intros Hs Hr He Hmax Hin Hout Hdef.
  destruct (Z.eq_dec out_start out_end) as [E|E].
  - exists Output. specialize (He E). split; [|split; [reflexivity|split]].
    + unfold ParQuantizeLinearStd4, quantize_first, quantize_last.
      rewrite <- E, land_1_mod, He. cbn [Z.eqb negb bind]. rewrite Z.eqb_refl.
      reflexivity.
    + intros k x _ Hk. lia.
    + reflexivity.
  - destruct (ParQuantizeLinearStd4_writes T Input Scale ZeroPoint out_start out_end
                ltac:(lia) Hmax Hin Hdef Output sched Hs ltac:(lia) Hout)
      as (L & EL & IL & _).
    eexists. split; [exact EL|]. split; [apply length_write_all|].
    assert (W : forall j, In j L ->
              0 <= j < 2 * Z.of_nat (length Output) /\
              min_val T <= quant_at T Input Scale (GetElem T ZeroPoint 0) out_start j
                        <= max_val T).
    { intros j Hj. apply IL in Hj. split; [lia|].
      apply (quant_at_range T Input Scale ZeroPoint out_start out_end); assumption || lia. }
    split.
    + intros k x Hk Hlt.
      rewrite (write_all_nibbles T _ L Output W) by lia.
      destruct (in_dec Z.eq_dec (out_start + Z.of_nat k) L) as [I|I].
      * apply (quant_at_Ok T Input Scale ZeroPoint out_start out_end Hdef k x Hk Hlt).
      * exfalso. apply I. apply IL. lia.
    + intros i Hi Hout'.
      rewrite (write_all_nibbles T _ L Output W) by lia.
      destruct (in_dec Z.eq_dec i L) as [I|I]; [|reflexivity].
      exfalso. apply Hout'. apply IL. exact I.
Qed.

Lemma ParQuantizeLinearStd4_nibbles_witness :
  valid_scheduler reverse_scheduler /\
  0 <= 1 <= 4 /\
  (1 = 4 -> 1 mod 2 = 0) /\
  4 + block_size <= Int.int64_max /\
  4 - 1 <= Z.of_nat (length [F32.of_Z 1; F32.of_Z 20; F32.of_Z (-3)]) /\
  4 <= 2 * Z.of_nat (length [255; 255]) /\
  Forall (fun x => exists v, quantize_int4 UInt4x2 x F32.one (GetElem UInt4x2 2 0) = Ok v)
         (firstn (Z.to_nat (4 - 1)) [F32.of_Z 1; F32.of_Z 20; F32.of_Z (-3)]) /\
  exists Output',
    ParQuantizeLinearStd4 UInt4x2 [F32.of_Z 1; F32.of_Z 20; F32.of_Z (-3)]
      [255; 255] 1 4 F32.one 2 reverse_scheduler = Ok Output' /\
    length Output' = length [255; 255] /\
    (forall k x,
       nth_error [F32.of_Z 1; F32.of_Z 20; F32.of_Z (-3)] k = Some x ->
       Z.of_nat k < 4 - 1 ->
       quantize_int4 UInt4x2 x F32.one (GetElem UInt4x2 2 0)
       = Ok (get_nibble UInt4x2 Output' (1 + Z.of_nat k))) /\
    (forall i, 0 <= i -> ~ (1 <= i < 4) ->
       get_nibble UInt4x2 Output' i = get_nibble UInt4x2 [255; 255] i).
Proof.
  assert (D : Forall (fun x => exists v,
                 quantize_int4 UInt4x2 x F32.one (GetElem UInt4x2 2 0) = Ok v)
                (firstn (Z.to_nat (4 - 1))
                        [F32.of_Z 1; F32.of_Z 20; F32.of_Z (-3)])).
  { repeat constructor; eexists; vm_compute; reflexivity. }
  split; [exact reverse_scheduler_valid|].
  split; [lia|]. split; [lia|].
  split; [vm_compute; discriminate|].
  split; [vm_compute; discriminate|].
  split; [vm_compute; discriminate|].
  split; [exact D|].
  apply (ParQuantizeLinearStd4_nibbles UInt4x2
           [F32.of_Z 1; F32.of_Z 20; F32.of_Z (-3)] [255; 255] 1 4 F32.one 2
           reverse_scheduler).
  - exact reverse_scheduler_valid.
  - lia.
  - lia.
  - vm_compute; discriminate.
  - vm_compute; discriminate.
  - vm_compute; discriminate.
  - exact D.
Defined.

(** X14. The bytes the 4-bit quantizers leave do not depend on how the
    parallel-for splits and orders the blocks: under the conditions of the
    call two partitions of the work give the same output buffer. *)
Theorem ParQuantizeLinearStd4_schedule_independent (T : Int4Type)
  (Input : list float) (Output : list Z) (out_start out_end : Z)
  (Scale : float) (ZeroPoint : Z) (sched1 sched2 : scheduler) :
  valid_scheduler sched1 -> valid_scheduler sched2 ->
  0 <= out_start <= out_end ->
  (out_start = out_end -> out_start mod 2 = 0) ->
  out_end + block_size <= Int.int64_max ->
  out_end - out_start <= Z.of_nat (length Input) ->
  out_end <= 2 * Z.of_nat (length Output) ->
  Forall (fun x => exists v, quantize_int4 T x Scale (GetElem T ZeroPoint 0) = Ok v)
         (firstn (Z.to_nat (out_end - out_start)) Input) ->
  exists Output',
    ParQuantizeLinearStd4 T Input Output out_start out_end Scale ZeroPoint sched1
    = Ok Output' /\
    ParQuantizeLinearStd4 T Input Output out_start out_end Scale ZeroPoint sched2
    = Ok Output'.
Proof.
  intros Hs1 Hs2 Hr He Hmax Hin Hout Hdef.
  destruct (Z.eq_dec out_start out_end) as [E|E].
  - exists Output. specialize (He E).
    unfold ParQuantizeLinearStd4, quantize_first, quantize_last.
    rewrite <- E, land_1_mod, He. cbn [Z.eqb negb bind]. rewrite Z.eqb_refl.
    split; reflexivity.
  - destruct (ParQuantizeLinearStd4_writes T Input Scale ZeroPoint out_start out_end
                ltac:(lia) Hmax Hin Hdef Output sched1 Hs1 ltac:(lia) Hout)
      as (L1 & E1 & I1 & D1).
    destruct (ParQuantizeLinearStd4_writes T Input Scale ZeroPoint out_start out_end
                ltac:(lia) Hmax Hin Hdef Output sched2 Hs2 ltac:(lia) Hout)
      as (L2 & E2 & I2 & D2).
    eexists. split; [exact E1|]. rewrite E2. f_equal.
    apply write_all_perm.
    + apply NoDup_Permutation; [exact D2 | exact D1 |].
      intros i. rewrite I1, I2. reflexivity.
    + exact D2.
    + intros i Hi. apply I2 in Hi. lia.
Qed.

Lemma ParQuantizeLinearStd4_schedule_independent_witness :
  valid_scheduler inline_scheduler /\ valid_scheduler reverse_scheduler /\
  0 <= 1 <= 4 /\
  (1 = 4 -> 1 mod 2 = 0) /\
  4 + block_size <= Int.int64_max /\
  4 - 1 <= Z.of_nat (length [F32.of_Z 1; F32.of_Z 20; F32.of_Z (-3)]) /\
  4 <= 2 * Z.of_nat (length [255; 255]) /\
  Forall (fun x => exists v, quantize_int4 Int4x2 x F32.one (GetElem Int4x2 2 0) = Ok v)
         (firstn (Z.to_nat (4 - 1)) [F32.of_Z 1; F32.of_Z 20; F32.of_Z (-3)]) /\
  exists Output',
    ParQuantizeLinearStd4 Int4x2 [F32.of_Z 1; F32.of_Z 20; F32.of_Z (-3)]
      [255; 255] 1 4 F32.one 2 inline_scheduler = Ok Output' /\
    ParQuantizeLinearStd4 Int4x2 [F32.of_Z 1; F32.of_Z 20; F32.of_Z (-3)]
      [255; 255] 1 4 F32.one 2 reverse_scheduler = Ok Output'.
Proof.
  assert (D : Forall (fun x => exists v,
                 quantize_int4 Int4x2 x F32.one (GetElem Int4x2 2 0) = Ok v)
                (firstn (Z.to_nat (4 - 1))
                        [F32.of_Z 1; F32.of_Z 20; F32.of_Z (-3)])).
  { repeat constructor; eexists; vm_compute; reflexivity. }
  split; [exact inline_scheduler_valid|].
  split; [exact reverse_scheduler_valid|].
  split; [lia|]. split; [lia|].
  split; [vm_compute; discriminate|].
  split; [vm_compute; discriminate|].
  split; [vm_compute; discriminate|].
  split; [exact D|].
  apply (ParQuantizeLinearStd4_schedule_independent Int4x2
           [F32.of_Z 1; F32.of_Z 20; F32.of_Z (-3)] [255; 255] 1 4 F32.one 2
           inline_scheduler reverse_scheduler).
  - exact inline_scheduler_valid.
  - exact reverse_scheduler_valid.
  - lia.
  - lia.
  - vm_compute; discriminate.
  - vm_compute; discriminate.
  - vm_compute; discriminate.
  - exact D.
Defined.

(** ** Element-wise dispatch over blocks of 128 elements *)

Section Dispatch.

Context {B : Type}.
Variables Output tgt : list B.
Variable N : Z.
Variable unit_ : Z -> Z -> list B -> result (list B).

Hypothesis HN : 0 <= N.
Hypothesis Hmax : N + block_size <= Int.int64_max.
Hypothesis Htail : forall j, N <= Z.of_nat j -> nth_error tgt j = nth_error Output j.
Hypothesis Hunit : forall b e out,
  0 <= b < e -> e <= (N + 127) / 128 -> length out = length Output ->
  exists out',
    unit_ b e out = Ok out' /\
    length out' = length Output /\
    (forall j, b * 128 <= Z.of_nat j < Z.min N (e * 128) ->
               nth_error out' j = nth_error tgt j) /\
    (forall j, Z.of_nat j < b * 128 \/ Z.min N (e * 128) <= Z.of_nat j ->
               nth_error out' j = nth_error out j).

Lemma dispatch_run l : forall out,
  (forall u, In u l -> 0 <= fst u < snd u /\ snd u <= (N + 127) / 128) ->
  length out = length Output ->
  exists out',
    run_ranges l unit_ out = Ok out' /\
    length out' = length Output /\
    (forall u j, In u l -> fst u * 128 <= Z.of_nat j < Z.min N (snd u * 128) ->
                 nth_error out' j = nth_error tgt j) /\
    (forall j, nth_error out' j = nth_error tgt j \/
               nth_error out' j = nth_error out j).
Proof.
  induction l as [|[b e] l IH]; intros out Hin Hl.
  - exists out. cbn [run_ranges]. repeat split; auto. intros u j [].
  - cbn [run_ranges].
    pose proof (Hin (b, e) (or_introl eq_refl)) as Hbe. cbn [fst snd] in Hbe.
    destruct (Hunit b e out ltac:(lia) ltac:(lia) Hl) as (out1 & E1 & L1 & A1 & B1).
    rewrite E1. cbn [bind].
    destruct (IH out1) as (out' & E & L' & A & C);
      [intros u Hu; apply Hin; right; exact Hu | exact L1 |].
    exists out'. split; [exact E|]. split; [exact L'|]. split.
    + intros u j [<-|Hu] Hj.
      * cbn [fst snd] in Hj. destruct (C j) as [Cj|Cj]; [exact Cj|].
        rewrite Cj. apply A1. exact Hj.
      * apply (A u j Hu Hj).
    + intros j. destruct (C j) as [Cj|Cj]; [left; exact Cj|].
      rewrite Cj.
      destruct (Z.lt_ge_cases (Z.of_nat j) (b * 128)) as [H1|H1];
        [right; apply B1; lia|].
      destruct (Z.lt_ge_cases (Z.of_nat j) (Z.min N (e * 128))) as [H2|H2];
        [left; apply A1; lia | right; apply B1; lia].
Qed.

Lemma dispatch_spec sched :
  valid_scheduler sched ->
  TryParallelFor sched (num_blocks_of N) unit_ Output = Ok tgt.
Proof.
  intros Hs. rewrite num_blocks_of_small by lia.
  unfold TryParallelFor. unfold block_size in Hmax.
  pose proof (ceil_div_bounds N 128 ltac:(lia) ltac:(lia)) as Bd.
  replace (N + 128 - 1) with (N + 127) in Bd by lia.
  destruct (Z.leb_spec ((N + 127) / 128) 0) as [Hz|Hp].
  - f_equal. apply nth_error_ext. intros j. symmetry. apply Htail. lia.
  - destruct (Hs _ Hp) as (l0 & Hchain & Hperm).
    pose proof (chain_bounds _ _ _ Hchain) as [_ Hb0].
    destruct (dispatch_run (sched ((N + 127) / 128)) Output) as (out' & E & L' & A & C).
    + intros u Hu. specialize (Hb0 u (Permutation_in u (Permutation_sym Hperm) Hu)). lia.
    + reflexivity.
    + rewrite E. f_equal. apply nth_error_ext. intros j.
      destruct (Z.lt_ge_cases (Z.of_nat j) N) as [Hj|Hj].
      * destruct (chain_cover _ _ _ Hchain (Z.of_nat j / 128)) as (u & Hu & Hr).
        { split; [apply Z.div_pos; lia|].
          apply Z.div_lt_upper_bound; lia. }
        apply (A u j (Permutation_in u Hperm Hu)).
        pose proof (Z.div_mod (Z.of_nat j) 128 ltac:(lia)) as D.
        pose proof (Z.mod_pos_bound (Z.of_nat j) 128 ltac:(lia)) as M.
        lia.
      * destruct (C j) as [Cj|Cj]; [exact Cj|]. rewrite Cj.
        symmetry. apply Htail. exact Hj.
Qed.

End Dispatch.

(** The buffer that holds [f] of the first [n] elements of the input, then
    what the output held. *)
Lemma nth_error_mapped {A B} (f : A -> B) (Input : list A) (Output : list B) n j :
  (n <= length Input)%nat -> (n <= length Output)%nat ->
  nth_error (map f (firstn n Input) ++ skipn n Output) j
  = if (j <? n)%nat then option_map f (nth_error Input j)
    else nth_error Output j.
Proof.
  intros H1 H2. destruct (Nat.ltb_spec j n) as [L|L].
  - rewrite nth_error_app1 by (rewrite length_map, length_firstn; lia).
    rewrite nth_error_map, nth_error_firstn.
    replace (j <? n)%nat with true by (symmetry; apply Nat.ltb_lt; exact L).
    reflexivity.
  - rewrite nth_error_app2 by (rewrite length_map, length_firstn; lia).
    rewrite length_map, length_firstn, nth_error_skipn. f_equal. lia.
Qed.

Section ElementLoop.

Context {A B : Type}.
Variable f : A -> B.
Variable Input : list A.
Variable Output : list B.
Variable N : Z.

Hypothesis Hin : N <= Z.of_nat (length Input).
Hypothesis Hout : N <= Z.of_nat (length Output).

Local Notation tgt := (map f (firstn (Z.to_nat N) Input) ++ skipn (Z.to_nat N) Output).
Local Notation body :=
  (fun (i : Z) (out : list B) => x <- read Input i ;; write out i (f x)).

Lemma tgt_tail j : N <= Z.of_nat j -> nth_error tgt j = nth_error Output j.
Proof.
  intros H. rewrite nth_error_mapped by lia.
  replace (j <? Z.to_nat N)%nat with false by (symmetry; apply Nat.ltb_ge; lia).
  reflexivity.
Qed.

Lemma tgt_head j x :
  Z.of_nat j < N -> nth_error Input j = Some x -> nth_error tgt j = Some (f x).
Proof.
  intros H E. rewrite nth_error_mapped by lia.
  replace (j <? Z.to_nat N)%nat with true by (symmetry; apply Nat.ltb_lt; lia).
  rewrite E. reflexivity.
Qed.

Lemma element_loop k : forall i out,
  0 <= i -> i + Z.of_nat k <= N -> length out = length Output ->
  exists out',
    for_loop k i body out = Ok out' /\
    length out' = length Output /\
    (forall j, i <= Z.of_nat j < i + Z.of_nat k ->
               nth_error out' j = nth_error tgt j) /\
    (forall j, Z.of_nat j < i \/ i + Z.of_nat k <= Z.of_nat j ->
               nth_error out' j = nth_error out j).
Proof.
  induction k as [|k IH]; intros i out Hi Hk Hl.
  - exists out. cbn [for_loop]. repeat split; auto. intros j Hj. lia.
  - cbn [for_loop].
    destruct (nth_error Input (Z.to_nat i)) as [x|] eqn:Ex.
    2:{ apply nth_error_None in Ex. lia. }
    rewrite (read_Ok Input i x) by (lia || assumption). cbn [bind].
    rewrite write_Ok by lia. cbn [bind].
    destruct (IH (i + 1) (update out (Z.to_nat i) (f x))) as (out' & E & L' & P & Q);
      [lia | lia | rewrite length_update; exact Hl |].
    exists out'. split; [exact E|]. split; [exact L'|]. split.
    + intros j Hj. destruct (Z.eq_dec (Z.of_nat j) i) as [Ej|Nj].
      * rewrite Q by lia. rewrite <- Ej, Nat2Z.id in *.
        rewrite nth_error_update_eq by lia. symmetry. apply tgt_head; [lia|exact Ex].
      * apply P. lia.
    + intros j Hj. rewrite Q by lia. apply nth_error_update_neq. lia.
Qed.

End ElementLoop.

(** The block indices of a unit, without wrap-around. *)
Lemma unit_indices_small N b e :
  0 <= N -> N + 128 <= 2 ^ 63 - 1 -> 0 <= b < e -> e <= (N + 127) / 128 ->
  Int.mul64 b block_size = b * 128 /\
  Z.min (Int.ptrdiff_of_size N) (Int.mul64 e block_size) = Z.min N (e * 128) /\
  b * 128 < Z.min N (e * 128).
Proof.
  intros HN Hmax Hb He.
  pose proof (ceil_div_bounds N 128 ltac:(lia) ltac:(lia)) as Bd.
  replace (N + 128 - 1) with (N + 127) in Bd by lia.
  assert (R : forall z, - 2 ^ 63 <= z <= 2 ^ 63 - 1 -> Int.int64_wrap z = z)
    by (intros; apply int64_wrap_small; unfold Int.int64_min, Int.int64_max; lia).
  unfold block_size, Int.mul64, Int.ptrdiff_of_size.
  rewrite (R N) by lia. rewrite (R (b * 128)) by nia. rewrite (R (e * 128)) by nia.
  repeat split. nia.
Qed.

Section Saturating.

Context {F8 : Type}.
Variable convert : float -> bool -> F8.
Variable saturate : bool.
Variable Output : list F8.
Variable N : Z.

Hypothesis HN : 0 <= N.
Hypothesis Hmax : N + block_size <= Int.int64_max.
Hypothesis Hout : N <= Z.of_nat (length Output).

Lemma sat_unit_spec Input Scale b e out :
  N <= Z.of_nat (length Input) ->
  0 <= b < e -> e <= (N + 127) / 128 -> length out = length Output ->
  exists out',
    sat_unit convert Input N Scale saturate b e out = Ok out' /\
    length out' = length Output /\
    (forall j, b * 128 <= Z.of_nat j < Z.min N (e * 128) ->
       nth_error out' j
       = nth_error (map (fun x => convert (F32.div x Scale) saturate)
                        (firstn (Z.to_nat N) Input)
                    ++ skipn (Z.to_nat N) Output) j) /\
    (forall j, Z.of_nat j < b * 128 \/ Z.min N (e * 128) <= Z.of_nat j ->
       nth_error out' j = nth_error out j).
Proof.
  intros Hin Hb He Hl. unfold block_size, Int.int64_max in Hmax.
  destruct (unit_indices_small N b e HN ltac:(lia) Hb He) as (E1 & E2 & Hlt).
  unfold sat_unit. rewrite E1, E2.
  destruct (element_loop (fun x => convert (F32.div x Scale) saturate)
              Input Output N Hin Hout
              (Z.to_nat (Z.min N (e * 128) - b * 128)) (b * 128) out)
    as (out' & E & L' & P & Q); [lia | lia | exact Hl |].
  exists out'. split; [exact E|]. split; [exact L'|]. split.
  - intros j Hj. apply P. lia.
  - intros j Hj. apply Q. lia.
Qed.

Lemma sat_unit_f16_spec (Input : list MLFloat16) Scale b e out :
  N <= Z.of_nat (length Input) ->
  0 <= b < e -> e <= (N + 127) / 128 -> length out = length Output ->
  exists out',
    sat_unit_f16 convert Input N Scale saturate b e out = Ok out' /\
    length out' = length Output /\
    (forall j, b * 128 <= Z.of_nat j < Z.min N (e * 128) ->
       nth_error out' j
       = nth_error (map (fun x => convert (F32.div (ToFloat x) (ToFloat Scale))
                                          saturate)
                        (firstn (Z.to_nat N) Input)
                    ++ skipn (Z.to_nat N) Output) j) /\
    (forall j, Z.of_nat j < b * 128 \/ Z.min N (e * 128) <= Z.of_nat j ->
       nth_error out' j = nth_error out j).
Proof.
  intros Hin Hb He Hl. unfold block_size, Int.int64_max in Hmax.
  destruct (unit_indices_small N b e HN ltac:(lia) Hb He) as (E1 & E2 & Hlt).
  unfold sat_unit_f16. rewrite E1, E2.
  destruct (element_loop
              (fun x => convert (F32.div (ToFloat x) (ToFloat Scale)) saturate)
              Input Output N Hin Hout
              (Z.to_nat (Z.min N (e * 128) - b * 128)) (b * 128) out)
    as (out' & E & L' & P & Q); [lia | lia | exact Hl |].
  exists out'. split; [exact E|]. split; [exact L'|]. split.
  - intros j Hj. apply P. lia.
  - intros j Hj. apply Q. lia.
Qed.

End Saturating.

(** X2. The float overload of [ParQuantizeLinearSat] converts every one of
    the first [N] elements, divided by the scale, with the saturation flag,
    and leaves the rest of the output as it was, whatever the partition of
    the work; the zero point has no effect and the call never fails on
    buffers of [N] elements or more, whatever the floats are. *)
Theorem ParQuantizeLinearSat_maps (F8 : Type) (convert : float -> bool -> F8)
  (Input : list float) (Output : list F8) (N : Z) (Scale : float)
  (ZeroPoint : F8) (saturate : bool) (sched : scheduler) :
  valid_scheduler sched ->
  0 <= N -> N + block_size <= Int.int64_max ->
  N <= Z.of_nat (length Input) -> N <= Z.of_nat (length Output) ->
  ParQuantizeLinearSat convert Input Output N Scale ZeroPoint saturate sched
  = Ok (map (fun x => convert (F32.div x Scale) saturate)
            (firstn (Z.to_nat N) Input)
        ++ skipn (Z.to_nat N) Output).
Proof.
  intros Hs HN Hmax Hin Hout. unfold ParQuantizeLinearSat.
  apply dispatch_spec; try assumption.
  - intros j Hj. apply tgt_tail; assumption.
  - intros b e out Hb He Hl. apply sat_unit_spec; assumption.
Qed.

(** X3. The [MLFloat16] overload of [ParQuantizeLinearSat] widens every one
    of the first [N] elements and the scale to floats, converts the quotient
    with the saturation flag, and leaves the rest of the output as it was,
    whatever the partition of the work. *)
Theorem ParQuantizeLinearSat_f16_maps (F8 : Type) (convert : float -> bool -> F8)
  (Input : list MLFloat16) (Output : list F8) (N : Z) (Scale : MLFloat16)
  (ZeroPoint : F8) (saturate : bool) (sched : scheduler) :
  valid_scheduler sched ->
  0 <= N -> N + block_size <= Int.int64_max ->
  N <= Z.of_nat (length Input) -> N <= Z.of_nat (length Output) ->
  ParQuantizeLinearSat_f16 convert Input Output N Scale ZeroPoint saturate sched
  = Ok (map (fun x => convert (F32.div (ToFloat x) (ToFloat Scale)) saturate)
            (firstn (Z.to_nat N) Input)
        ++ skipn (Z.to_nat N) Output).
Proof.
  intros Hs HN Hmax Hin Hout. unfold ParQuantizeLinearSat_f16.
  apply dispatch_spec; try assumption.
  - intros j Hj. apply tgt_tail; assumption.
  - intros b e out Hb He Hl. apply sat_unit_f16_spec; assumption.
Qed.

Lemma ParQuantizeLinearSat_maps_witness :
  valid_scheduler reverse_scheduler /\
  0 <= 2 /\ 2 + block_size <= Int.int64_max /\
  2 <= Z.of_nat (length [F32.of_Z 6; S754_nan; S754_infinity true]) /\
  2 <= Z.of_nat (length [(F32.zero, false); (F32.zero, false); (F32.one, false)]) /\
  ParQuantizeLinearSat (fun x (s : bool) => (x, s))
    [F32.of_Z 6; S754_nan; S754_infinity true]
    [(F32.zero, false); (F32.zero, false); (F32.one, false)]
    2 (F32.of_Z 2) (F32.zero, false) true reverse_scheduler
  = Ok (map (fun x => (F32.div x (F32.of_Z 2), true))
            (firstn (Z.to_nat 2) [F32.of_Z 6; S754_nan; S754_infinity true])
        ++ skipn (Z.to_nat 2)
                 [(F32.zero, false); (F32.zero, false); (F32.one, false)]).
Proof.
  split; [exact reverse_scheduler_valid|].
  split; [lia|]. split; [vm_compute; discriminate|].
  split; [vm_compute; discriminate|]. split; [vm_compute; discriminate|].
  apply (ParQuantizeLinearSat_maps (float * bool) (fun x (s : bool) => (x, s))
           [F32.of_Z 6; S754_nan; S754_infinity true]
           [(F32.zero, false); (F32.zero, false); (F32.one, false)]
           2 (F32.of_Z 2) (F32.zero, false) true reverse_scheduler).
  - exact reverse_scheduler_valid.
  - lia.
  - vm_compute; discriminate.
  - vm_compute; discriminate.
  - vm_compute; discriminate.
Defined.

Lemma ParQuantizeLinearSat_f16_maps_witness :
  valid_scheduler inline_scheduler /\
  0 <= 3 /\ 3 + block_size <= Int.int64_max /\
  3 <= Z.of_nat (length sample_f16) /\
  3 <= Z.of_nat (length [(F32.zero, true); (F32.zero, true); (F32.zero, true);
                         (F32.one, true)]) /\
  ParQuantizeLinearSat_f16 (fun x (s : bool) => (x, s)) sample_f16
    [(F32.zero, true); (F32.zero, true); (F32.zero, true); (F32.one, true)]
    3 f16_one (F32.zero, true) false inline_scheduler
  = Ok (map (fun x => (F32.div (ToFloat x) (ToFloat f16_one), false))
            (firstn (Z.to_nat 3) sample_f16)
        ++ skipn (Z.to_nat 3)
                 [(F32.zero, true); (F32.zero, true); (F32.zero, true);
                  (F32.one, true)]).
Proof.
  split; [exact inline_scheduler_valid|].
  split; [lia|]. split; [vm_compute; discriminate|].
  split; [vm_compute; discriminate|]. split; [vm_compute; discriminate|].
  apply (ParQuantizeLinearSat_f16_maps (float * bool) (fun x (s : bool) => (x, s))
           sample_f16
           [(F32.zero, true); (F32.zero, true); (F32.zero, true); (F32.one, true)]
           3 f16_one (F32.zero, true) false inline_scheduler).
  - exact inline_scheduler_valid.
  - lia.
  - vm_compute; discriminate.
  - vm_compute; discriminate.
  - vm_compute; discriminate.
Defined.

(** ** The float overload of ParQuantizeLinearStd *)

Lemma Forall2_nth_error {A B} (R : A -> B -> Prop) l1 l2 :
  Forall2 R l1 l2 ->
  forall j x, nth_error l1 j = Some x ->
              exists v, nth_error l2 j = Some v /\ R x v.
Proof.
  induction 1 as [|a b l1 l2 Hab HF IH]; intros [|j] x Hx; cbn in *;
    try discriminate.
  - injection Hx as <-. exists b. split; [reflexivity | exact Hab].
  - apply IH. exact Hx.
Qed.

Lemma Forall_exists_Forall2 {A B} (R : A -> B -> Prop) l :
  Forall (fun x => exists v, R x v) l -> exists vs, Forall2 R l vs.
Proof.
  induction 1 as [|x l [v Hv] HF [vs IH]].
  - exists []. constructor.
  - exists (v :: vs). constructor; assumption.
Qed.

Section KernelDispatch.

Variable quantize : float -> float -> Z -> result Z.
Variable Input : list float.
Variable Output : list Z.
Variable N : Z.
Variable Scale : float.
Variable ZeroPoint : Z.
Variable vals : list Z.

Hypothesis HN : 0 <= N.
Hypothesis Hmax : N + block_size <= Int.int64_max.
Hypothesis Hin : N <= Z.of_nat (length Input).
Hypothesis Hout : N <= Z.of_nat (length Output).
Hypothesis Hvals :
  Forall2 (fun x v => quantize x Scale ZeroPoint = Ok v)
          (firstn (Z.to_nat N) Input) vals.

Local Notation tgt := (vals ++ skipn (Z.to_nat N) Output).

Lemma length_vals : length vals = Z.to_nat N.
Proof.
  rewrite <- (Forall2_length Hvals), length_firstn. lia.
Qed.

Lemma vals_tail j : N <= Z.of_nat j -> nth_error tgt j = nth_error Output j.
Proof.
  intros H. rewrite nth_error_app2 by (rewrite length_vals; lia).
  rewrite length_vals, nth_error_skipn. f_equal. lia.
Qed.

Lemma vals_head j x :
  Z.of_nat j < N -> nth_error Input j = Some x ->
  exists v, quantize x Scale ZeroPoint = Ok v /\ nth_error tgt j = Some v.
Proof.
  intros H E.
  destruct (Forall2_nth_error _ _ _ Hvals j x) as (v & Ev & Hv).
  { rewrite nth_error_firstn.
    replace (j <? Z.to_nat N)%nat with true by (symmetry; apply Nat.ltb_lt; lia).
    exact E. }
  exists v. split; [exact Hv|].
  rewrite nth_error_app1 by (rewrite length_vals; lia). exact Ev.
Qed.

Lemma std_kernel_loop oi block : forall n out,
  0 <= oi -> 0 <= n -> oi + n + Z.of_nat (length block) <= N ->
  length out = length Output ->
  (forall k x, nth_error block k = Some x ->
               nth_error Input (Z.to_nat (oi + n) + k) = Some x) ->
  exists out',
    MlasQuantizeLinear_loop quantize block n out oi Scale ZeroPoint = Ok out' /\
    length out' = length Output /\
    (forall j, oi + n <= Z.of_nat j < oi + n + Z.of_nat (length block) ->
               nth_error out' j = nth_error tgt j) /\
    (forall j, Z.of_nat j < oi + n \/
               oi + n + Z.of_nat (length block) <= Z.of_nat j ->
               nth_error out' j = nth_error out j).
Proof.
  induction block as [|x rest IH]; intros n out Hoi Hn Hlen Hl Hblk.
  - exists out. cbn [MlasQuantizeLinear_loop length]. repeat split; auto.
    intros j Hj. cbn [length] in Hj. lia.
  - cbn [MlasQuantizeLinear_loop]. cbn [length] in *.
    pose proof (Hblk 0%nat x eq_refl) as Ex. rewrite Nat.add_0_r in Ex.
    destruct (vals_head (Z.to_nat (oi + n)) x ltac:(lia) Ex) as (v & Hv & Tv).
    rewrite Hv. cbn [bind]. rewrite write_Ok by lia. cbn [bind].
    destruct (IH (n + 1) (update out (Z.to_nat (oi + n)) v)) as (out' & E & L' & P & Q);
      [lia | lia | lia | rewrite length_update; exact Hl | |].
    { intros k y Hk. rewrite <- (Hblk (S k) y Hk). f_equal. lia. }
    exists out'. split; [exact E|]. split; [exact L'|]. split.
    + intros j Hj. destruct (Z.eq_dec (Z.of_nat j) (oi + n)) as [Ej|Nj].
      * rewrite Q by lia. rewrite <- Ej, Nat2Z.id in *.
        rewrite nth_error_update_eq by lia. symmetry. exact Tv.
      * apply P. lia.
    + intros j Hj. rewrite Q by lia. apply nth_error_update_neq. lia.
Qed.

Lemma std_unit_spec b e out :
  0 <= b < e -> e <= (N + 127) / 128 -> length out = length Output ->
  exists out',
    std_unit quantize Input N Scale ZeroPoint b e out = Ok out' /\
    length out' = length Output /\
    (forall j, b * 128 <= Z.of_nat j < Z.min N (e * 128) ->
               nth_error out' j = nth_error tgt j) /\
    (forall j, Z.of_nat j < b * 128 \/ Z.min N (e * 128) <= Z.of_nat j ->
               nth_error out' j = nth_error out j).
Proof.
  intros Hb He Hl. unfold block_size, Int.int64_max in Hmax.
  destruct (unit_indices_small N b e HN ltac:(lia) Hb He) as (E1 & E2 & Hlt).
  unfold std_unit. rewrite E1, E2.
  unfold Int.sub64. set (c := Z.min N (e * 128) - b * 128).
  rewrite (int64_wrap_small c)
    by (unfold Int.int64_min, Int.int64_max, c; lia).
  unfold Int.size_of_ptrdiff. rewrite (size_wrap_small c)
    by (unfold Int.size_max, c; lia).
  unfold MlasQuantizeLinear. rewrite slice_Ok by (unfold c; lia). cbn [bind].
  assert (Lb : length (block_of Input (b * 128) (b * 128 + c)) = Z.to_nat c).
  { unfold block_of. rewrite length_firstn, length_skipn. unfold c. lia. }
  destruct (std_kernel_loop (b * 128) (block_of Input (b * 128) (b * 128 + c)) 0 out)
    as (out' & E & L' & P & Q); [lia | lia | rewrite Lb; unfold c; lia | exact Hl | |].
  { intros k x Hk. apply nth_error_block_of in Hk; [|lia].
    rewrite Z.add_0_r. apply Hk. }
  rewrite Lb in P, Q.
  exists out'. split; [exact E|]. split; [exact L'|]. split.
  - intros j Hj. apply P. unfold c. lia.
  - intros j Hj. apply Q. unfold c. lia.
Qed.

End KernelDispatch.

(** X4. The float overload of [ParQuantizeLinearStd] gives the same output
    as one kernel call on the whole input, whatever the partition of the
    work: when the element rule of the kernel is defined on the first [N]
    elements of the input, the first [N] outputs are their quantized values,
    in order, and the rest of the output is as it was. *)
Theorem ParQuantizeLinearStd_blocks (quantize : float -> float -> Z -> result Z)
  (Input : list float) (Output : list Z) (N : Z) (Scale : float)
  (ZeroPoint : Z) (sched : scheduler) :
  valid_scheduler sched ->
  0 <= N -> N + block_size <= Int.int64_max ->
  N <= Z.of_nat (length Input) -> N <= Z.of_nat (length Output) ->
  Forall (fun x => exists v, quantize x Scale ZeroPoint = Ok v)
         (firstn (Z.to_nat N) Input) ->
  exists vals,
    Forall2 (fun x v => quantize x Scale ZeroPoint = Ok v)
            (firstn (Z.to_nat N) Input) vals /\
    ParQuantizeLinearStd quantize Input Output N Scale ZeroPoint sched
    = Ok (vals ++ skipn (Z.to_nat N) Output) /\
    MlasQuantizeLinear quantize Input 0 Output 0 N Scale ZeroPoint
    = Ok (vals ++ skipn (Z.to_nat N) Output).
Proof.
  intros Hs HN Hmax Hin Hout Hdef.
  destruct (Forall_exists_Forall2 _ _ Hdef) as [vals Hvals].
  exists vals. split; [exact Hvals|]. split.
  - unfold ParQuantizeLinearStd. apply dispatch_spec; try assumption.
    + intros j Hj. apply (vals_tail quantize Input Output N Scale ZeroPoint vals);
        assumption.
    + intros b e out Hb He Hl. apply std_unit_spec; assumption.
  - unfold MlasQuantizeLinear. rewrite slice_Ok by lia. cbn [bind].
    assert (Lb : length (block_of Input 0 (0 + N)) = Z.to_nat N).
    { unfold block_of. rewrite length_firstn, length_skipn. lia. }
    destruct (std_kernel_loop quantize Input Output N Scale ZeroPoint vals
                HN Hin Hout Hvals 0 (block_of Input 0 (0 + N)) 0 Output)
      as (out' & E & L' & P & Q); [lia | lia | rewrite Lb; lia | reflexivity | |].
    { intros k x Hk. apply nth_error_block_of in Hk; [|lia]. apply Hk. }
    rewrite E. f_equal. apply nth_error_ext. intros j. rewrite Lb in P, Q.
    destruct (Z.lt_ge_cases (Z.of_nat j) N) as [Hj|Hj].
    + apply P. lia.
    + rewrite Q by lia. symmetry.
      apply (vals_tail quantize Input Output N Scale ZeroPoint vals); assumption.
Qed.

Lemma ParQuantizeLinearStd_blocks_witness :
  valid_scheduler reverse_scheduler /\
  0 <= 2 /\ 2 + block_size <= Int.int64_max /\
  2 <= Z.of_nat (length [F32.of_Z 7; F32.of_Z (-9); S754_nan]) /\
  2 <= Z.of_nat (length [0; 0; 5]) /\
  Forall (fun x => exists v, quantize_int4 Int4x2 x F32.one 1 = Ok v)
         (firstn (Z.to_nat 2) [F32.of_Z 7; F32.of_Z (-9); S754_nan]) /\
  exists vals,
    Forall2 (fun x v => quantize_int4 Int4x2 x F32.one 1 = Ok v)
            (firstn (Z.to_nat 2) [F32.of_Z 7; F32.of_Z (-9); S754_nan]) vals /\
    ParQuantizeLinearStd (quantize_int4 Int4x2)
      [F32.of_Z 7; F32.of_Z (-9); S754_nan] [0; 0; 5] 2 F32.one 1
      reverse_scheduler
    = Ok (vals ++ skipn (Z.to_nat 2) [0; 0; 5]) /\
    MlasQuantizeLinear (quantize_int4 Int4x2)
      [F32.of_Z 7; F32.of_Z (-9); S754_nan] 0 [0; 0; 5] 0 2 F32.one 1
    = Ok (vals ++ skipn (Z.to_nat 2) [0; 0; 5]).
Proof.
  assert (D : Forall (fun x => exists v, quantize_int4 Int4x2 x F32.one 1 = Ok v)
                (firstn (Z.to_nat 2) [F32.of_Z 7; F32.of_Z (-9); S754_nan])).
  { repeat constructor; eexists; vm_compute; reflexivity. }
  split; [exact reverse_scheduler_valid|].
  split; [lia|]. split; [vm_compute; discriminate|].
  split; [vm_compute; discriminate|]. split; [vm_compute; discriminate|].
  split; [exact D|].
  apply (ParQuantizeLinearStd_blocks (quantize_int4 Int4x2)
           [F32.of_Z 7; F32.of_Z (-9); S754_nan] [0; 0; 5] 2 F32.one 1
           reverse_scheduler).
  - exact reverse_scheduler_valid.
  - lia.
  - vm_compute; discriminate.
  - vm_compute; discriminate.
  - vm_compute; discriminate.
  - exact D.
Defined.

(** ** GetQuantizationParameter *)

(** X5. The parameters [GetQuantizationParameter] finds do not depend on
    the thread pool: whether it parallelizes, how the parallel-for splits
    and orders the blocks, and what the accumulator array held before the
    call make no difference to the scale and the zero point, nor to whether
    there is a result. *)
Theorem GetQuantizationParameter_pool_independent (T : QType)
  (ReduceRange Symmetric : bool) (data : list float)
  (should_parallelize1 should_parallelize2 : bool)
  (sched1 sched2 : scheduler) (aggregate1 aggregate2 : list FloatMinMax) :
  valid_scheduler sched1 -> valid_scheduler sched2 ->
  length aggregate1 = 32%nat -> length aggregate2 = 32%nat ->
  4 * Z.of_nat (length data) <= Int.int64_max ->
  GetQuantizationParameter T ReduceRange Symmetric data (Z.of_nat (length data))
    should_parallelize1 sched1 aggregate1
  = GetQuantizationParameter T ReduceRange Symmetric data (Z.of_nat (length data))
      should_parallelize2 sched2 aggregate2.
Proof.
  intros H1 H2 L1 L2 Hn. unfold GetQuantizationParameter.
  rewrite (minmax_reduce_folds data should_parallelize1 sched1 aggregate1 H1 L1 Hn).
  rewrite (minmax_reduce_folds data should_parallelize2 sched2 aggregate2 H2 L2 Hn).
  reflexivity.
Qed.

Lemma GetQuantizationParameter_pool_independent_witness :
  valid_scheduler inline_scheduler /\ valid_scheduler reverse_scheduler /\
  length garbage = 32%nat /\
  length (repeat {| min := F32.zero; max := F32.one |} 32) = 32%nat /\
  4 * Z.of_nat (length sample_data) <= Int.int64_max /\
  GetQuantizationParameter UInt8 false false sample_data
    (Z.of_nat (length sample_data)) false inline_scheduler garbage
  = GetQuantizationParameter UInt8 false false sample_data
      (Z.of_nat (length sample_data)) true reverse_scheduler
      (repeat {| min := F32.zero; max := F32.one |} 32).
Proof.
  split; [exact inline_scheduler_valid|].
  split; [exact reverse_scheduler_valid|].
  split; [reflexivity|]. split; [reflexivity|].
  split; [vm_compute; discriminate|].
  apply (GetQuantizationParameter_pool_independent UInt8 false false sample_data
           false true inline_scheduler reverse_scheduler garbage
           (repeat {| min := F32.zero; max := F32.one |} 32)).
  - exact inline_scheduler_valid.
  - exact reverse_scheduler_valid.
  - reflexivity.
  - reflexivity.
  - vm_compute; discriminate.
Defined.

Lemma std_min_lower a b :
  F32.isnan a = false ->
  F32.isnan (F32.std_min a b) = false /\
  ~ key_lt (order_key a) (order_key (F32.std_min a b)) /\
  (F32.isnan b = false -> ~ key_lt (order_key b) (order_key (F32.std_min a b))).
Proof.
  intros Ha. unfold F32.std_min. destruct (F32.ltb b a) eqn:E.
  - apply ltb_key in E. destruct E as (Hb & _ & K).
    split; [exact Hb|]. split; [|intros _]; key_solve.
  - split; [exact Ha|]. split; [key_solve|].
    intros Hb. apply (ltb_false_key b a Hb Ha E).
Qed.

Lemma std_max_upper a b :
  F32.isnan a = false ->
  F32.isnan (F32.std_max a b) = false /\
  ~ key_lt (order_key (F32.std_max a b)) (order_key a) /\
  (F32.isnan b = false -> ~ key_lt (order_key (F32.std_max a b)) (order_key b)).
Proof.
  intros Ha. unfold F32.std_max. destruct (F32.ltb a b) eqn:E.
  - apply ltb_key in E. destruct E as (_ & Hb & K).
    split; [exact Hb|]. split; [|intros _]; key_solve.
  - split; [exact Ha|]. split; [key_solve|].
    intros Hb. apply (ltb_false_key a b Ha Hb E).
Qed.

Lemma fold_min_lower data : forall acc,
  F32.isnan acc = false ->
  F32.isnan (fold_left F32.std_min data acc) = false /\
  ~ key_lt (order_key acc) (order_key (fold_left F32.std_min data acc)) /\
  forall x, In x data -> F32.isnan x = false ->
    ~ key_lt (order_key x) (order_key (fold_left F32.std_min data acc)).
Proof.
  induction data as [|y l IH]; intros acc Ha; cbn [fold_left].
  - split; [exact Ha|]. split; [key_solve|]. intros x [].
  - destruct (std_min_lower acc y Ha) as (N1 & K1 & K2).
    destruct (IH _ N1) as (N2 & K3 & K4).
    split; [exact N2|]. split; [key_solve|].
    intros x [<-|Hx] Hn.
    + specialize (K2 Hn). key_solve.
    + apply (K4 x Hx Hn).
Qed.

Lemma fold_max_upper data : forall acc,
  F32.isnan acc = false ->
  F32.isnan (fold_left F32.std_max data acc) = false /\
  ~ key_lt (order_key (fold_left F32.std_max data acc)) (order_key acc) /\
  forall x, In x data -> F32.isnan x = false ->
    ~ key_lt (order_key (fold_left F32.std_max data acc)) (order_key x).
Proof.
  induction data as [|y l IH]; intros acc Ha; cbn [fold_left].
  - split; [exact Ha|]. split; [key_solve|]. intros x [].
  - destruct (std_max_upper acc y Ha) as (N1 & K1 & K2).
    destruct (IH _ N1) as (N2 & K3 & K4).
    split; [exact N2|]. split; [key_solve|].
    intros x [<-|Hx] Hn.
    + specialize (K2 Hn). key_solve.
    + apply (K4 x Hx Hn).
Qed.

(** X6. For data without NaN the range the reduction finds covers the
    data: every element lies between the minimum and the maximum, as the
    reduction leaves them and as they are once widened to include zero,
    whatever the partition of the work. *)
Theorem minmax_range_covers_data (data : list float) (should_parallelize : bool)
  (sched : scheduler) (aggregate : list FloatMinMax) :
  valid_scheduler sched ->
  length aggregate = 32%nat ->
  4 * Z.of_nat (length data) <= Int.int64_max ->
  Forall (fun x => F32.isnan x = false) data ->
  exists mm,
    minmax_reduce data (Z.of_nat (length data)) should_parallelize sched aggregate
      = Ok mm /\
    forall x, In x data ->
      F32.leb (fst mm) x = true /\
      F32.leb x (snd mm) = true /\
      F32.leb (fst (include_zero mm)) x = true /\
      F32.leb x (snd (include_zero mm)) = true.
Proof.
  intros Hs Hl Hn Hd. eexists. split; [apply minmax_reduce_folds; assumption|].
  unfold include_zero. cbn [fst snd].
  pose proof (fold_min_of_data data F32.FLT_MAX eq_refl Hd) as N1.
  pose proof (fold_max_of_data data F32.FLT_LOWEST eq_refl Hd) as N2.
  destruct (fold_min_lower data F32.FLT_MAX eq_refl) as (_ & _ & K1).
  destruct (fold_max_upper data F32.FLT_LOWEST eq_refl) as (_ & _ & K2).
  destruct (std_min_lower (fold_left F32.std_min data F32.FLT_MAX) F32.zero N1)
    as (N3 & K3 & _).
  destruct (std_max_upper (fold_left F32.std_max data F32.FLT_LOWEST) F32.zero N2)
    as (N4 & K4 & _).
  intros x Hx.
  pose proof (proj1 (Forall_forall _ _) Hd x Hx) as Hnx. cbn beta in Hnx.
  specialize (K1 x Hx Hnx). specialize (K2 x Hx Hnx).
  repeat split; apply leb_key; (split; [assumption|]); (split; [assumption|]);
    key_solve.
Qed.

Lemma minmax_range_covers_data_witness :
  valid_scheduler reverse_scheduler /\
  length garbage = 32%nat /\
  4 * Z.of_nat (length sample_data) <= Int.int64_max /\
  Forall (fun x => F32.isnan x = false) sample_data /\
  exists mm,
    minmax_reduce sample_data (Z.of_nat (length sample_data)) true
      reverse_scheduler garbage = Ok mm /\
    forall x, In x sample_data ->
      F32.leb (fst mm) x = true /\
      F32.leb x (snd mm) = true /\
      F32.leb (fst (include_zero mm)) x = true /\
      F32.leb x (snd (include_zero mm)) = true.
Proof.
  assert (D : Forall (fun x => F32.isnan x = false) sample_data).
  { apply Forall_forall. intros x Hx. unfold sample_data in Hx.
    apply in_app_iff in Hx. destruct Hx as [Hx|[<-|[]]].
    - apply repeat_spec in Hx. rewrite Hx. reflexivity.
    - reflexivity. }
  split; [exact reverse_scheduler_valid|]. split; [reflexivity|].
  split; [vm_compute; discriminate|]. split; [exact D|].
  apply (minmax_range_covers_data sample_data true reverse_scheduler garbage).
  - exact reverse_scheduler_valid.
  - reflexivity.
  - vm_compute; discriminate.
  - exact D.
Defined.

Lemma fold_min_zeros data : forall acc,
  Forall (fun x => exists s, x = S754_zero s) data ->
  acc = F32.FLT_MAX \/ (exists s, acc = S754_zero s) ->
  fold_left F32.std_min data acc = F32.FLT_MAX \/
  exists s, fold_left F32.std_min data acc = S754_zero s.
Proof.
  induction data as [|y l IH]; intros acc HF Ha; cbn [fold_left]; [exact Ha|].
  inversion HF as [|y' l' [s Hy] HF']. apply IH; [exact HF'|].
  right. rewrite Hy. destruct Ha as [->|[sa ->]].
  - exists s. destruct s; reflexivity.
  - exists sa. destruct s, sa; reflexivity.
Qed.

Lemma fold_max_zeros data : forall acc,
  Forall (fun x => exists s, x = S754_zero s) data ->
  acc = F32.FLT_LOWEST \/ (exists s, acc = S754_zero s) ->
  fold_left F32.std_max data acc = F32.FLT_LOWEST \/
  exists s, fold_left F32.std_max data acc = S754_zero s.
Proof.
  induction data as [|y l IH]; intros acc HF Ha; cbn [fold_left]; [exact Ha|].
  inversion HF as [|y' l' [s Hy] HF']. apply IH; [exact HF'|].
  right. rewrite Hy. destruct Ha as [->|[sa ->]].
  - exists s. destruct s; reflexivity.
  - exists sa. destruct s, sa; reflexivity.
Qed.

(** X7. A tensor without elements, or one that holds only zeros (of either
    sign), gets the scale 1 and the lowest quantized value as zero point, 0
    in the symmetric case, whatever the partition of the work. *)
Theorem zero_data_parameters (T : QType) (ReduceRange Symmetric : bool)
  (data : list float) (should_parallelize : bool) (sched : scheduler)
  (aggregate : list FloatMinMax) :
  valid_scheduler sched ->
  length aggregate = 32%nat ->
  4 * Z.of_nat (length data) <= Int.int64_max ->
  Forall (fun x => exists s, x = S754_zero s) data ->
  GetQuantizationParameter T ReduceRange Symmetric data (Z.of_nat (length data))
    should_parallelize sched aggregate
  = Ok (F32.one,
        if is_int8 T && Symmetric then 0 else fst (quant_range T ReduceRange)).
Proof.
  intros Hs Hl Hn HF. unfold GetQuantizationParameter.
  rewrite (minmax_reduce_folds data should_parallelize sched aggregate Hs Hl Hn).
  cbn [bind]. unfold include_zero. cbn [fst snd].
  destruct (fold_min_zeros data F32.FLT_MAX HF (or_introl eq_refl)) as [->|[s1 ->]];
    destruct (fold_max_zeros data F32.FLT_LOWEST HF (or_introl eq_refl)) as [->|[s2 ->]];
    try destruct s1; try destruct s2;
    destruct T, ReduceRange, Symmetric; vm_compute; reflexivity.
Qed.

Lemma zero_data_parameters_witness :
  valid_scheduler reverse_scheduler /\
  length garbage = 32%nat /\
  4 * Z.of_nat (length (repeat (S754_zero true) 300)) <= Int.int64_max /\
  Forall (fun x => exists s, x = S754_zero s) (repeat (S754_zero true) 300) /\
  GetQuantizationParameter Int8 true false (repeat (S754_zero true) 300)
    (Z.of_nat (length (repeat (S754_zero true) 300))) true reverse_scheduler
    garbage
  = Ok (F32.one,
        if is_int8 Int8 && false then 0 else fst (quant_range Int8 true)).
Proof.
  assert (D : Forall (fun x => exists s, x = S754_zero s)
                     (repeat (S754_zero true) 300)).
  { apply Forall_forall. intros x Hx. apply repeat_spec in Hx. exists true. exact Hx. }
  split; [exact reverse_scheduler_valid|]. split; [reflexivity|].
  split; [vm_compute; discriminate|]. split; [exact D|].
  apply (zero_data_parameters Int8 true false (repeat (S754_zero true) 300) true
           reverse_scheduler garbage).
  - exact reverse_scheduler_valid.
  - reflexivity.
  - vm_compute; discriminate.
  - exact D.
Defined.

(** ** The sign of the scale *)

Lemma binary_round_aux_sign s m e l :
  0 <= m -> has_sign s (binary_round_aux F32.prec F32.emax s m e l).
Proof.
  intros Hm. unfold binary_round_aux.
  pose proof (shr_fexp_bounds m e l Hm) as (B1 & _).
  destruct (shr_fexp F32.prec F32.emax m e l) as [mrs' e1]. cbn [fst snd] in B1.
  pose proof (round_nearest_even_bounds (shr_m mrs') (loc_of_shr_record mrs')) as R.
  remember (round_nearest_even (shr_m mrs') (loc_of_shr_record mrs')) as m2 eqn:Em2.
  clear Em2.
  pose proof (shr_fexp_bounds m2 e1 loc_Exact ltac:(lia)) as (C1 & _).
  destruct (shr_fexp F32.prec F32.emax m2 e1 loc_Exact) as [mrs'' e2].
  cbn [fst snd] in C1.
  destruct (shr_m mrs'') as [|p|p]; cbn [has_sign]; [reflexivity | | lia].
  destruct (e2 <=? F32.emax - F32.prec); reflexivity.
Qed.

Lemma div_sign sx x my ey :
  has_sign sx x -> has_sign sx (F32.div x (S754_finite false my ey)).
Proof.
  intros Hx.
  destruct x as [s|s| |s mx ex]; cbn [has_sign] in Hx; try contradiction; subst s.
  - cbn. destruct sx; reflexivity.
  - cbn. destruct sx; reflexivity.
  - unfold F32.div, SFdiv.
    replace (xorb sx false) with sx by (destruct sx; reflexivity).
    unfold SFdiv_core_binary.
    set (m' := match _ - _ - _ with Zpos _ => _ | Z0 => _ | Zneg _ => _ end).
    assert (Hm' : 0 <= m').
    { unfold m'. destruct (_ - _ - _) as [|p|p]; try lia.
      rewrite Z.shiftl_mul_pow2 by lia.
      apply Z.mul_nonneg_nonneg; [lia | apply Z.pow_nonneg; lia]. }
    pose proof (Z.div_eucl_eq m' (Zpos my) ltac:(lia)) as E.
    pose proof (Z.mod_pos_bound m' (Zpos my) ltac:(lia)) as B.
    unfold Z.modulo in B.
    destruct (Z.div_eucl m' (Zpos my)) as [q r].
    apply binary_round_aux_sign. nia.
Qed.

(** A float that is at least zero is a zero or has the sign bit unset; one
    that is at most zero is a zero or has it set. *)
Lemma leb_zero_sign x :
  F32.leb F32.zero x = true -> (exists s, x = S754_zero s) \/
                               (has_sign false x /\ forall s, x <> S754_zero s).
Proof.
  destruct x as [s|s| |s m e]; cbn; try discriminate.
  - intros _. left. exists s. reflexivity.
  - destruct s; [discriminate|]. intros _. right. split; [reflexivity|discriminate].
  - destruct s; [discriminate|]. intros _. right. split; [reflexivity|discriminate].
Qed.

Lemma leb_sign_zero x :
  F32.leb x F32.zero = true -> (exists s, x = S754_zero s) \/
                               (has_sign true x /\ forall s, x <> S754_zero s).
Proof.
  destruct x as [s|s| |s m e]; cbn; try discriminate.
  - intros _. left. exists s. reflexivity.
  - destruct s; [|discriminate]. intros _. right. split; [reflexivity|discriminate].
  - destruct s; [|discriminate]. intros _. right. split; [reflexivity|discriminate].
Qed.

Lemma has_sign_leb x : has_sign false x -> F32.leb F32.zero x = true.
Proof.
  destruct x as [s|s| |s m e]; cbn [has_sign]; try contradiction;
    intros ->; reflexivity.
Qed.

Lemma has_sign_nan s x : has_sign s x -> F32.isnan x = false.
Proof. destruct x; cbn [has_sign]; try contradiction; reflexivity. Qed.

(** The width of a range that includes zero, when its ends differ. *)
Lemma sub_sign mn mx :
  F32.leb mn F32.zero = true -> F32.leb F32.zero mx = true ->
  F32.eqb mx mn = false ->
  has_sign false (F32.sub mx mn).
Proof.
  intros Hmn Hmx He.
  destruct (leb_zero_sign mx Hmx) as [[s1 ->]|[S1 Z1]];
    destruct (leb_sign_zero mn Hmn) as [[s2 ->]|[S2 Z2]].
  - discriminate He.
  - destruct mn as [s|s| |s m e]; cbn [has_sign] in S2; try contradiction; subst s.
    + exfalso. apply (Z2 true). reflexivity.
    + reflexivity.
    + reflexivity.
  - destruct mx as [s|s| |s m e]; cbn [has_sign] in S1; try contradiction; subst s.
    + exfalso. apply (Z1 false). reflexivity.
    + reflexivity.
    + reflexivity.
  - destruct mx as [s|s| |s m e]; cbn [has_sign] in S1; try contradiction; subst s;
      [exfalso; apply (Z1 false); reflexivity | |];
      destruct mn as [s|s| |s m' e']; cbn [has_sign] in S2; try contradiction; subst s;
      try (exfalso; apply (Z2 true); reflexivity);
      try reflexivity.
    unfold F32.sub, SFsub. cbn [cond_Zopp].
    set (a := fst (shl_align m e (Z.min e e'))).
    set (b := fst (shl_align m' e' (Z.min e e'))).
    clearbody a b.
    replace (Zpos a - - Zpos b) with (Zpos (a + b)) by lia.
    cbn [binary_normalize]. unfold binary_round.
    destruct (shl_align _ _ _) as [mz ez].
    apply binary_round_aux_sign. lia.
Qed.

Lemma ltb_zero_sign x : F32.ltb F32.zero x = true -> has_sign false x.
Proof.
  destruct x as [s|s| |s m e]; cbn; try discriminate;
    destruct s; try discriminate; reflexivity.
Qed.

Lemma of_Z_positive T ReduceRange :
  (exists m e, F32.of_Z (snd (quant_range T ReduceRange)) = S754_finite false m e) /\
  (exists m e, F32.of_Z (snd (quant_range T ReduceRange)
                         - fst (quant_range T ReduceRange))
               = S754_finite false m e).
Proof.
  destruct T, ReduceRange; split; vm_compute; eexists; eexists; reflexivity.
Qed.

(** X8. For data without NaN, infinities included,
    [GetQuantizationParameter] always returns, and the scale it gives is
    never NaN and never negative, whatever the partition of the work. *)
Theorem scale_never_negative (T : QType) (ReduceRange Symmetric : bool)
  (data : list float) (should_parallelize : bool) (sched : scheduler)
  (aggregate : list FloatMinMax) :
  valid_scheduler sched ->
  length aggregate = 32%nat ->
  4 * Z.of_nat (length data) <= Int.int64_max ->
  Forall (fun x => F32.isnan x = false) data ->
  exists scale zp,
    GetQuantizationParameter T ReduceRange Symmetric data (Z.of_nat (length data))
      should_parallelize sched aggregate = Ok (scale, zp) /\
    F32.isnan scale = false /\
    F32.leb F32.zero scale = true.
Proof.
  intros Hs Hl Hn Hd. unfold GetQuantizationParameter.
  rewrite (minmax_reduce_folds data should_parallelize sched aggregate Hs Hl Hn).
  cbn [bind].
  assert (N1 : F32.isnan (fold_left F32.std_min data F32.FLT_MAX) = false)
    by (apply fold_min_of_data; [reflexivity | exact Hd]).
  assert (N2 : F32.isnan (fold_left F32.std_max data F32.FLT_LOWEST) = false)
    by (apply fold_max_of_data; [reflexivity | exact Hd]).
  destruct (include_zero_spans _ _ N1 N2) as (Lmn & Lmx & Nmn & Nmx).
  destruct (include_zero _) as [mn mx]. cbn [fst snd] in *.
  destruct (of_Z_positive T ReduceRange) as [(m1 & e1 & Q1) (m2 & e2 & Q2)].
  assert (S : forall scale, has_sign false scale ->
              F32.isnan scale = false /\ F32.leb F32.zero scale = true).
  { intros scale Hsc. split; [apply (has_sign_nan _ _ Hsc) | apply has_sign_leb, Hsc]. }
  destruct (is_int8 T && Symmetric) eqn:Ei.
  - unfold scale_zero_point. rewrite (surjective_pairing (quant_range T ReduceRange)).
    rewrite Ei. eexists. eexists. split; [reflexivity|]. apply S.
    destruct (F32.ltb F32.zero (F32.std_max mx (F32.neg mn))) eqn:El.
    + rewrite Q1. apply div_sign. apply ltb_zero_sign. exact El.
    + reflexivity.
  - destruct (scale_zero_point_asymmetric T ReduceRange Symmetric mn mx Ei)
      as (scale & zp & E & Esc & _).
    exists scale, zp. split; [exact E|]. apply S. rewrite Esc.
    destruct (F32.eqb mx mn) eqn:Ee; [reflexivity|].
    rewrite Q2. apply div_sign. apply sub_sign; assumption.
Qed.

Lemma scale_never_negative_witness :
  valid_scheduler reverse_scheduler /\
  length garbage = 32%nat /\
  4 * Z.of_nat (length [F32.of_Z 3; S754_infinity true; denorm_min])
    <= Int.int64_max /\
  Forall (fun x => F32.isnan x = false)
         [F32.of_Z 3; S754_infinity true; denorm_min] /\
  exists scale zp,
    GetQuantizationParameter Int8 false false
      [F32.of_Z 3; S754_infinity true; denorm_min]
      (Z.of_nat (length [F32.of_Z 3; S754_infinity true; denorm_min]))
      true reverse_scheduler garbage = Ok (scale, zp) /\
    F32.isnan scale = false /\
    F32.leb F32.zero scale = true.
Proof.
  assert (D : Forall (fun x => F32.isnan x = false)
                     [F32.of_Z 3; S754_infinity true; denorm_min]).
  { repeat constructor. }
  split; [exact reverse_scheduler_valid|]. split; [reflexivity|].
  split; [vm_compute; discriminate|]. split; [exact D|].
  apply (scale_never_negative Int8 false false
           [F32.of_Z 3; S754_infinity true; denorm_min] true reverse_scheduler
           garbage).
  - exact reverse_scheduler_valid.
  - reflexivity.
  - vm_compute; discriminate.
  - exact D.
Defined.

(** ** RoundHalfToEven on its own results *)

Lemma of_Z_fraction_value z s m e :
  Z.abs z < 2 ^ 24 -> F32.of_Z z = S754_finite s m e -> e < 0 ->
  Zpos m = cond_Zopp s z * 2 ^ (- e) /\ 0 < cond_Zopp s z.
Proof.
  intros Hz E He. pose proof (to_Q_of_Z z Hz) as Q. rewrite E in Q.
  rewrite to_Q_fraction in Q by exact He.
  assert (P : 0 < 2 ^ (- e)) by (apply Z.pow_pos_nonneg; lia).
  unfold Qeq in Q. cbn [Qnum Qden inject_Z] in Q. rewrite Z2Pos.id in Q by lia.
  destruct s; cbn [cond_Zopp] in *; nia.
Qed.

Lemma RoundHalfToEven_of_Z z :
  Z.abs z < 2 ^ 24 -> RoundHalfToEven (F32.of_Z z) = F32.of_Z z.
Proof.
  intros Hz. pose proof (binary_normalize_wf z 0 false) as W.
  fold (F32.of_dyadic z 0) in W. fold (F32.of_Z z) in W.
  pose proof (trunc_of_Z z Hz) as Tr.
  destruct (F32.of_Z z) as [s|s| |s m e] eqn:E; try reflexivity.
  - cbn in Tr. assert (z = 0) by congruence. subst z.
    vm_compute in E. injection E as <-. reflexivity.
  - cbn [wf32] in W. destruct W as [Wm We].
    destruct (Z.leb_spec 0 e) as [Hpos|Hneg];
      [apply RoundHalfToEven_integer; exact Hpos|].
    destruct (of_Z_fraction_value z s m e Hz E Hneg) as [Em Hp].
    destruct (RoundHalfToEven_fraction s m e Wm We Hneg) as [_ [[H _]|H]];
      [exact H|].
    rewrite H, Em, Zrne_exact by (apply Z.pow_pos_nonneg; lia).
    replace (cond_Zopp s (cond_Zopp s z)) with z
      by (destruct s; cbn [cond_Zopp]; lia).
    exact E.
Qed.

(** X9. Rounding twice is rounding once: [RoundHalfToEven] leaves its own
    results as they are. *)
Theorem RoundHalfToEven_idempotent (x : float) :
  F32.valid x = true ->
  RoundHalfToEven (RoundHalfToEven x) = RoundHalfToEven x.
Proof.
  intros Hv. pose proof (valid_wf x Hv) as W.
  destruct x as [s|s| |s m e]; try reflexivity.
  - rewrite RoundHalfToEven_zero. reflexivity.
  - cbn [wf32] in W. destruct W as [Wm We].
    destruct (Z.leb_spec 0 e) as [Hpos|Hneg].
    + rewrite !RoundHalfToEven_integer by exact Hpos. reflexivity.
    + destruct (RoundHalfToEven_fraction s m e Wm We Hneg) as [Hn [[H _]|H]].
      * rewrite !H. reflexivity.
      * rewrite H. apply RoundHalfToEven_of_Z.
        destruct s; cbn [cond_Zopp]; lia.
Qed.

Lemma RoundHalfToEven_idempotent_witness :
  F32.valid (F32.of_dyadic (-5) (-1)) = true /\
  RoundHalfToEven (RoundHalfToEven (F32.of_dyadic (-5) (-1)))
  = RoundHalfToEven (F32.of_dyadic (-5) (-1)).
Proof.
  split; [vm_compute; reflexivity|].
  apply (RoundHalfToEven_idempotent (F32.of_dyadic (-5) (-1))).
  vm_compute; reflexivity.
Defined.

(** X10. [RoundHalfToEven], that rounds the zero point, and
    [std::nearbyintf], that rounds the elements the 4-bit quantizers store
    themselves, give the same float, up to the sign of a zero: where
    [std::nearbyintf] gives -0.0, [RoundHalfToEven] gives +0.0. *)
Theorem RoundHalfToEven_nearbyintf (x : float) :
  F32.valid x = true ->
  RoundHalfToEven x = F32.nearbyintf x \/
  (F32.nearbyintf x = S754_zero true /\ RoundHalfToEven x = S754_zero false).
Proof.
  intros Hv. pose proof (valid_wf x Hv) as W.
  destruct x as [s|s| |s m e]; try (left; reflexivity).
  - rewrite RoundHalfToEven_zero. destruct s; [right|left]; auto.
  - cbn [wf32] in W. destruct W as [Wm We].
    destruct (Z.leb_spec 0 e) as [Hpos|Hneg].
    + left. rewrite RoundHalfToEven_integer by exact Hpos.
      unfold F32.nearbyintf.
      replace (0 <=? e) with true by (symmetry; apply Z.leb_le; exact Hpos).
      reflexivity.
    + unfold F32.nearbyintf, F32.rint_mag.
      replace (0 <=? e) with false by (symmetry; apply Z.leb_gt; exact Hneg).
      assert (P : 0 < 2 ^ (- e)) by (apply Z.pow_pos_nonneg; lia).
      destruct (RoundHalfToEven_fraction s m e Wm We Hneg) as [Hn [[H Em]|H]].
      * left. rewrite H.
        assert (Hp : 0 < F32.Zrne (Zpos m) (2 ^ (- e))) by nia.
        assert (En : F32.of_Z (cond_Zopp s (F32.Zrne (Zpos m) (2 ^ (- e))))
                     = S754_finite s m e).
        { rewrite of_Z_signed by exact Hp.
          unfold F32.valid, valid_binary, bounded in Hv.
          apply andb_true_iff in Hv. destruct Hv as [Hc Hb].
          apply binary_round_exact; [exact Hc | lia |].
          left. split; [lia|]. rewrite Z2Pos.id by exact Hp.
          replace (0 - e) with (- e) by lia. exact Em. }
        rewrite <- En.
        destruct (F32.Zrne (Zpos m) (2 ^ (- e))) as [|p|p]; [lia | reflexivity | lia].
      * rewrite H.
        destruct (F32.Zrne (Zpos m) (2 ^ (- e))) as [|p|p]; [|left; reflexivity | lia].
        destruct s; [right|left]; split; reflexivity.
Qed.

Lemma RoundHalfToEven_nearbyintf_witness :
  F32.valid (F32.of_dyadic (-1) (-2)) = true /\
  (RoundHalfToEven (F32.of_dyadic (-1) (-2))
   = F32.nearbyintf (F32.of_dyadic (-1) (-2)) \/
   (F32.nearbyintf (F32.of_dyadic (-1) (-2)) = S754_zero true /\
    RoundHalfToEven (F32.of_dyadic (-1) (-2)) = S754_zero false)).
Proof.
  split; [vm_compute; reflexivity|].
  apply (RoundHalfToEven_nearbyintf (F32.of_dyadic (-1) (-2))).
  vm_compute; reflexivity.
Defined.

(** A finite float as a multiple [A] of 2^-149, and how far its rounding
    is. *)
Lemma rint_near x :
  wf32 x -> F32.isfinite x = true ->
  exists A,
    (F32.to_Q x == Qmake A (Z.to_pos (2 ^ 149)))%Q /\
    - 2 ^ 149 <= 2 * (A - rint x * 2 ^ 149) <= 2 ^ 149 /\
    (Z.abs (2 * (A - rint x * 2 ^ 149)) = 2 ^ 149 -> Z.even (rint x) = true).
Proof.
  intros W Hf. destruct x as [s|s| |s m e]; try discriminate.
  - exists 0. cbn [rint F32.to_Q]. split; [reflexivity|]. split; [lia|].
    intros H. vm_compute in H. discriminate H.
  - cbn [wf32] in W. destruct W as [Wm We]. cbn [rint].
    destruct (Z.leb_spec 0 e) as [Hpos|Hneg].
    + exists (cond_Zopp s (Zpos m * 2 ^ e) * 2 ^ 149).
      unfold F32.rint_mag, F32.to_Q.
      replace (0 <=? e) with true by (symmetry; apply Z.leb_le; exact Hpos).
      split.
      * unfold Qeq. cbn [Qnum Qden inject_Z]. rewrite Z2Pos.id by lia.
        destruct s; cbn [cond_Zopp]; lia.
      * replace (2 * (cond_Zopp s (Zpos m * 2 ^ e) * 2 ^ 149
                      - cond_Zopp s (Zpos m * 2 ^ e) * 2 ^ 149)) with 0 by lia.
        split; [lia|]. intros H. vm_compute in H. discriminate H.
    + assert (P : 0 < 2 ^ (- e)) by (apply Z.pow_pos_nonneg; lia).
      assert (P2 : 0 < 2 ^ (149 + e)) by (apply Z.pow_pos_nonneg; lia).
      assert (EP : 2 ^ 149 = 2 ^ (- e) * 2 ^ (149 + e)).
      { rewrite <- Z.pow_add_r by lia. f_equal. lia. }
      exists (cond_Zopp s (Zpos m) * 2 ^ (149 + e)).
      unfold F32.rint_mag.
      replace (0 <=? e) with false by (symmetry; apply Z.leb_gt; exact Hneg).
      pose proof (Zrne_spec (Zpos m) (2 ^ (- e)) P) as (S1 & S2 & _).
      remember (F32.Zrne (Zpos m) (2 ^ (- e))) as n eqn:En. clear En.
      split.
      * rewrite to_Q_fraction by exact Hneg.
        unfold Qeq. cbn [Qnum Qden]. rewrite !Z2Pos.id by lia.
        rewrite EP. ring.
      * assert (D : 2 * (cond_Zopp s (Zpos m) * 2 ^ (149 + e)
                         - cond_Zopp s n * 2 ^ 149)
                    = cond_Zopp s (2 * (Zpos m - n * 2 ^ (- e))) * 2 ^ (149 + e)).
        { rewrite EP. destruct s; cbn [cond_Zopp]; ring. }
        rewrite D, EP.
        remember (2 * (Zpos m - n * 2 ^ (- e))) as d eqn:Ed.
        remember (2 ^ (- e)) as b eqn:Eb. remember (2 ^ (149 + e)) as c eqn:Ec.
        clear Ed Eb Ec EP D. split.
        -- destruct s; cbn [cond_Zopp]; nia.
        -- intros H.
           assert (Z.abs d = b) by (destruct s; cbn [cond_Zopp] in H; nia).
           specialize (S2 H0). destruct s; cbn [cond_Zopp];
             [rewrite Z.even_opp|]; exact S2.
Qed.

Lemma rint_monotone x y :
  wf32 x -> wf32 y -> F32.isfinite x = true -> F32.isfinite y = true ->
  (F32.to_Q x <= F32.to_Q y)%Q -> rint x <= rint y.
Proof.
  intros Wx Wy Fx Fy Hle.
  destruct (rint_near x Wx Fx) as (A & EA & BA & TA).
  destruct (rint_near y Wy Fy) as (B & EB & BB & TB).
  rewrite EA, EB in Hle. unfold Qle in Hle. cbn [Qnum Qden] in Hle.
  assert (P : 0 < 2 ^ 149) by (apply Z.pow_pos_nonneg; lia).
  rewrite Z2Pos.id in Hle by exact P.
  assert (HAB : A <= B) by nia.
  remember (rint x) as n eqn:En. remember (rint y) as k eqn:Ek. clear En Ek.
  remember (2 ^ 149) as p eqn:Ep. clear Ep Hle EA EB.
  destruct (Z.le_gt_cases n k) as [H|H]; [exact H|]. exfalso.
  assert (E1 : 2 * (A - n * p) = - p) by nia.
  assert (E2 : 2 * (B - k * p) = p) by nia.
  assert (E3 : n = k + 1) by nia.
  assert (Ev1 : Z.even n = true) by (apply TA; lia).
  assert (Ev2 : Z.even k = true) by (apply TB; lia).
  rewrite E3, Z.even_add in Ev1. rewrite Ev2 in Ev1. discriminate Ev1.
Qed.

(** X11. [RoundHalfToEven] keeps the order: of two finite floats, the one
    that is not larger is rounded to an integer that is not larger. *)
Theorem RoundHalfToEven_monotone (x y : float) :
  F32.valid x = true -> F32.valid y = true ->
  F32.isfinite x = true -> F32.isfinite y = true ->
  (F32.to_Q x <= F32.to_Q y)%Q ->
  (F32.to_Q (RoundHalfToEven x) <= F32.to_Q (RoundHalfToEven y))%Q.
Proof.
  intros Vx Vy Fx Fy Hle.
  pose proof (valid_wf x Vx) as Wx. pose proof (valid_wf y Vy) as Wy.
  destruct (RoundHalfToEven_rint x Wx Fx) as [_ Ex].
  destruct (RoundHalfToEven_rint y Wy Fy) as [_ Ey].
  rewrite Ex, Ey. rewrite <- Zle_Qle.
  apply rint_monotone; assumption.
Qed.

Lemma RoundHalfToEven_monotone_witness :
  F32.valid (F32.of_dyadic 3 (-1)) = true /\
  F32.valid (F32.of_dyadic 5 (-1)) = true /\
  F32.isfinite (F32.of_dyadic 3 (-1)) = true /\
  F32.isfinite (F32.of_dyadic 5 (-1)) = true /\
  (F32.to_Q (F32.of_dyadic 3 (-1)) <= F32.to_Q (F32.of_dyadic 5 (-1)))%Q /\
  (F32.to_Q (RoundHalfToEven (F32.of_dyadic 3 (-1)))
   <= F32.to_Q (RoundHalfToEven (F32.of_dyadic 5 (-1))))%Q.
Proof.
  split; [vm_compute; reflexivity|]. split; [vm_compute; reflexivity|].
  split; [vm_compute; reflexivity|]. split; [vm_compute; reflexivity|].
  split; [vm_compute; discriminate|].
  apply (RoundHalfToEven_monotone (F32.of_dyadic 3 (-1)) (F32.of_dyadic 5 (-1))).
  - vm_compute; reflexivity.
  - vm_compute; reflexivity.
  - vm_compute; reflexivity.
  - vm_compute; reflexivity.
  - vm_compute; discriminate.
Defined.

(** ** The blocks of the reduction *)

(** X12. Every unit of the reduction scans a block that is not empty and
    lies inside the data, and accumulates in the slot of its first block:
    for a tensor that is not empty, whether the work is split or not, the
    indices of lines 72-74 do not wrap around, [begin_idx < end_idx <=
    num_of_elements], and the count handed to the kernel is [end_idx -
    begin_idx]. *)
Theorem minmax_units_inside (num_of_elements : Z) (should_parallelize : bool)
  (begin end_ : Z) :
  0 < num_of_elements -> 4 * num_of_elements <= Int.int64_max ->
  0 <= begin < end_ ->
  end_ <= snd (minmax_partition should_parallelize num_of_elements) ->
  let block_size := fst (minmax_partition should_parallelize num_of_elements) in
  let num_blocks := snd (minmax_partition should_parallelize num_of_elements) in
  let begin_idx := Int.mul64 begin block_size in
  let end_idx :=
    Z.min (Int.narrow num_of_elements) (Int.mul64 end_ block_size) in
  begin_idx = begin * block_size /\
  0 <= begin_idx < end_idx /\
  end_idx <= num_of_elements /\
  end_idx - begin_idx <= (end_ - begin) * block_size /\
  Int.size_of_ptrdiff (Int.sub64 end_idx begin_idx) = end_idx - begin_idx /\
  agg_idx begin num_blocks = begin.
Proof.
  intros Hn Hmax Hb He.
  assert (R : forall z, - 2 ^ 63 <= z <= 2 ^ 63 - 1 -> Int.int64_wrap z = z)
    by (intros; apply int64_wrap_small; unfold Int.int64_min, Int.int64_max; lia).
  assert (G : forall bs nb,
            minmax_partition should_parallelize num_of_elements = (bs, nb) ->
            0 < bs -> (nb - 1) * bs < num_of_elements <= nb * bs ->
            nb * bs <= 2 * num_of_elements + 128 ->
            0 < nb ->
            let block_size := fst (minmax_partition should_parallelize num_of_elements) in
            let num_blocks := snd (minmax_partition should_parallelize num_of_elements) in
            let begin_idx := Int.mul64 begin block_size in
            let end_idx :=
              Z.min (Int.narrow num_of_elements) (Int.mul64 end_ block_size) in
            begin_idx = begin * block_size /\
            0 <= begin_idx < end_idx /\
            end_idx <= num_of_elements /\
            end_idx - begin_idx <= (end_ - begin) * block_size /\
            Int.size_of_ptrdiff (Int.sub64 end_idx begin_idx) = end_idx - begin_idx /\
            agg_idx begin num_blocks = begin).
  { intros bs nb E Hbs Hc Hu Hnb. rewrite E in He |- *. cbn [fst snd] in He |- *.
    unfold Int.int64_max in Hmax. cbv zeta.
    unfold Int.mul64, Int.sub64, Int.size_of_ptrdiff, Int.narrow.
    assert (0 <= begin * bs <= (nb - 1) * bs) by nia.
    assert (begin * bs + bs <= end_ * bs <= nb * bs) by nia.
    rewrite (R (begin * bs)) by lia. rewrite (R (end_ * bs)) by lia.
    rewrite (R (Z.min num_of_elements (end_ * bs) - begin * bs)) by lia.
    rewrite (size_wrap_small (Z.min num_of_elements (end_ * bs) - begin * bs))
      by (unfold Int.size_max; lia).
    unfold agg_idx, Int.rem64. rewrite Z.rem_small by lia.
    repeat split; nia. }
  destruct (should_parallelize && (granularity <? num_of_elements)) eqn:Ep.
  - apply andb_true_iff in Ep. destruct Ep as [-> Hg]. apply Z.ltb_lt in Hg.
    pose proof (minmax_partition_parallel num_of_elements Hg Hmax) as E.
    unfold granularity, Int.int64_max in *.
    pose proof (ceil_div_bounds num_of_elements 32 ltac:(lia) ltac:(lia)) as B0.
    replace (num_of_elements + 32 - 1) with (num_of_elements + 31) in B0 by lia.
    set (b0 := (num_of_elements + 31) / 32) in *.
    pose proof (ceil_div_bounds b0 128 ltac:(lia) ltac:(lia)) as B1.
    replace (b0 + 128 - 1) with (b0 + 127) in B1 by lia.
    set (k := (b0 + 127) / 128) in *.
    assert (Hk : 0 < k) by lia.
    pose proof (ceil_div_bounds num_of_elements (k * 128) ltac:(lia) ltac:(lia)) as B2.
    set (nb := (num_of_elements + k * 128 - 1) / (k * 128)) in *.
    apply (G (k * 128) nb E); nia.
  - assert (E : minmax_partition should_parallelize num_of_elements
                = (num_of_elements, 1)).
    { unfold minmax_partition. rewrite Ep. reflexivity. }
    apply (G num_of_elements 1 E); lia.
Qed.

Lemma minmax_units_inside_witness :
  0 < 4097 /\ 4 * 4097 <= Int.int64_max /\ 0 <= 14 < 17 /\
  17 <= snd (minmax_partition true 4097) /\
  let block_size := fst (minmax_partition true 4097) in
  let num_blocks := snd (minmax_partition true 4097) in
  let begin_idx := Int.mul64 14 block_size in
  let end_idx := Z.min (Int.narrow 4097) (Int.mul64 17 block_size) in
  begin_idx = 14 * block_size /\
  0 <= begin_idx < end_idx /\
  end_idx <= 4097 /\
  end_idx - begin_idx <= (17 - 14) * block_size /\
  Int.size_of_ptrdiff (Int.sub64 end_idx begin_idx) = end_idx - begin_idx /\
  agg_idx 14 num_blocks = 14.
Proof.
  split; [lia|]. split; [vm_compute; discriminate|]. split; [lia|].
  split; [vm_compute; discriminate|].
  apply (minmax_units_inside 4097 true 14 17).
  - lia.
  - vm_compute; discriminate.
  - lia.
  - vm_compute; discriminate.
Defined.

(** ** Data without negative elements *)

Lemma fold_min_nonnegative data : forall acc,
  F32.ltb acc F32.zero = false ->
  Forall (fun x => F32.ltb x F32.zero = false) data ->
  F32.ltb (fold_left F32.std_min data acc) F32.zero = false.
Proof.
  induction data as [|y l IH]; intros acc Ha HF; cbn [fold_left]; [exact Ha|].
  inversion HF as [|y' l' Hy HF']. apply IH; [|exact HF'].
  unfold F32.std_min. destruct (F32.ltb y acc); assumption.
Qed.

Lemma not_negative_min_zero m :
  F32.isnan m = false -> F32.ltb m F32.zero = false ->
  exists s, F32.std_min m F32.zero = S754_zero s.
Proof.
  intros Hn Hl. unfold F32.std_min.
  destruct m as [s|s| |s mm e]; try discriminate.
  - exists s. reflexivity.
  - destruct s; [discriminate Hl|]. exists false. reflexivity.
  - destruct s; [discriminate Hl|]. exists false. reflexivity.
Qed.

Lemma zero_div_scale s scale :
  has_sign false scale -> F32.eqb scale F32.zero = false ->
  F32.div (S754_zero s) scale = S754_zero s.
Proof.
  intros Hs He.
  destruct scale as [s'|s'| |s' m e]; cbn [has_sign] in Hs; try contradiction;
    subst s'; [discriminate He | |]; cbn; destruct s; reflexivity.
Qed.

(** X13. For data without negative elements the zero point is the lowest
    quantized value, so that 0.0, the minimum of the widened range, is
    stored as it: this holds whenever the scale did not underflow to
    zero. *)
Theorem nonnegative_data_zero_point (T : QType) (ReduceRange Symmetric : bool)
  (data : list float) (should_parallelize : bool) (sched : scheduler)
  (aggregate : list FloatMinMax) :
  valid_scheduler sched ->
  length aggregate = 32%nat ->
  4 * Z.of_nat (length data) <= Int.int64_max ->
  is_int8 T && Symmetric = false ->
  Forall (fun x => F32.ltb x F32.zero = false) data ->
  exists scale zp,
    GetQuantizationParameter T ReduceRange Symmetric data (Z.of_nat (length data))
      should_parallelize sched aggregate = Ok (scale, zp) /\
    (F32.eqb scale F32.zero = false -> zp = fst (quant_range T ReduceRange)).
Proof.
  intros Hs Hl Hn Ei HF. unfold GetQuantizationParameter.
  rewrite (minmax_reduce_folds data should_parallelize sched aggregate Hs Hl Hn).
  cbn [bind].
  assert (N1 : F32.isnan (fold_left F32.std_min data F32.FLT_MAX) = false)
    by (apply fold_min_lower; reflexivity).
  assert (N2 : F32.isnan (fold_left F32.std_max data F32.FLT_LOWEST) = false)
    by (apply fold_max_upper; reflexivity).
  destruct (include_zero_spans _ _ N1 N2) as (Lmn & Lmx & Nmn & Nmx).
  pose proof (fold_min_nonnegative data F32.FLT_MAX eq_refl HF) as Hnn.
  destruct (not_negative_min_zero _ N1 Hnn) as [s0 Emn].
  unfold include_zero in *. cbn [fst snd] in *. rewrite Emn in *.
  set (mx := F32.std_max (fold_left F32.std_max data F32.FLT_LOWEST) F32.zero) in *.
  destruct (of_Z_positive T ReduceRange) as [_ (m2 & e2 & Q2)].
  unfold scale_zero_point. rewrite (surjective_pairing (quant_range T ReduceRange)).
  rewrite Ei.
  set (scale := if F32.eqb mx (S754_zero s0) then F32.one
                else F32.div (F32.sub mx (S754_zero s0))
                       (F32.of_Z (snd (quant_range T ReduceRange)
                                  - fst (quant_range T ReduceRange)))).
  assert (Ssc : has_sign false scale).
  { unfold scale. destruct (F32.eqb mx (S754_zero s0)) eqn:Ee; [reflexivity|].
    rewrite Q2. apply div_sign. apply sub_sign; assumption. }
  destruct (F32.eqb scale F32.zero) eqn:Ez.
  - destruct (scale_zero_point_asymmetric T ReduceRange Symmetric (S754_zero s0) mx Ei)
      as (scale' & zp & E & _).
    unfold scale_zero_point in E.
    rewrite (surjective_pairing (quant_range T ReduceRange)), Ei in E.
    fold scale in E.
    destruct (F32.static_cast_int _ _ _) as [z|err]; cbn [bind] in E |- *;
      [|discriminate E].
    exists scale, z. split; [reflexivity|].
    intros H. rewrite Ez in H. discriminate H.
  - rewrite (zero_div_scale s0 scale Ssc Ez).
    exists scale, (fst (quant_range T ReduceRange)). split; [|reflexivity].
    clearbody scale. clear -Ei.
    destruct T, ReduceRange, s0; destruct Symmetric; try discriminate Ei;
      reflexivity.
Qed.

Lemma nonnegative_data_zero_point_witness :
  valid_scheduler reverse_scheduler /\
  length garbage = 32%nat /\
  4 * Z.of_nat (length [F32.of_Z 3; S754_nan; F32.zero; F32.of_Z 100])
    <= Int.int64_max /\
  is_int8 UInt8 && true = false /\
  Forall (fun x => F32.ltb x F32.zero = false)
         [F32.of_Z 3; S754_nan; F32.zero; F32.of_Z 100] /\
  exists scale zp,
    GetQuantizationParameter UInt8 true true
      [F32.of_Z 3; S754_nan; F32.zero; F32.of_Z 100]
      (Z.of_nat (length [F32.of_Z 3; S754_nan; F32.zero; F32.of_Z 100]))
      true reverse_scheduler garbage = Ok (scale, zp) /\
    (F32.eqb scale F32.zero = false -> zp = fst (quant_range UInt8 true)).
Proof.
  assert (D : Forall (fun x => F32.ltb x F32.zero = false)
                     [F32.of_Z 3; S754_nan; F32.zero; F32.of_Z 100]).
  { repeat constructor. }
  split; [exact reverse_scheduler_valid|]. split; [reflexivity|].
  split; [vm_compute; discriminate|]. split; [reflexivity|]. split; [exact D|].
  apply (nonnegative_data_zero_point UInt8 true true
           [F32.of_Z 3; S754_nan; F32.zero; F32.of_Z 100] true reverse_scheduler
           garbage).
  - exact reverse_scheduler_valid.
  - reflexivity.
  - vm_compute; discriminate.
  - reflexivity.
  - exact D.
Defined.
